(** * manheim_c7n_tools.policygen: the policy generator, embedded in Rocq

    The development follows [src/manheim_c7n_tools/policygen.py].

    Modelling domain.  A policy or defaults document is what PyYAML's
    safe loader builds from a YAML file: [None], booleans, integers,
    strings, lists and dictionaries whose keys are strings.  Floating
    point scalars and non-string mapping keys are outside the model.
    Dictionaries are association lists in insertion order, as Python
    dictionaries iterate; a Python dictionary never holds a key twice,
    which is the predicate [wf].

    Python raises exceptions where an operand has the wrong dynamic
    type; every function below returns a [result] and raises the
    exception Python raises.

    Two models are given.  Module-level definitions are the functions of
    [PolicyGen] on values, each in-place update written as the new value
    of the updated object.  [Module Heap] runs the defaulting functions
    on an explicit object store with references, where two names may
    denote one object; it is the model used for the effect of
    [_apply_defaults] on its arguments. *)

From Stdlib Require Import Ascii ZArith List Bool Lia DecimalString Sorted Permutation.
From Stdlib Require String.
From stdpp Require Import base tactics option list strings.
Import ListNotations.
#[local] Set Warnings "-register-all".

(** ** Python values and exceptions *)

Inductive value : Type :=
| VNone
| VBool (b : bool)
| VInt (n : Z)
| VStr (s : string)
| VList (l : list value)
| VDict (d : list (string * value)).

Abbreviation dict := (list (string * value)).

Inductive exn : Type :=
| KeyError (key : string)
| IndexError
| AttributeError
| TypeError
| ValueError
| RuntimeError (msg : string)
| RecursionError
| SystemError
| SystemExit (code : Z).

Inductive result (A : Type) : Type :=
| Ok (a : A)
| Raise (e : exn).
Arguments Ok {A} a.
Arguments Raise {A} e.

#[global] Instance result_ret : MRet result := fun A a => Ok a.
#[global] Instance result_bind : MBind result := fun A B f m =>
  match m with
  | Ok a => f a
  | Raise e => Raise e
  end.

Definition is_ok {A} (m : result A) : bool :=
  match m with Ok _ => true | Raise _ => false end.

Definition raises {A} (m : result A) : Prop := exists e, m = Raise e.

(** A loop [for x in xs: acc = f(acc, x)] in which the body may raise. *)
Definition foldM {A B} (f : A -> B -> result A) : list B -> A -> result A :=
  fix go (xs : list B) (acc : A) : result A :=
    match xs with
    | [] => Ok acc
    | x :: xs' => acc' ← f acc x; go xs' acc'
    end.

(** ** Dictionaries in insertion order *)

Fixpoint dict_get (k : string) (d : dict) : option value :=
  match d with
  | [] => None
  | (k', v) :: d' => if String.eqb k k' then Some v else dict_get k d'
  end.

Definition dict_has (k : string) (d : dict) : bool :=
  match dict_get k d with Some _ => true | None => false end.

(** [d[k] = v]: an existing key keeps its position, a new one goes last. *)
Fixpoint dict_set (k : string) (v : value) (d : dict) : dict :=
  match d with
  | [] => [(k, v)]
  | (k', v') :: d' =>
      if String.eqb k k' then (k', v) :: d' else (k', v') :: dict_set k v d'
  end.

(** [del d[k]] *)
Fixpoint dict_del (k : string) (d : dict) : dict :=
  match d with
  | [] => []
  | (k', v') :: d' =>
      if String.eqb k k' then d' else (k', v') :: dict_del k d'
  end.

(** [d.update(e)] for a dictionary [e]. *)
Definition dict_update (d e : dict) : dict :=
  fold_left (fun acc kv => dict_set (fst kv) (snd kv) acc) e d.

Definition keys (d : dict) : list string := map fst d.

(** ** Equality, [==] *)

Definition Z_of_bool (b : bool) : Z := if b then 1%Z else 0%Z.

Fixpoint py_eq (a b : value) {struct a} : bool :=
  match a, b with
  | VNone, VNone => true
  | VBool x, VBool y => Bool.eqb x y
  | VBool x, VInt y => Z.eqb (Z_of_bool x) y
  | VInt x, VBool y => Z.eqb x (Z_of_bool y)
  | VInt x, VInt y => Z.eqb x y
  | VStr x, VStr y => String.eqb x y
  | VList x, VList y =>
      (fix list_eq (x y : list value) {struct x} : bool :=
         match x, y with
         | [], [] => true
         | a :: x', b :: y' => py_eq a b && list_eq x' y'
         | _, _ => false
         end) x y
  | VDict x, VDict y =>
      Nat.eqb (length x) (length y) &&
      (fix all_in (x : dict) {struct x} : bool :=
         match x with
         | [] => true
         | (k, v) :: x' =>
             match dict_get k y with
             | Some w => py_eq v w
             | None => false
             end && all_in x'
         end) x
  | _, _ => false
  end.

(** [x in xs] for a list [xs]. *)
Definition list_contains (x : value) (xs : list value) : bool :=
  existsb (py_eq x) xs.

(** Lists and dictionaries are unhashable: they cannot be dictionary keys. *)
Definition hashable (v : value) : bool :=
  match v with
  | VList _ | VDict _ => false
  | _ => true
  end.

Definition is_dict (v : value) : bool :=
  match v with VDict _ => true | _ => false end.
Definition is_list (v : value) : bool :=
  match v with VList _ => true | _ => false end.

(** ** Strings: [str], [repr], [in], [endswith] *)

Definition string_of_Z (n : Z) : string :=
  NilZero.string_of_int (Z.to_int n).

Definition dquote : ascii := "034"%char.
Definition squote : ascii := "039"%char.
Definition backslash : ascii := "092"%char.

Definition hex_digit (n : nat) : ascii :=
  nth n (String.list_ascii_of_string "0123456789abcdef") "0"%char.

Fixpoint str_has_char (c : ascii) (s : string) : bool :=
  match s with
  | EmptyString => false
  | String c' s' => Ascii.eqb c c' || str_has_char c s'
  end.

(** The escape [repr] writes for one character inside quotes [q].  Bytes
    from 128 on belong to UTF-8 encodings of printable characters and are
    copied. *)
Definition repr_char (q : ascii) (c : ascii) : string :=
  let n := nat_of_ascii c in
  if Ascii.eqb c backslash then String backslash (String backslash EmptyString)
  else if Ascii.eqb c q then String backslash (String q EmptyString)
  else if Nat.eqb n 9 then String backslash "t"
  else if Nat.eqb n 10 then String backslash "n"
  else if Nat.eqb n 13 then String backslash "r"
  else if Nat.ltb n 32 || Nat.eqb n 127 then
    String backslash
      (String "x" (String (hex_digit (n / 16)) (String (hex_digit (n mod 16)) EmptyString)))
  else String c EmptyString.

Fixpoint repr_chars (q : ascii) (s : string) : string :=
  match s with
  | EmptyString => EmptyString
  | String c s' => repr_char q c +:+ repr_chars q s'
  end.

(** [repr(s)]: single quotes, unless [s] has a single quote and no double
    quote. *)
Definition repr_str (s : string) : string :=
  let q := if str_has_char squote s && negb (str_has_char dquote s)
           then dquote else squote in
  String q (repr_chars q s +:+ String q EmptyString).

Definition join (sep : string) (xs : list string) : string :=
  match xs with
  | [] => ""
  | x :: xs' => fold_left (fun acc y => acc +:+ sep +:+ y) xs' x
  end.

Fixpoint py_repr (v : value) : string :=
  match v with
  | VNone => "None"
  | VBool true => "True"
  | VBool false => "False"
  | VInt n => string_of_Z n
  | VStr s => repr_str s
  | VList l => "[" +:+ join ", " (map py_repr l) +:+ "]"
  | VDict d =>
      "{" +:+ join ", " (map (fun kv => repr_str (fst kv) +:+ ": " +:+ py_repr (snd kv)) d)
          +:+ "}"
  end.

(** [str(v)], also what ['%s' % v] inserts. *)
Definition py_str (v : value) : string :=
  match v with
  | VStr s => s
  | _ => py_repr v
  end.

Fixpoint startswith (p s : string) : bool :=
  match p, s with
  | EmptyString, _ => true
  | String a p', String b s' => Ascii.eqb a b && startswith p' s'
  | String _ _, EmptyString => false
  end.

(** [needle in hay] for two strings. *)
Fixpoint str_contains (needle hay : string) : bool :=
  startswith needle hay ||
  match hay with
  | EmptyString => false
  | String _ hay' => str_contains needle hay'
  end.

Fixpoint endswith (s suffix : string) : bool :=
  String.eqb s suffix ||
  match s with
  | EmptyString => false
  | String _ s' => endswith s' suffix
  end.

(** ** Operations on values, with Python's exceptions *)

(** [c[k]] for the string key [k]. *)
Definition getitem (c : value) (k : string) : result value :=
  match c with
  | VDict d =>
      match dict_get k d with
      | Some v => Ok v
      | None => Raise (KeyError k)
      end
  | _ => Raise TypeError
  end.

(** [c[0]] *)
Definition getitem0 (c : value) : result value :=
  match c with
  | VList (x :: _) => Ok x
  | VList [] => Raise IndexError
  | VStr (String a _) => Ok (VStr (String a EmptyString))
  | VStr EmptyString => Raise IndexError
  | VDict _ => Raise (KeyError "0")
  | _ => Raise TypeError
  end.

(** [c[k] = v] *)
Definition setitem (c : value) (k : string) (v : value) : result value :=
  match c with
  | VDict d => Ok (VDict (dict_set k v d))
  | _ => Raise TypeError
  end.

(** [del c[k]] *)
Definition delitem (c : value) (k : string) : result value :=
  match c with
  | VDict d =>
      if dict_has k d then Ok (VDict (dict_del k d)) else Raise (KeyError k)
  | _ => Raise TypeError
  end.

(** [x in c] *)
Definition contains (x c : value) : result bool :=
  match c with
  | VList l => Ok (list_contains x l)
  | VDict d =>
      match x with
      | VStr k => Ok (dict_has k d)
      | VList _ | VDict _ => Raise TypeError
      | _ => Ok false
      end
  | VStr s =>
      match x with
      | VStr n => Ok (str_contains n s)
      | _ => Raise TypeError
      end
  | _ => Raise TypeError
  end.

(** ['k' in c] for a string literal. *)
Definition has_key (k : string) (c : value) : result bool :=
  contains (VStr k) c.

(** [c.get(k, default)] *)
Definition get (c : value) (k : string) (default : value) : result value :=
  match c with
  | VDict d =>
      match dict_get k d with
      | Some v => Ok v
      | None => Ok default
      end
  | _ => Raise AttributeError
  end.

(** [c.items()] *)
Definition items (c : value) : result dict :=
  match c with
  | VDict d => Ok d
  | _ => Raise AttributeError
  end.

Definition chars (s : string) : list value :=
  map (fun a => VStr (String a EmptyString)) (String.list_ascii_of_string s).

(** [for x in c] *)
Definition iter (c : value) : result (list value) :=
  match c with
  | VList l => Ok l
  | VDict d => Ok (map VStr (keys d))
  | VStr s => Ok (chars s)
  | _ => Raise TypeError
  end.

(** [c.append(x)] *)
Definition append (c x : value) : result value :=
  match c with
  | VList l => Ok (VList (l ++ [x]))
  | _ => Raise AttributeError
  end.

(** One element of the argument of [dict.update] when that is not a
    dictionary: a sequence of length two whose first item is the key.  A
    key that is not a string is outside the model; [TypeError] stands for
    it. *)
Definition update_pair (d : dict) (e : value) : result dict :=
  kv ← iter e;
  match kv with
  | [VStr k; v] => Ok (dict_set k v d)
  | [_; _] => Raise TypeError
  | _ => Raise ValueError
  end.

(** [c.update(x)] *)
Definition update (c x : value) : result value :=
  match c with
  | VDict d =>
      match x with
      | VDict e => Ok (VDict (dict_update d e))
      | _ => es ← iter x; d' ← foldM update_pair es d; Ok (VDict d')
      end
  | _ => Raise AttributeError
  end.

(** [s.endswith(suffix)] *)
Definition py_endswith (s : value) (suffix : string) : result bool :=
  match s with
  | VStr x => Ok (endswith x suffix)
  | _ => Raise AttributeError
  end.

(** ** [PolicyGen._array_merge] *)

(** The local dictionary [def_dicts]: the defaults' dictionaries by their
    ["type"], in insertion order.  Its keys are values, looked up with
    [==] as Python does for hashable keys. *)
Abbreviation defs := (list (value * dict)).

(** [t in def_dicts] *)
Definition defs_has (t : value) (dd : defs) : result bool :=
  if hashable t then Ok (existsb (fun e => py_eq t (fst e)) dd)
  else Raise TypeError.

(** [def_dicts[t]], for a key that is there. *)
Fixpoint defs_get (t : value) (dd : defs) : option dict :=
  match dd with
  | [] => None
  | (t', d) :: dd' => if py_eq t t' then Some d else defs_get t dd'
  end.

(** [del def_dicts[t]] *)
Fixpoint defs_del (t : value) (dd : defs) : defs :=
  match dd with
  | [] => []
  | (t', d) :: dd' => if py_eq t t' then dd' else (t', d) :: defs_del t dd'
  end.

Definition no_type_msg : string :=
  "Do not know how to handle a defaults dict without a " +:+
  String dquote ("type" +:+ String dquote " key.").

Definition same_type_msg : string :=
  "Defaults cannot specify multiple dicts with the same " +:+
  String dquote ("type" +:+ String dquote " in the same array!").

Definition non_array_msg (policy_name base : value) : string :=
  "Policy " +:+ py_str policy_name +:+
  ": Cannot array merge non-array from defaults (" +:+ py_str base +:+ ")".

(** The body of [for v in base], on the state [(update, def_dicts)]. *)
Definition find_default (st : list value * defs) (v : value)
  : result (list value * defs) :=
  let '(update, def_dicts) := st in
  match v with
  | VDict d =>
      t ← get v "type" VNone;
      match t with
      | VNone => Raise (RuntimeError no_type_msg)
      | _ =>
          dup ← defs_has t def_dicts;
          if (dup : bool) then Raise (RuntimeError same_type_msg)
          else Ok (update, def_dicts ++ [(t, d)])
      end
  | _ =>
      if negb (list_contains v update) then Ok (update ++ [v], def_dicts)
      else Ok (update, def_dicts)
  end.

(** [for k, v in def_dicts[t].items(): if k not in i: i[k] = v] *)
Definition fill_missing (i d : dict) : dict :=
  fold_left
    (fun i kv => if negb (dict_has (fst kv) i) then dict_set (fst kv) (snd kv) i else i)
    d i.

(** The body of [for i in update]: the new value of the entry [i] and of
    [def_dicts]. *)
Definition do_update (i : value) (def_dicts : defs) : result (value * defs) :=
  match i with
  | VDict e =>
      t ← get i "type" VNone;
      match t with
      | VNone => Ok (i, def_dicts)
      | _ =>
          known ← defs_has t def_dicts;
          if negb (known : bool) then Ok (i, def_dicts)
          else
            match defs_get t def_dicts with
            | Some d => Ok (VDict (fill_missing e d), defs_del t def_dicts)
            | None => Raise (KeyError (py_str t))
            end
      end
  | _ => Ok (i, def_dicts)
  end.

Fixpoint do_updates (update : list value) (def_dicts : defs)
  : result (list value * defs) :=
  match update with
  | [] => Ok ([], def_dicts)
  | i :: rest =>
      '(i', dd) ← do_update i def_dicts;
      '(rest', dd') ← do_updates rest dd;
      Ok (i' :: rest', dd')
  end.

(** [for k, v in def_dicts.items()]: the defaults nothing used. *)
Definition add_defaults (path : list string) (update : list value) (def_dicts : defs)
  : list value :=
  fold_left
    (fun update kv =>
       if bool_decide (path = ["actions"]) && py_eq (fst kv) (VStr "notify")
       then update
       else update ++ [VDict (snd kv)])
    def_dicts update.

(** The result is the object [update], changed in place. *)
Definition _array_merge (base : value) (update : list value)
    (policy_name : value) (path : list string) : result (list value) :=
  match base with
  | VList b =>
      '(update, def_dicts) ← foldM find_default b (update, []);
      '(update, def_dicts) ← do_updates update def_dicts;
      Ok (add_defaults path update def_dicts)
  | _ => Raise (RuntimeError (non_array_msg policy_name base))
  end.

(** ** [PolicyGen._merge_conf] *)

(** The body of [for k, v in update.items()], given the recursive call for
    the dictionary case.  It returns the new value of [base] and the new
    value of the object [v], which [_array_merge] and nested merges change
    in place. *)
Definition merge_item (rec : value -> list string -> result (value * value))
    (policy_name : value) (path : list string)
    (base : value) (k : string) (v : value) : result (value * value) :=
  let kpath := path ++ [k] in
  short ←
    (if bool_decide (kpath = ["mode"]) then
       t ← get v "type" (VStr "periodic");
       Ok (negb (py_eq t (VStr "periodic")))
     else Ok false);
  if (short : bool) then
    base ← setitem base k v; Ok (base, v)
  else
    present ← has_key k base;
    if negb (present : bool) then
      base ← setitem base k v; Ok (base, v)
    else
      match v with
      | VList l =>
          bk ← getitem base k;
          l' ← _array_merge bk l policy_name kpath;
          base ← setitem base k (VList l');
          Ok (base, VList l')
      | VDict _ =>
          bk ← getitem base k;
          '(bk', v') ← rec bk kpath;
          base ← setitem base k bk';
          Ok (base, v')
      | _ =>
          base ← setitem base k v; Ok (base, v)
      end.

(** [_merge_conf base update policy_name path] returns the new value of
    [base], which is the method's result, and the new value of [update]. *)
Fixpoint _merge_conf (base update policy_name : value) (path : list string)
    {struct update} : result (value * value) :=
  match update with
  | VDict its =>
      '(base, its') ←
        (fix loop (its : dict) (base : value) {struct its} : result (value * dict) :=
           match its with
           | [] => Ok (base, [])
           | (k, v) :: rest =>
               '(base, v') ←
                 merge_item (fun bk kpath => _merge_conf bk v policy_name kpath)
                   policy_name path base k v;
               '(base, rest') ← loop rest base;
               Ok (base, (k, v') :: rest')
           end) its base;
      drop ←
        (if bool_decide (path = []) then
           inb ← has_key "actions" base;
           Ok (inb && negb (dict_has "actions" its))
         else Ok false);
      if (drop : bool) then
        base ← delitem base "actions"; Ok (base, VDict its')
      else Ok (base, VDict its')
  | _ => Raise AttributeError
  end.

(** ** [PolicyGen._add_always_notify] and [PolicyGen._apply_defaults] *)

(** The part of [CaisConfig] the generator reads: [always_notify] is
    [None] when the configuration object has no such attribute. *)
Record CaisConfig : Type := { always_notify : option value }.

(** [for to_addr in desired['to']: if to_addr not in action['to']:
    action['to'].append(to_addr)] *)
Definition add_recipient (action to_addr : value) : result value :=
  cur ← getitem action "to";
  inb ← contains to_addr cur;
  if negb (inb : bool) then
    cur' ← append cur to_addr; setitem action "to" cur'
  else Ok action.

(** [for action in conf['actions']] on a list: [Some] of the list after
    the first matching action took the recipients, [None] when the loop
    ends with [added] false. *)
Fixpoint notify_scan (desired : value) (actions : list value)
  : result (option (list value)) :=
  match actions with
  | [] => Ok None
  | action :: rest =>
      let continue :=
        r ← notify_scan desired rest; Ok (option_map (cons action) r) in
      match action with
      | VDict _ =>
          t ← get action "type" VNone;
          if negb (py_eq t (VStr "notify")) then continue
          else
            tr ← get action "transport" (VDict []);
            dtr ← getitem desired "transport";
            if negb (py_eq tr dtr) then continue
            else
              has_to ← has_key "to" action;
              action ← (if negb (has_to : bool)
                        then setitem action "to" (VList [])
                        else Ok action);
              to ← getitem desired "to";
              addrs ← iter to;
              action ← foldM add_recipient addrs action;
              Ok (Some (action :: rest))
      | _ => continue
      end
  end.

Definition _add_always_notify (config : CaisConfig) (conf : value) : result value :=
  match always_notify config with
  | None => Ok conf
  | Some desired =>
      desired ← setitem desired "type" (VStr "notify");
      actions ← getitem conf "actions";
      match actions with
      | VList l =>
          r ← notify_scan desired l;
          match r with
          | Some l' => setitem conf "actions" (VList l')
          | None => setitem conf "actions" (VList (l ++ [desired]))
          end
      | _ =>
          (* no entry of a dictionary or of a string is a dictionary *)
          _ ← iter actions;
          _ ← append actions desired;
          Ok conf
      end
  end.

Definition _apply_defaults (config : CaisConfig) (defaults policy : value)
  : result value :=
  name ← getitem policy "name";
  '(conf, policy) ← _merge_conf defaults policy name [];
  (* set Lambda func 'Component' tag to the policy name *)
  mode ← getitem conf "mode";
  ty ← getitem mode "type";
  mode ←
    (if py_eq ty (VStr "periodic") then
       has_tags ← has_key "tags" mode;
       if negb (has_tags : bool) then setitem mode "tags" (VDict []) else Ok mode
     else Ok mode);
  has_tags ← has_key "tags" mode;
  mode ←
    (if (has_tags : bool) then
       tags ← getitem mode "tags";
       dmode ← get defaults "mode" (VDict []);
       dtags ← get dmode "tags" (VDict []);
       tags ← update tags dtags;
       name ← getitem policy "name";
       tags ← setitem tags "Component" name;
       setitem mode "tags" tags
     else Ok mode);
  conf ← setitem conf "mode" mode;
  has_actions ← has_key "actions" conf;
  conf ←
    (if negb (has_actions : bool) then setitem conf "actions" (VList [])
     else Ok conf);
  _add_always_notify config conf.

(** ** [strip_doc] *)

Definition nl : ascii := "010"%char.

(** Whitespace, as [str.strip] and the pattern [\s] see it in ASCII. *)
Definition is_space (c : ascii) : bool :=
  let n := nat_of_ascii c in
  (Nat.leb 9 n && Nat.leb n 13) || (Nat.leb 28 n && Nat.leb n 32).

(** [d.replace("\n", " ")] *)
Fixpoint replace_newlines (s : string) : string :=
  match s with
  | EmptyString => EmptyString
  | String c s' =>
      String (if Ascii.eqb c nl then " "%char else c) (replace_newlines s')
  end.

Fixpoint lstrip (s : string) : string :=
  match s with
  | String c s' => if is_space c then lstrip s' else s
  | EmptyString => EmptyString
  end.

Definition string_rev (s : string) : string :=
  String.string_of_list_ascii (rev (String.list_ascii_of_string s)).

(** [s.strip()] *)
Definition strip (s : string) : string :=
  string_rev (lstrip (string_rev (lstrip s))).

(** [whtspc_re.sub(' ', s)]: every maximal run of whitespace becomes one
    space. *)
Fixpoint collapse (s : string) : string :=
  match s with
  | EmptyString => EmptyString
  | String c s' =>
      if is_space c then
        match s' with
        | String c' _ => if is_space c' then collapse s' else String " " (collapse s')
        | EmptyString => String " " EmptyString
        end
      else String c (collapse s')
  end.

Definition strip_doc (doc : string) : string :=
  collapse (strip (replace_newlines doc)).

(** ** The checks [PolicyGen._check_policy_*] *)

Definition marked_for_op_first_doc : string :=
  String nl "        Policy includes a marked-for-op filter, but it is not the first filter."
  +:+ String nl "        ".

Definition _check_policy_marked_for_op_first (policy : value) : result bool :=
  has_filters ← has_key "filters" policy;
  if negb (has_filters : bool) then Ok true
  else
    filters ← getitem policy "filters";
    if negb (str_contains "'type': 'marked-for-op'" (py_str filters)) then Ok true
    else
      first ← getitem0 filters;
      match get first "type" (VStr "") with
      | Ok t => Ok (py_eq t (VStr "marked-for-op"))
      | Raise AttributeError =>
          (* first filter isn't even a dict; that's a failure *)
          Ok false
      | Raise e => Raise e
      end.

Definition mark_but_no_tag_filter_doc : string :=
  String nl "        Policy performs a mark action, but does not filter out resources already"
  +:+ String nl "        marked with that tag."
  +:+ String nl "        ".

(** [for a in policy['actions']] collecting [mark_tags]. *)
Definition collect_mark_tag (mark_tags : list value) (a : value)
  : result (list value) :=
  match a with
  | VDict _ =>
      t ← get a "type" (VStr "");
      if negb (py_eq t (VStr "mark-for-op")) then Ok mark_tags
      else tag ← getitem a "tag"; Ok (mark_tags ++ [tag])
  | _ =>
      (* not a dict, can't be a mark action *)
      Ok mark_tags
  end.

(** [{'tag:%s' % t: 'absent'}] *)
Definition tag_filter (t : value) : value :=
  VDict [("tag:" +:+ py_str t, VStr "absent")].

(** [for t in mark_tags], which returns [False] at the first tag without
    its filter. *)
Fixpoint tags_filtered (filters : value) (mark_tags : list value) : result bool :=
  match mark_tags with
  | [] => Ok true
  | t :: rest =>
      found ← contains (tag_filter t) filters;
      if negb (found : bool) then Ok false else tags_filtered filters rest
  end.

Definition _check_policy_mark_but_no_tag_filter (policy : value) : result bool :=
  has_filters ← has_key "filters" policy;
  if negb (has_filters : bool) then Ok true
  else
    has_actions ← has_key "actions" policy;
    if negb (has_actions : bool) then Ok true
    else
      actions ← getitem policy "actions";
      actions ← iter actions;
      mark_tags ← foldM collect_mark_tag actions [];
      filters ← getitem policy "filters";
      tags_filtered filters mark_tags.

Definition mark_for_op_bad_message_doc : string :=
  String nl "        mark-for-op action has message that does not end with"
  +:+ String nl "        " +:+ String dquote ": {op}@{action_date}" +:+ String dquote
      " (won't be parsed by c7n and will be ignored)"
  +:+ String nl "        ".

Definition check_message (success : bool) (a : value) : result bool :=
  match a with
  | VDict _ =>
      t ← get a "type" (VStr "");
      if negb (py_eq t (VStr "mark-for-op")) then Ok success
      else
        has_message ← has_key "message" a;
        if negb (has_message : bool) then Ok success
        else
          message ← getitem a "message";
          good ← py_endswith message ": {op}@{action_date}";
          Ok (if negb (good : bool) then false else success)
  | _ => Ok success
  end.

Definition _check_policy_mark_for_op_bad_message (policy : value) : result bool :=
  has_actions ← has_key "actions" policy;
  if negb (has_actions : bool) then Ok true
  else
    actions ← getitem policy "actions";
    actions ← iter actions;
    foldM check_message actions true.

(** ** [PolicyGen._check_policies] *)

(** A check method: what it returns on a policy, and its docstring. *)
Record check : Type := { chk : value -> result bool; chk_doc : string }.

(** The methods [dir(self)] lists with the prefix [_check_policy_], in the
    alphabetical order of [dir]. *)
Definition policy_checks : list check :=
  [ {| chk := _check_policy_mark_but_no_tag_filter;
       chk_doc := mark_but_no_tag_filter_doc |};
    {| chk := _check_policy_mark_for_op_bad_message;
       chk_doc := mark_for_op_bad_message_doc |};
    {| chk := _check_policy_marked_for_op_first;
       chk_doc := marked_for_op_first_doc |} ].

(** [failures = defaultdict(list)]: policy name to the descriptions of the
    checks that failed, in insertion order. *)
Abbreviation failures := (list (value * list string)).

(** [failures[name].append(doc)] *)
Fixpoint failures_append (name : value) (doc : string) (f : failures) : failures :=
  match f with
  | [] => [(name, [doc])]
  | (n, docs) :: f' =>
      if py_eq name n then (n, docs ++ [doc]) :: f'
      else (n, docs) :: failures_append name doc f'
  end.

(** The body of [for chk in policy_checks]. *)
Definition run_check (pol : value) (f : failures) (c : check) : result failures :=
  passed ← chk c pol;
  if negb (passed : bool) then
    name ← getitem pol "name";
    if hashable name then Ok (failures_append name (strip_doc (chk_doc c)) f)
    else Raise TypeError
  else Ok f.

(** The two nested loops of [_check_policies]. *)
Definition collect_failures (checks : list check) (policies : list value)
  : result failures :=
  foldM (fun f pol => foldM (run_check pol) checks f) policies [].

(** [sorted] on strings. *)
Fixpoint insert_sorted (x : string) (l : list string) : list string :=
  match l with
  | [] => [x]
  | y :: l' => if String.leb x y then x :: l else y :: insert_sorted x l'
  end.

Definition sorted (l : list string) : list string :=
  fold_right insert_sorted [] l.

Definition as_str (v : value) : option string :=
  match v with VStr s => Some s | _ => None end.

Definition as_int (v : value) : option Z :=
  match v with
  | VInt n => Some n
  | VBool b => Some (Z_of_bool b)
  | _ => None
  end.

Fixpoint insert_sorted_by {A} (le : A -> A -> bool) (x : A) (l : list A) : list A :=
  match l with
  | [] => [x]
  | y :: l' => if le y x then y :: insert_sorted_by le x l' else x :: l
  end.

(** [sorted(failures.keys())]: strings sort among themselves and numbers
    among themselves; any other comparison raises [TypeError]. *)
Definition sorted_names (f : failures) : result failures :=
  match f with
  | [] | [_] => Ok f
  | _ =>
      if forallb (fun e => bool_decide (is_Some (as_str (fst e)))) f then
        Ok (fold_left
              (fun acc e => insert_sorted_by
                 (fun a b => String.leb (py_str (fst a)) (py_str (fst b))) e acc) f [])
      else if forallb (fun e => bool_decide (is_Some (as_int (fst e)))) f then
        Ok (fold_left
              (fun acc e => insert_sorted_by
                 (fun a b => Z.leb (default 0%Z (as_int (fst a)))
                                   (default 0%Z (as_int (fst b)))) e acc) f [])
      else Raise TypeError
  end.

Definition tab : ascii := "009"%char.

(** What [logger.error] receives for one policy of [failures]. *)
Definition failure_lines (e : value * list string) : list string :=
  py_str (fst e) :: map (fun chk_str => String tab chk_str) (snd e).

(** [_check_policies] returns the lines sent to [logger.error] and either
    returns normally or raises. *)
Definition _check_policies_with (checks : list check) (policies : list value)
  : list string * result unit :=
  match collect_failures checks policies with
  | Raise e => ([], Raise e)
  | Ok f =>
      if Nat.ltb 0 (length f) then
        let header := "ERROR: Some policies failed sanity/safety checks:" in
        match sorted_names f with
        | Raise e => ([header], Raise e)
        | Ok sf => (header :: concat (map failure_lines sf), Raise (SystemExit 1))
        end
      else ([], Ok tt)
  end.

Definition _check_policies (policies : list value) : list string * result unit :=
  _check_policies_with policy_checks policies.

(** ** [PolicyGen._generate_cleanup_policies] *)

Definition value_filter (key op val : value) : value :=
  VDict [("type", VStr "value"); ("key", key); ("op", op); ("value", val)].

Definition lcleanup_base : dict :=
  [ ("name", VStr "c7n-cleanup-lambda");
    ("comment", VStr "Find and alert on orphaned c7n Lambda functions");
    ("resource", VStr "lambda");
    ("actions", VList
       [VDict
          [ ("type", VStr "notify");
            ("violation_desc",
             VStr "The following cloud-custodian Lambda functions appear to be orphaned");
            ("action_desc", VStr "and should probably be deleted");
            ("subject",
             VStr "[cloud-custodian {{ account }}] Orphaned cloud-custodian Lambda funcs in {{ region }}");
            ("to", VList [VStr "MAN-ReleaseEngineering@manheim.com"]) ]]);
    ("filters", VList
       [ VDict [("tag:Project", VStr "cloud-custodian")];
         VDict [("tag:Component", VStr "present")];
         (* exclude itself... *)
         value_filter (VStr "tag:Component") (VStr "ne") (VStr "c7n-cleanup-lambda");
         value_filter (VStr "tag:Component") (VStr "ne") (VStr "c7n-cleanup-cwe") ]) ].

Definition cwecleanup_base : dict :=
  [ ("name", VStr "c7n-cleanup-cwe");
    ("comment", VStr "Find and alert on orphaned c7n CloudWatch Events");
    ("resource", VStr "event-rule");
    ("actions", VList
       [VDict
          [ ("type", VStr "notify");
            ("violation_desc",
             VStr "The following cloud-custodian CloudWatch Event rules appear to be orphaned");
            ("action_desc", VStr "and should probably be deleted");
            ("subject",
             VStr "[cloud-custodian {{ account }}] Orphaned cloud-custodian CW Event rules in {{ region }}");
            ("to", VList [VStr "MAN-ReleaseEngineering@manheim.com"]) ]]);
    ("filters", VList
       [ value_filter (VStr "Name") (VStr "glob") (VStr "custodian-*");
         (* exclude itself... *)
         value_filter (VStr "Name") (VStr "ne") (VStr "custodian-c7n-cleanup-lambda");
         value_filter (VStr "Name") (VStr "ne") (VStr "custodian-c7n-cleanup-cwe") ]) ].

(** The body of [for p in policies], on the two filter lists. *)
Definition add_cleanup_filters (st : list value * list value) (p : value)
  : result (list value * list value) :=
  let '(cwe_filters, l_filters) := st in
  name ← getitem p "name";
  Ok (cwe_filters ++
        [value_filter (VStr "Name") (VStr "ne") (VStr ("custodian-" +:+ py_str name))],
      l_filters ++ [value_filter (VStr "tag:Component") (VStr "ne") name]).

Definition base_filters (d : dict) : list value :=
  match dict_get "filters" d with
  | Some (VList l) => l
  | _ => []
  end.

Definition _generate_cleanup_policies (policies : list value) : result (list value) :=
  '(cwe_filters, l_filters) ←
    foldM add_cleanup_filters policies
      (base_filters cwecleanup_base, base_filters lcleanup_base);
  Ok [ VDict (dict_set "filters" (VList l_filters) lcleanup_base);
       VDict (dict_set "filters" (VList cwe_filters) cwecleanup_base) ].

(** ** [PolicyGen._generate_configs] *)

(** [policies] maps a policy's name to the policy.  The result is the
    dictionary handed to [_write_custodian_configs]; the lines are those
    sent to [logger.error]. *)
Definition _generate_configs (config : CaisConfig) (policies : dict) (defaults : value)
  : list string * result value :=
  let generated :=
    pols ← foldM
      (fun pols k =>
         pol ← getitem (VDict policies) k;
         conf ← _apply_defaults config defaults pol;
         Ok (pols ++ [conf]))
      (sorted (keys policies)) [];
    (* add c7n lambda/CW Even cleanup policies *)
    cleanup ← _generate_cleanup_policies pols;
    foldM
      (fun pols pol =>
         conf ← _apply_defaults config defaults pol;
         Ok (pols ++ [conf]))
      cleanup pols in
  match generated with
  | Raise e => ([], Raise e)
  | Ok pols =>
      let '(log, checked) := _check_policies pols in
      (log, _ ← checked; Ok (VDict [("policies", VList pols)]))
  end.

(** ** Notions used in the statements *)

(** An entry of [actions] the loop takes for a mark action. *)
Definition is_mark_for_op (a : value) : bool :=
  match a with
  | VDict d =>
      match dict_get "type" d with
      | Some t => py_eq t (VStr "mark-for-op")
      | None => false
      end
  | _ => false
  end.


(** [d.get('type', None)] *)
Definition type_of (d : dict) : value :=
  default VNone (dict_get "type" d).

(** No dictionary of [l] has a list or a dictionary as its ["type"]. *)
Definition types_hashable (l : list value) : bool :=
  forallb (fun v => match v with VDict d => hashable (type_of d) | _ => true end) l.

(** Two dictionaries of [b] have the same ["type"]. *)
Definition same_type_twice (b : list value) : Prop :=
  exists l1 d1 l2 d2 l3,
    b = l1 ++ VDict d1 :: l2 ++ VDict d2 :: l3 /\
    py_eq (type_of d2) (type_of d1) = true.

(** The loop [for k, v in update.items()] of [_merge_conf], as a function
    of its own. *)
Fixpoint merge_items (its : dict) (base policy_name : value) (path : list string)
  : result (value * dict) :=
  match its with
  | [] => Ok (base, [])
  | (k, v) :: rest =>
      '(base, v') ←
        merge_item (fun bk kpath => _merge_conf bk v policy_name kpath)
          policy_name path base k v;
      '(base, rest') ← merge_items rest base policy_name path;
      Ok (base, (k, v') :: rest')
  end.

(** No dictionary, at any depth, holds a key twice: the values Python can
    build. *)
Fixpoint wf (v : value) : bool :=
  match v with
  | VList l => forallb wf l
  | VDict d => bool_decide (NoDup (keys d)) && forallb (fun kv => wf (snd kv)) d
  | _ => true
  end.

(** No two dictionaries of [l] have the same ["type"]. *)
Fixpoint distinct_types (l : list value) : bool :=
  match l with
  | [] => true
  | VDict d :: l' =>
      negb (existsb (fun v => match v with
                              | VDict d' => py_eq (type_of d') (type_of d)
                              | _ => false
                              end) l')
      && distinct_types l'
  | _ :: l' => distinct_types l'
  end.

(** An array whose dictionaries have scalar types, none of them [None],
    no two of them equal. *)
Definition array_ok (l : list value) : bool :=
  forallb (fun v => match v with
                    | VDict d => hashable (type_of d) && negb (py_eq (type_of d) VNone)
                    | _ => true
                    end) l
  && distinct_types l.

(** Every array that is a value of a dictionary of the document, at any
    depth of nested dictionaries, is [array_ok]. *)
Fixpoint arrays_ok (v : value) : bool :=
  match v with
  | VDict d =>
      forallb (fun kv => arrays_ok (snd kv)) d
  | VList l => array_ok l
  | _ => true
  end.

(** The defaults [_array_merge] finds in [b], in order. *)
Fixpoint base_defs (b : list value) : defs :=
  match b with
  | [] => []
  | VDict d :: b' => (type_of d, d) :: base_defs b'
  | _ :: b' => base_defs b'
  end.



(** [defaults.get('mode', {}).get('tags', {})] *)
Definition defaults_tags (defaults : value) : result value :=
  dmode ← get defaults "mode" (VDict []);
  get dmode "tags" (VDict []).

(** What [_generate_configs] makes of the key [k] of [policies]: the
    policy under the key with the defaults applied; it has the name of
    the policy when that is a string. *)
Definition compiled (config : CaisConfig) (policies : dict) (defaults : value)
    (pol : value) (k : string) : Prop :=
  exists p,
    dict_get k policies = Some p /\
    _apply_defaults config defaults p = Ok pol /\
    forall pd n, p = VDict pd -> NoDup (keys pd) ->
                 dict_get "name" pd = Some (VStr n) ->
                 getitem pol "name" = Ok (VStr n).

(** ** Documents used in the examples *)

(** A policy that marks resources with the tag [expiry] and has no
    [filters] key. *)
Definition mark_no_filters : value :=
  VDict [ ("name", VStr "mark-expiry");
          ("actions", VList [VDict [("type", VStr "mark-for-op");
                                    ("tag", VStr "expiry")]]) ].

(** A policy whose mark action names no tag; Cloud Custodian then marks
    with its default tag. *)
Definition mark_no_tag : value :=
  VDict [ ("name", VStr "mark-default");
          ("filters", VList [VDict [("tag:maid_status", VStr "absent")]]);
          ("actions", VList [VDict [("type", VStr "mark-for-op");
                                    ("op", VStr "stop")]]) ].

(** A policy whose only filter is a tag filter, a dictionary without a
    ["type"]. *)
Definition untagged_ec2 : value :=
  VDict [ ("name", VStr "ec2-untagged");
          ("resource", VStr "ec2");
          ("filters", VList [VDict [("tag:Owner", VStr "absent")]]) ].


Definition plain_config : CaisConfig := {| always_notify := None |}.

(** Defaults whose mode is periodic and tagged, and a policy triggered by
    CloudTrail that sets the same tag. *)
Definition tagged_defaults : value :=
  VDict [ ("mode", VDict [ ("type", VStr "periodic");
                           ("schedule", VStr "rate(1 day)");
                           ("tags", VDict [("Env", VStr "prod")]) ]) ].

Definition cloudtrail_policy : value :=
  VDict [ ("name", VStr "p1");
          ("mode", VDict [ ("type", VStr "cloudtrail");
                           ("tags", VDict [("Env", VStr "dev")]) ]) ].

Definition periodic_policy (name : string) : value :=
  VDict [ ("name", VStr name); ("mode", VDict [("type", VStr "periodic")]) ].

(** Defaults that notify with a template, and a policy with a notify
    action of its own. *)
Definition notify_defaults : value :=
  VDict [ ("mode", VDict [ ("type", VStr "periodic");
                           ("schedule", VStr "rate(1 day)") ]);
          ("actions", VList [VDict [ ("type", VStr "notify");
                                     ("template", VStr "default.html");
                                     ("to", VList [VStr "ops@example.com"]) ]]) ].

Definition stop_policy : value :=
  VDict [ ("name", VStr "ec2-stop");
          ("resource", VStr "ec2");
          ("actions", VList [ VStr "stop";
                              VDict [ ("type", VStr "notify");
                                      ("subject", VStr "stopped") ] ]) ].

(** * The defaulting functions on an object store

    Lists and dictionaries are objects in a store; a variable, a list
    entry or a dictionary value holds a reference, and two references to
    one address are one object.  Scalars are immutable and held in place.
    A computation takes the store and returns its outcome with the store
    it leaves, also when it raises.

    Documents are trees: [alloc_value] gives every list and dictionary of
    a value an object of its own, as the YAML loader does for a file
    without aliases, and [deepcopy] copies what it reaches object by
    object.  The recursive functions take Python's recursion limit as
    [fuel] and raise [RecursionError] beyond it. *)

Module Heap.

Inductive hval : Type :=
| HNone
| HBool (b : bool)
| HInt (n : Z)
| HStr (s : string)
| HRef (a : nat).

Inductive obj : Type :=
| OList (l : list hval)
| ODict (d : list (string * hval)).

Abbreviation store := (list obj).

Definition M (A : Type) : Type := store -> result A * store.

#[global] Instance M_ret : MRet M := fun A a s => (Ok a, s).
#[global] Instance M_bind : MBind M := fun A B f m s =>
  match m s with
  | (Ok a, s') => f a s'
  | (Raise e, s') => (Raise e, s')
  end.

Definition raise {A} (e : exn) : M A := fun s => (Raise e, s).

(** A new object. *)
Definition alloc (o : obj) : M hval := fun s => (Ok (HRef (length s)), s ++ [o]).

(** The object at an address; no reference of a computation dangles. *)
Definition load (a : nat) : M obj := fun s =>
  match s !! a with
  | Some o => (Ok o, s)
  | None => (Raise SystemError, s)
  end.

(** The object at an address, changed in place. *)
Definition put (a : nat) (o : obj) : M unit := fun s => (Ok tt, <[a := o]> s).

Definition mapM {A B} (f : A -> M B) : list A -> M (list B) :=
  fix go (xs : list A) : M (list B) :=
    match xs with
    | [] => mret []
    | x :: xs' => y ← f x; ys ← go xs'; mret (y :: ys)
    end.

(** [for x in xs: f(x)] *)
Definition forM {A} (f : A -> M unit) : list A -> M unit :=
  fix go (xs : list A) : M unit :=
    match xs with
    | [] => mret tt
    | x :: xs' => _ ← f x; go xs'
    end.

(** [for x in xs: acc = f(acc, x)] *)
Definition foldM {A B} (f : A -> B -> M A) : list B -> A -> M A :=
  fix go (xs : list B) (acc : A) : M A :=
    match xs with
    | [] => mret acc
    | x :: xs' => acc' ← f acc x; go xs' acc'
    end.

(** ** Values in the store *)

Definition of_scalar (v : hval) : option value :=
  match v with
  | HNone => Some VNone
  | HBool b => Some (VBool b)
  | HInt n => Some (VInt n)
  | HStr s => Some (VStr s)
  | HRef _ => None
  end.

Fixpoint traverse {A B} (f : A -> option B) (xs : list A) : option (list B) :=
  match xs with
  | [] => Some []
  | x :: xs' =>
      match f x, traverse f xs' with
      | Some y, Some ys => Some (y :: ys)
      | _, _ => None
      end
  end.

(** The value a store holds behind [v], down to the depth [fuel]. *)
Fixpoint read (fuel : nat) (s : store) (v : hval) : option value :=
  match v with
  | HNone => Some VNone
  | HBool b => Some (VBool b)
  | HInt n => Some (VInt n)
  | HStr x => Some (VStr x)
  | HRef a =>
      match fuel with
      | O => None
      | S fuel' =>
          match s !! a with
          | Some (OList l) =>
              option_map VList (traverse (read fuel' s) l)
          | Some (ODict d) =>
              option_map VDict
                (traverse (fun kv => option_map (pair (fst kv)) (read fuel' s (snd kv))) d)
          | None => None
          end
      end
  end.

Definition h_read (fuel : nat) (v : hval) : M value := fun s =>
  match read fuel s v with
  | Some x => (Ok x, s)
  | None => (Raise RecursionError, s)
  end.

(** The loader: a value as objects of its own. *)
Fixpoint alloc_value (v : value) : M hval :=
  match v with
  | VNone => mret HNone
  | VBool b => mret (HBool b)
  | VInt n => mret (HInt n)
  | VStr s => mret (HStr s)
  | VList l => l' ← mapM alloc_value l; alloc (OList l')
  | VDict d =>
      d' ← mapM (fun kv => x ← alloc_value (snd kv); mret (fst kv, x)) d;
      alloc (ODict d')
  end.

(** [copy.deepcopy] *)
Fixpoint deepcopy (fuel : nat) (v : hval) : M hval :=
  match v with
  | HRef a =>
      match fuel with
      | O => raise RecursionError
      | S fuel' =>
          o ← load a;
          match o with
          | OList l => l' ← mapM (deepcopy fuel') l; alloc (OList l')
          | ODict d =>
              d' ← mapM (fun kv => x ← deepcopy fuel' (snd kv); mret (fst kv, x)) d;
              alloc (ODict d')
          end
      end
  | _ => mret v
  end.

(** ** Python's operations *)

(** [a == b] *)
Definition h_eq (fuel : nat) (a b : hval) : M bool :=
  x ← h_read fuel a; y ← h_read fuel b; mret (py_eq x y).

Definition is_dict (v : hval) : M bool :=
  match v with
  | HRef a => o ← load a; mret (match o with ODict _ => true | OList _ => false end)
  | _ => mret false
  end.

Definition is_list (v : hval) : M bool :=
  match v with
  | HRef a => o ← load a; mret (match o with OList _ => true | ODict _ => false end)
  | _ => mret false
  end.

Fixpoint hdict_get (k : string) (d : list (string * hval)) : option hval :=
  match d with
  | [] => None
  | (k', v) :: d' => if String.eqb k k' then Some v else hdict_get k d'
  end.

Fixpoint hdict_set (k : string) (v : hval) (d : list (string * hval))
  : list (string * hval) :=
  match d with
  | [] => [(k, v)]
  | (k', v') :: d' =>
      if String.eqb k k' then (k', v) :: d' else (k', v') :: hdict_set k v d'
  end.

Fixpoint hdict_del (k : string) (d : list (string * hval)) : list (string * hval) :=
  match d with
  | [] => []
  | (k', v') :: d' =>
      if String.eqb k k' then d' else (k', v') :: hdict_del k d'
  end.

Definition hdict_has (k : string) (d : list (string * hval)) : bool :=
  match hdict_get k d with Some _ => true | None => false end.

(** [c[k]] *)
Definition getitem (c : hval) (k : string) : M hval :=
  match c with
  | HRef a =>
      o ← load a;
      match o with
      | ODict d =>
          match hdict_get k d with
          | Some v => mret v
          | None => raise (KeyError k)
          end
      | OList _ => raise TypeError
      end
  | _ => raise TypeError
  end.

(** [c[k] = v] *)
Definition setitem (c : hval) (k : string) (v : hval) : M unit :=
  match c with
  | HRef a =>
      o ← load a;
      match o with
      | ODict d => put a (ODict (hdict_set k v d))
      | OList _ => raise TypeError
      end
  | _ => raise TypeError
  end.

(** [del c[k]] *)
Definition delitem (c : hval) (k : string) : M unit :=
  match c with
  | HRef a =>
      o ← load a;
      match o with
      | ODict d =>
          if hdict_has k d then put a (ODict (hdict_del k d)) else raise (KeyError k)
      | OList _ => raise TypeError
      end
  | _ => raise TypeError
  end.

(** [x in c] *)
Definition contains (fuel : nat) (x c : hval) : M bool :=
  match c with
  | HRef a =>
      o ← load a;
      match o with
      | OList l =>
          foldM (fun found e => if (found : bool) then mret true else h_eq fuel x e)
            l false
      | ODict d =>
          match x with
          | HStr k => mret (hdict_has k d)
          | HRef _ => raise TypeError
          | _ => mret false
          end
      end
  | HStr s =>
      match x with
      | HStr n => mret (str_contains n s)
      | _ => raise TypeError
      end
  | _ => raise TypeError
  end.

Definition has_key (k : string) (c : hval) : M bool :=
  contains O (HStr k) c.

(** [c.get(k, default)] *)
Definition get (c : hval) (k : string) (default : hval) : M hval :=
  match c with
  | HRef a =>
      o ← load a;
      match o with
      | ODict d =>
          match hdict_get k d with
          | Some v => mret v
          | None => mret default
          end
      | OList _ => raise AttributeError
      end
  | _ => raise AttributeError
  end.

(** [c.items()], as they are when the loop starts. *)
Definition items (c : hval) : M (list (string * hval)) :=
  match c with
  | HRef a =>
      o ← load a;
      match o with
      | ODict d => mret d
      | OList _ => raise AttributeError
      end
  | _ => raise AttributeError
  end.

(** [for x in c], the entries as they are when the loop starts. *)
Definition iter (c : hval) : M (list hval) :=
  match c with
  | HRef a =>
      o ← load a;
      match o with
      | OList l => mret l
      | ODict d => mret (map (fun kv => HStr (fst kv)) d)
      end
  | HStr s =>
      mret (map (fun a => HStr (String a EmptyString)) (String.list_ascii_of_string s))
  | _ => raise TypeError
  end.

(** [c.append(x)] *)
Definition append (c x : hval) : M unit :=
  match c with
  | HRef a =>
      o ← load a;
      match o with
      | OList l => put a (OList (l ++ [x]))
      | ODict _ => raise AttributeError
      end
  | _ => raise AttributeError
  end.

(** One element of the argument of [dict.update] when that is not a
    dictionary; see [update_pair] above. *)
Definition update_pair (d : list (string * hval)) (e : hval)
  : M (list (string * hval)) :=
  kv ← iter e;
  match kv with
  | [HStr k; v] => mret (hdict_set k v d)
  | [_; _] => raise TypeError
  | _ => raise ValueError
  end.

(** [c.update(x)] *)
Definition update (c x : hval) : M unit :=
  match c with
  | HRef a =>
      o ← load a;
      match o with
      | ODict d =>
          xd ← is_dict x;
          if (xd : bool) then
            e ← items x;
            put a (ODict (fold_left (fun acc kv => hdict_set (fst kv) (snd kv) acc) e d))
          else
            es ← iter x;
            d' ← foldM update_pair es d;
            put a (ODict d')
      | OList _ => raise AttributeError
      end
  | _ => raise AttributeError
  end.

(** ** [PolicyGen._array_merge] *)

(** [def_dicts]: the type of a default and the reference to it. *)
Abbreviation defs := (list (hval * hval)).

Definition scalar_eq (a b : hval) : bool :=
  match of_scalar a, of_scalar b with
  | Some x, Some y => py_eq x y
  | _, _ => false
  end.

(** [t in def_dicts] *)
Definition defs_has (t : hval) (dd : defs) : M bool :=
  match t with
  | HRef _ => raise TypeError
  | _ => mret (existsb (fun e => scalar_eq t (fst e)) dd)
  end.

Fixpoint defs_get (t : hval) (dd : defs) : option hval :=
  match dd with
  | [] => None
  | (t', d) :: dd' => if scalar_eq t t' then Some d else defs_get t dd'
  end.

Fixpoint defs_del (t : hval) (dd : defs) : defs :=
  match dd with
  | [] => []
  | (t', d) :: dd' => if scalar_eq t t' then dd' else (t', d) :: defs_del t dd'
  end.

(** The body of [for v in base]. *)
Definition find_default (fuel : nat) (update : hval) (def_dicts : defs) (v : hval)
  : M defs :=
  d ← is_dict v;
  if negb (d : bool) then
    inb ← contains fuel v update;
    _ ← (if negb (inb : bool) then append update v else mret tt);
    mret def_dicts
  else
    t ← get v "type" HNone;
    match t with
    | HNone => raise (RuntimeError no_type_msg)
    | _ =>
        dup ← defs_has t def_dicts;
        if (dup : bool) then raise (RuntimeError same_type_msg)
        else mret (def_dicts ++ [(t, v)])
    end.

(** [if k not in i: i[k] = v] *)
Definition fill_one (i : hval) (kv : string * hval) : M unit :=
  has ← has_key (fst kv) i;
  if negb (has : bool) then setitem i (fst kv) (snd kv) else mret tt.

(** The body of [for i in update]. *)
Definition do_update (def_dicts : defs) (i : hval) : M defs :=
  d ← is_dict i;
  if negb (d : bool) then mret def_dicts
  else
    t ← get i "type" HNone;
    match t with
    | HNone => mret def_dicts
    | _ =>
        known ← defs_has t def_dicts;
        if negb (known : bool) then mret def_dicts
        else
          match defs_get t def_dicts with
          | Some dv =>
              its ← items dv;
              _ ← forM (fill_one i) its;
              mret (defs_del t def_dicts)
          | None => raise (KeyError "type")
          end
    end.

(** The body of [for k, v in def_dicts.items()]. *)
Definition add_default (path : list string) (update : hval) (kv : hval * hval)
  : M unit :=
  if bool_decide (path = ["actions"]) && scalar_eq (fst kv) (HStr "notify")
  then mret tt
  else append update (snd kv).

Definition _array_merge (fuel : nat) (base update policy_name : hval)
    (path : list string) : M hval :=
  isl ← is_list base;
  if negb (isl : bool) then
    n ← h_read fuel policy_name;
    b ← h_read fuel base;
    raise (RuntimeError (non_array_msg n b))
  else
    b ← iter base;
    def_dicts ← foldM (find_default fuel update) b [];
    u ← iter update;
    def_dicts ← foldM do_update u def_dicts;
    _ ← forM (add_default path update) def_dicts;
    mret update.

(** ** [PolicyGen._merge_conf] *)

Definition merge_item (fuel : nat) (rec : hval -> hval -> list string -> M hval)
    (policy_name : hval) (path : list string) (base : hval)
    (kv : string * hval) : M unit :=
  let k := fst kv in
  let v := snd kv in
  let kpath := path ++ [k] in
  short ←
    (if bool_decide (kpath = ["mode"]) then
       t ← get v "type" (HStr "periodic");
       per ← h_eq fuel t (HStr "periodic");
       mret (negb per)
     else mret false);
  if (short : bool) then setitem base k v
  else
    present ← has_key k base;
    if negb (present : bool) then setitem base k v
    else
      isl ← is_list v;
      if (isl : bool) then
        bk ← getitem base k;
        r ← _array_merge fuel bk v policy_name kpath;
        setitem base k r
      else
        isd ← is_dict v;
        if (isd : bool) then
          bk ← getitem base k;
          r ← rec bk v kpath;
          setitem base k r
        else setitem base k v.

Fixpoint _merge_conf (fuel : nat) (base update policy_name : hval)
    (path : list string) : M hval :=
  match fuel with
  | O => raise RecursionError
  | S fuel' =>
      its ← items update;
      _ ← forM (merge_item fuel'
                  (fun bk v kpath => _merge_conf fuel' bk v policy_name kpath)
                  policy_name path base) its;
      (* remove actions if only specified in base (defaults) *)
      drop ←
        (if bool_decide (path = []) then
           inb ← has_key "actions" base;
           inu ← has_key "actions" update;
           mret (inb && negb inu)
         else mret false);
      _ ← (if (drop : bool) then delitem base "actions" else mret tt);
      mret base
  end.

(** ** [PolicyGen._add_always_notify] and [PolicyGen._apply_defaults] *)

(** [if to_addr not in action['to']: action['to'].append(to_addr)] *)
Definition add_recipient (fuel : nat) (action to_addr : hval) : M unit :=
  cur ← getitem action "to";
  inb ← contains fuel to_addr cur;
  if negb (inb : bool) then
    cur ← getitem action "to"; append cur to_addr
  else mret tt.

(** [for action in conf['actions']], returning [added]. *)
Fixpoint notify_scan (fuel : nat) (desired : hval) (actions : list hval) : M bool :=
  match actions with
  | [] => mret false
  | action :: rest =>
      d ← is_dict action;
      if negb (d : bool) then notify_scan fuel desired rest
      else
        t ← get action "type" HNone;
        isn ← h_eq fuel t (HStr "notify");
        if negb (isn : bool) then notify_scan fuel desired rest
        else
          empty ← alloc (ODict []);
          tr ← get action "transport" empty;
          dtr ← getitem desired "transport";
          same ← h_eq fuel tr dtr;
          if negb (same : bool) then notify_scan fuel desired rest
          else
            has_to ← has_key "to" action;
            _ ← (if negb (has_to : bool) then
                   l ← alloc (OList []); setitem action "to" l
                 else mret tt);
            to ← getitem desired "to";
            addrs ← iter to;
            _ ← forM (add_recipient fuel action) addrs;
            mret true
  end.

(** [always_notify] is the reference the configuration object holds, if
    it has the attribute. *)
Definition _add_always_notify (fuel : nat) (always_notify : option hval) (conf : hval)
  : M hval :=
  match always_notify with
  | None => mret conf
  | Some desired =>
      _ ← setitem desired "type" (HStr "notify");
      actions ← getitem conf "actions";
      acts ← iter actions;
      added ← notify_scan fuel desired acts;
      _ ← (if negb (added : bool) then
             actions ← getitem conf "actions"; append actions desired
           else mret tt);
      mret conf
  end.

Definition _apply_defaults (fuel : nat) (always_notify : option hval)
    (defaults policy : hval) : M hval :=
  d ← deepcopy fuel defaults;
  name ← getitem policy "name";
  conf ← _merge_conf fuel d policy name [];
  (* set Lambda func 'Component' tag to the policy name *)
  mode ← getitem conf "mode";
  ty ← getitem mode "type";
  per ← h_eq fuel ty (HStr "periodic");
  _ ← (if (per : bool) then
         mode ← getitem conf "mode";
         has_tags ← has_key "tags" mode;
         if negb (has_tags : bool) then
           empty ← alloc (ODict []);
           mode ← getitem conf "mode";
           setitem mode "tags" empty
         else mret tt
       else mret tt);
  mode ← getitem conf "mode";
  has_tags ← has_key "tags" mode;
  _ ← (if (has_tags : bool) then
         mode ← getitem conf "mode";
         tags ← getitem mode "tags";
         empty ← alloc (ODict []);
         dmode ← get defaults "mode" empty;
         empty' ← alloc (ODict []);
         dtags ← get dmode "tags" empty';
         _ ← update tags dtags;
         name ← getitem policy "name";
         mode ← getitem conf "mode";
         tags ← getitem mode "tags";
         setitem tags "Component" name
       else mret tt);
  has_actions ← has_key "actions" conf;
  _ ← (if negb (has_actions : bool) then
         empty ← alloc (OList []); setitem conf "actions" empty
       else mret tt);
  _add_always_notify fuel always_notify conf.

(** ** Running [_apply_defaults] on documents *)

(** The store with [defaults], [policy] and the [always_notify] of the
    configuration loaded, in this order, and [_apply_defaults] run on
    them: the references to the two documents, the outcome, and the
    store before and after the call. *)
Record run : Type := {
  run_defaults : hval;
  run_policy : hval;
  run_before : store;
  run_outcome : result hval;
  run_after : store
}.

Definition load_option (cfg : option value) : M (option hval) :=
  match cfg with
  | Some v => r ← alloc_value v; mret (Some r)
  | None => mret None
  end.

Definition apply_defaults_run (fuel : nat) (config : CaisConfig)
    (defaults policy : value) : option run :=
  match alloc_value defaults [] with
  | (Ok d, s1) =>
      match alloc_value policy s1 with
      | (Ok p, s2) =>
          match load_option (always_notify config) s2 with
          | (Ok cfg, s3) =>
              let '(outcome, s4) := _apply_defaults fuel cfg d p s3 in
              Some {| run_defaults := d; run_policy := p; run_before := s3;
                      run_outcome := outcome; run_after := s4 |}
          | _ => None
          end
      | _ => None
      end
  | _ => None
  end.

End Heap.


(** * The defaults document is out of reach of [_apply_defaults]

    The store below the address [n] holds the defaults document.  Every
    object from [n] on has a tag: whether it is a document root, a value
    of a dictionary or an entry of a list, and its depth below the root.
    Every object from [n] on refers to objects from [n] on, one level
    deeper, a dictionary to values and a list to entries.  Under this
    invariant every write of the merge goes to an address from [n] on.
    The objects that take references of another kind -- the mode tags
    after [update], a recipient list after [append] -- are excepted from
    the invariant; they lie two levels or more below the root, and their
    tags tell them from the objects the computation goes on to read. *)

Module HeapFrame.
Import Heap.

Inductive role : Type := Root | Field | Elem.

Abbreviation tag := (role * nat)%type.

Section Frame.

Variable n : nat.

Definition typed (tg : list tag) (t : tag) (v : hval) : Prop :=
  match v with
  | HRef r => n <= r /\ tg !! r = Some t
  | _ => True
  end.

(** The entries of an object at depth [d]. *)
Definition obj_ok (tg : list tag) (d : nat) (o : obj) : Prop :=
  match o with
  | OList l => Forall (typed tg (Elem, S d)) l
  | ODict e => Forall (fun kv => typed tg (Field, S d) (snd kv)) e
  end.

Definition Inv (ex : list nat) (tg : list tag) (s : store) : Prop :=
  n <= length s /\ length tg = length s /\
  (forall a o t, n <= a -> ~ In a ex -> s !! a = Some o -> tg !! a = Some t ->
                 obj_ok tg (snd t) o) /\
  (forall a, In a ex -> exists d, tg !! a = Some (Field, d) /\ 2 <= d).

(** The invariant, with no exception when [strict]. *)
Definition InvX (strict : bool) (tg : list tag) (s : store) : Prop :=
  exists ex, (strict = true -> ex = []) /\ Inv ex tg s.

(** The tags of the objects no exception can be. *)
Definition safe (strict : bool) (t : tag) : Prop :=
  strict = true \/ fst t <> Field \/ snd t <= 1.

Definition frame (s s' : store) : Prop :=
  forall a, a < n -> s' !! a = s !! a.

Definition mono (P : list tag -> Prop) : Prop :=
  forall tg tg', tg `prefix_of` tg' -> P tg -> P tg'.

Definition hoare {A} (ex : bool) (P : list tag -> Prop) (m : M A)
    (Q : list tag -> A -> Prop) : Prop :=
  forall tg s r s',
    InvX ex tg s -> P tg -> m s = (r, s') ->
    frame s s' /\
    forall a, r = Ok a ->
      exists tg', tg `prefix_of` tg' /\ InvX ex tg' s' /\ Q tg' a.

(** Only the frame: for the last write of a computation. *)
Definition frames {A} (ex : bool) (P : list tag -> Prop) (m : M A) : Prop :=
  forall tg s r s', InvX ex tg s -> P tg -> m s = (r, s') -> frame s s'.

(** The defaults [_array_merge] finds are entries of the base list, at
    depth [d]. *)
Definition defs_typed (d : nat) (tg : list tag) (dd : defs) : Prop :=
  Forall (fun e => typed tg (Elem, S d) (snd e)) dd.

(** The reference to [always_notify], if the configuration has one. *)
Definition typed_option (tg : list tag) (v : option hval) : Prop :=
  match v with
  | Some d => typed tg (Root, 0) d
  | None => True
  end.

End Frame.

(** A computation that leaves the store as it is. *)
Definition reads {A} (m : M A) : Prop := forall s, snd (m s) = s.

(** The objects below [n] refer to objects below [n]. *)
Definition below (n : nat) (v : hval) : Prop :=
  match v with
  | HRef r => r < n
  | _ => True
  end.

Definition closed (n : nat) (s : store) : Prop :=
  forall a o, a < n -> s !! a = Some o ->
    match o with
    | OList l => Forall (below n) l
    | ODict d => Forall (fun kv => below n (snd kv)) d
    end.

End HeapFrame.

(** * The rest of the generator: documentation data, reading, output

    The functions of [PolicyGen] around the merge.  What they take from
    outside the program is an argument: the directory listings and file
    contents, the YAML parser and serializer, the environment, and the
    attributes of the configuration object they read. *)

(** ** Maps with string keys *)

(** A Python dictionary whose values are not documents: insertion
    order, no key twice. *)
Fixpoint amap_get {A} (k : string) (m : list (string * A)) : option A :=
  match m with
  | [] => None
  | (k', x) :: m' => if String.eqb k k' then Some x else amap_get k m'
  end.

Fixpoint amap_set {A} (k : string) (x : A) (m : list (string * A))
  : list (string * A) :=
  match m with
  | [] => [(k, x)]
  | (k', x') :: m' =>
      if String.eqb k k' then (k', x) :: m' else (k', x') :: amap_set k x m'
  end.

(** ** [PolicyGen._policy_comment] *)

(** [v.strip()] *)
Definition py_strip (v : value) : result value :=
  match v with
  | VStr s => Ok (VStr (strip s))
  | _ => Raise AttributeError
  end.

(** [for k in ks: if k in policy: return policy[k].strip()] and the
    [return 'unknown'] after the loop. *)
Fixpoint policy_comment_keys (policy : value) (ks : list string) : result value :=
  match ks with
  | [] => Ok (VStr "unknown")
  | k :: rest =>
      present ← has_key k policy;
      if (present : bool) then v ← getitem policy k; py_strip v
      else policy_comment_keys policy rest
  end.

Definition _policy_comment (policy : value) : result value :=
  policy_comment_keys policy ["comment"; "comments"; "description"].

(** ** [PolicyGen._policy_rst_data] *)

(** [account_policies]: account name to region name to policy name to
    policy, as [run] builds it. *)
Abbreviation region_map := (list (string * dict)).
Abbreviation account_map := (list (string * region_map)).

(** [names_to_accts_regions]: account name to a [defaultdict(list)] from
    policy name to region names. *)
Abbreviation names_map := (list (string * list (string * list string))).

(** [m[pname]] for a [defaultdict(list)]. *)
Definition default_get (pname : string) (m : list (string * list string))
  : list string :=
  default [] (amap_get pname m).

(** The body of [for pname in sorted(policies.keys())]. *)
Definition rst_policy (policies : dict) (acctname rname : string)
    (st : names_map * dict) (pname : string) : result (names_map * dict) :=
  let '(names, descriptions) := st in
  match amap_get acctname names with
  | None => Raise (KeyError acctname)
  | Some m =>
      let names :=
        amap_set acctname (amap_set pname (default_get pname m ++ [rname]) m) names in
      match dict_get pname policies with
      | None => Raise (KeyError pname)
      | Some policy =>
          c ← _policy_comment policy;
          Ok (names, dict_set pname c descriptions)
      end
  end.

(** The body of [for rname in sorted(region_policies.keys())]. *)
Definition rst_region (region_policies : region_map) (acctname : string)
    (st : names_map * dict) (rname : string) : result (names_map * dict) :=
  match amap_get rname region_policies with
  | None => Raise (KeyError rname)
  | Some policies =>
      foldM (rst_policy policies acctname rname) (sorted (keys policies)) st
  end.

(** The body of [for acctname in sorted(account_policies.keys())]. *)
Definition rst_account (account_policies : account_map)
    (st : names_map * dict) (acctname : string) : result (names_map * dict) :=
  match amap_get acctname account_policies with
  | None => Raise (KeyError acctname)
  | Some region_policies =>
      foldM (rst_region region_policies acctname) (sorted (map fst region_policies)) st
  end.

(** The body of [for acctname in acct_names], on the list [accts].  The
    lookup in the [defaultdict] adds an empty list for a policy the
    account does not have; no later lookup tells the difference. *)
Definition rst_acct_entry (all_regions : list string) (names : names_map)
    (pname : string) (accts : list string) (acctname : string)
  : result (list string) :=
  match amap_get acctname names with
  | None => Raise (KeyError acctname)
  | Some m =>
      let regions := sorted (default_get pname m) in
      if bool_decide (regions = all_regions) then Ok (accts ++ [acctname])
      else if Nat.ltb 0 (length regions) then
        Ok (accts ++ [acctname +:+ " (" +:+ join " " regions +:+ ")"])
      else Ok accts
  end.

(** The body of [for pname in sorted(descriptions.keys())]: one row,
    [[name, accounts and regions, description]]. *)
Definition rst_row (all_regions acct_names : list string) (names : names_map)
    (descriptions : dict) (rows : list value) (pname : string)
  : result (list value) :=
  accts ← foldM (rst_acct_entry all_regions names pname) acct_names [];
  description ← getitem (VDict descriptions) pname;
  if bool_decide (accts = acct_names) then
    Ok (rows ++ [VList [VStr pname; VStr ""; description]])
  else
    Ok (rows ++ [VList [VStr pname; VStr (join " " accts); description]]).

(** [regions] is [self._config.regions]. *)
Definition _policy_rst_data (regions : list string) (account_policies : account_map)
  : result (list value) :=
  let all_regions := sorted regions in
  let acct_names := sorted (map fst account_policies) in
  let names : names_map := map (fun x => (fst x, [])) account_policies in
  '(names, descriptions) ←
    foldM (rst_account account_policies) (sorted (map fst account_policies))
      (names, []);
  foldM (rst_row all_regions acct_names names descriptions)
    (sorted (keys descriptions)) [].

(** ** Reading the policy files *)

(** What reading raises besides the exceptions of the merge. *)
Inductive ioexn : Type :=
| OSError
| YAMLError
| PyExn (e : exn).

Inductive ioresult (A : Type) : Type :=
| Loaded (a : A)
| Failed (e : ioexn).
Arguments Loaded {A} a.
Arguments Failed {A} e.

#[global] Instance ioresult_ret : MRet ioresult := fun A a => Loaded a.
#[global] Instance ioresult_bind : MBind ioresult := fun A B f m =>
  match m with
  | Loaded a => f a
  | Failed e => Failed e
  end.

Definition lift_exn {A} (m : result A) : ioresult A :=
  match m with
  | Ok a => Loaded a
  | Raise e => Failed (PyExn e)
  end.

Definition foldM_io {A B} (f : A -> B -> ioresult A) : list B -> A -> ioresult A :=
  fix go (xs : list B) (acc : A) : ioresult A :=
    match xs with
    | [] => Loaded acc
    | x :: xs' => acc' ← f acc x; go xs' acc'
    end.

(** The files the generator reads: [listdir] is [os.listdir], [None] when
    it raises [OSError]; [file_contents] is [open(path).read()], [None]
    when it raises [OSError]; [yaml_load] is [yaml.load] with the safe
    loader, [None] when it raises. *)
Record filesystem : Type := {
  listdir : string -> option (list string);
  file_contents : string -> option string;
  yaml_load : string -> option value
}.

Definition slash : ascii := "/"%char.

(** [os.path.join(a, b)] on POSIX. *)
Definition path_join (a b : string) : string :=
  if startswith "/" b then b
  else if String.eqb a "" || endswith a "/" then a +:+ b
  else a +:+ "/" +:+ b.

(** [f.split('.')[0]] *)
Fixpoint before_dot (f : string) : string :=
  match f with
  | EmptyString => EmptyString
  | String c f' => if Ascii.eqb c "."%char then EmptyString else String c (before_dot f')
  end.

Definition _read_file_yaml (fs : filesystem) (path : string) : ioresult value :=
  match file_contents fs path with
  | None => Failed OSError
  | Some contents =>
      match yaml_load fs contents with
      | Some y => Loaded y
      | None => Failed YAMLError
      end
  end.

Definition bad_name_msg (f : string) (name : value) : string :=
  "ERROR: Policy file " +:+ f +:+ " contains policy with name " +:+
  String dquote (py_str name +:+ String dquote ".").

(** The body of [for f in os.listdir(...)]. *)
Definition read_policy_file (fs : filesystem) (subdir : string) (res : dict)
    (f : string) : ioresult dict :=
  if negb (endswith f ".yml") then Loaded res
  else
    let name := before_dot f in
    y ← _read_file_yaml fs (path_join (path_join "policies" subdir) f);
    let res := dict_set name y res in
    if negb (String.eqb name "defaults") then
      n ← lift_exn (get y "name" (VStr ""));
      if negb (py_eq n (VStr name)) then
        n' ← lift_exn (get y "name" (VStr ""));
        Failed (PyExn (RuntimeError (bad_name_msg f n')))
      else Loaded res
    else Loaded res.

Definition _read_policies (fs : filesystem) (subdir : string) : ioresult dict :=
  match listdir fs (path_join "policies" subdir) with
  | None => Loaded []
  | Some files =>
      match foldM_io (read_policy_file fs subdir) files [] with
      | Failed OSError => Loaded []
      | r => r
      end
  end.

(** [regions] is [self._config.regions]. *)
Definition _read_policy_directory (fs : filesystem) (regions : list string)
    (policy_dir : string) : ioresult region_map :=
  common ← _read_policies fs (path_join policy_dir "common");
  foldM_io
    (fun region_policies rname =>
       policies ← _read_policies fs (path_join policy_dir rname);
       Loaded (amap_set rname (dict_update common policies) region_policies))
    regions [].

(** ** [PolicyGen.run]: the policies of the accounts *)

(** The body of [for rname in self._config.regions], on the copy [conf]
    of the policies of [all_accounts]:
    [conf[rname].update(acct_conf[rname])]. *)
Definition layer_region (acct_conf conf : region_map) (rname : string)
  : ioresult region_map :=
  match amap_get rname conf with
  | None => Failed (PyExn (KeyError rname))
  | Some policies =>
      match amap_get rname acct_conf with
      | None => Failed (PyExn (KeyError rname))
      | Some own => Loaded (amap_set rname (dict_update policies own) conf)
      end
  end.

(** The body of [for acctname in self._config.list_accounts(...)]. *)
Definition read_account (fs : filesystem) (regions : list string)
    (all_accts : region_map) (acct_configs : account_map) (acctname : string)
  : ioresult account_map :=
  (* start with the all_accts dict, for common config *)
  let conf := all_accts in
  acct_conf ← _read_policy_directory fs regions acctname;
  conf ← foldM_io (layer_region acct_conf) regions conf;
  Loaded (amap_set acctname conf acct_configs).

(** [run] until it has read everything: the defaults and [acct_configs],
    which the rest of [run] generates the configurations and the
    documentation from.  [accounts] is what [list_accounts] returns. *)
Definition run_read (fs : filesystem) (regions accounts : list string)
  : ioresult (value * account_map) :=
  defaults ← _read_file_yaml fs (path_join "policies" "defaults.yml");
  all_accts ← _read_policy_directory fs regions "all_accounts";
  acct_configs ← foldM_io (read_account fs regions all_accts) accounts [];
  Loaded (defaults, acct_configs).

(** ** [PolicyGen._write_custodian_configs] *)

(** [s.replace(old, new)] for a pattern that is not empty: the
    occurrences are taken from the left and do not overlap.  [skip]
    counts the characters of an occurrence still to pass over. *)
Fixpoint replace_from (old new : string) (skip : nat) (s : string) : string :=
  match s with
  | EmptyString => EmptyString
  | String c s' =>
      match skip with
      | S k => replace_from old new k s'
      | O =>
          if startswith old s
          then new +:+ replace_from old new (String.length old - 1) s'
          else String c (replace_from old new 0 s')
      end
  end.

(** With the empty pattern, [new] goes before every character and at the
    end. *)
Fixpoint intersperse (new : string) (s : string) : string :=
  match s with
  | EmptyString => new
  | String c s' => new +:+ String c (intersperse new s')
  end.

Definition str_replace (s old new : string) : string :=
  match old with
  | EmptyString => intersperse new s
  | _ => replace_from old new 0 s
  end.

(** [conf.replace(macro, val)]; the replacement has to be a string. *)
Definition py_replace (conf : string) (mv : string * value) : result string :=
  match snd mv with
  | VStr val => Ok (str_replace conf (fst mv) val)
  | _ => Raise TypeError
  end.

(** The attributes of the configuration object the writer reads. *)
Record OutputConfig : Type := {
  output_s3_bucket_name : value;
  custodian_log_group : value;
  dead_letter_queue_arn : value;
  role_arn : value;
  mailer_config : value;
  account_name : value;
  account_id : value
}.

(** [for k, v in os.environ.items(): if k.startswith('POLICYGEN_ENV_')] *)
Definition env_replacements (environ : list (string * string))
  : list (string * value) :=
  map (fun kv => ("%%" +:+ fst kv +:+ "%%", VStr (snd kv)))
      (List.filter (fun kv => startswith "POLICYGEN_ENV_" (fst kv)) environ).

(** The list [replacements] before the loop over the environment, given
    [self._config.mailer_config['queue_url']]. *)
Definition config_replacements (config : OutputConfig) (queue_url : value)
    (region_name : string) : list (string * value) :=
  [ ("%%BUCKET_NAME%%", output_s3_bucket_name config);
    ("%%LOG_GROUP%%", custodian_log_group config);
    ("%%DLQ_ARN%%", dead_letter_queue_arn config);
    ("%%ROLE_ARN%%", role_arn config);
    ("%%MAILER_QUEUE_URL%%", queue_url);
    ("%%ACCOUNT_NAME%%", account_name config);
    ("%%ACCOUNT_ID%%", VStr (py_str (account_id config)));
    ("%%AWS_REGION%%", VStr region_name) ].

(** [yaml_dump] is [yaml.dump]; the result is the path and the content
    handed to [_write_file]. *)
Definition _write_custodian_configs (config : OutputConfig)
    (environ : list (string * string)) (yaml_dump : value -> string)
    (res : value) (region_name : string) : result (string * string) :=
  let config_str := yaml_dump res in
  let fname := "custodian_" +:+ region_name +:+ ".yml" in
  queue_url ← getitem (mailer_config config) "queue_url";
  let replacements :=
    config_replacements config queue_url region_name ++ env_replacements environ in
  conf ← foldM py_replace replacements config_str;
  Ok (fname, conf).

(** ** Notions used in the statements *)

(** Words with one space between them: every whitespace character is a
    space and stands before a character that is not whitespace. *)
Fixpoint single_spaced (s : string) : bool :=
  match s with
  | EmptyString => true
  | String c s' =>
      (if is_space c then
         Ascii.eqb c " "%char &&
         match s' with
         | String c' _ => negb (is_space c')
         | EmptyString => false
         end
       else true)
      && single_spaced s'
  end.

(** The first character of [s], if any, is not whitespace; so the last. *)
Definition head_ok (s : string) : bool :=
  match s with
  | String c _ => negb (is_space c)
  | EmptyString => true
  end.

Fixpoint ends_well (s : string) : bool :=
  match s with
  | EmptyString => true
  | String c EmptyString => negb (is_space c)
  | String _ s' => ends_well s'
  end.

(** One line: single spaced, and no whitespace in front. *)
Definition one_line (s : string) : bool :=
  head_ok s && single_spaced s.

(** A mark-for-op action whose message does not end with
    [": {op}@{action_date}"], and one whose message is not a string. *)
Definition bad_message (a : value) : bool :=
  match a with
  | VDict d =>
      is_mark_for_op a &&
      match dict_get "message" d with
      | Some (VStr m) => negb (endswith m ": {op}@{action_date}")
      | _ => false
      end
  | _ => false
  end.

Definition message_not_str (a : value) : bool :=
  match a with
  | VDict d =>
      is_mark_for_op a &&
      match dict_get "message" d with
      | Some (VStr _) | None => false
      | Some _ => true
      end
  | _ => false
  end.

(** A filter [{'type': 'marked-for-op', ...}]. *)
Definition is_marked_filter (f : value) : bool :=
  match f with
  | VDict d => py_eq (default (VStr "") (dict_get "type" d)) (VStr "marked-for-op")
  | _ => false
  end.

(** [v'] is [v], or the dictionary [v] with more keys: every key of [v]
    has its value in [v']. *)
Definition extends (v v' : value) : Prop :=
  v' = v \/
  exists d d', v = VDict d /\ v' = VDict d' /\
               forall k x, dict_get k d = Some x -> dict_get k d' = Some x.

(** A dictionary of type notify. *)
Definition is_notify (a : value) : bool :=
  match a with
  | VDict d => py_eq (type_of d) (VStr "notify")
  | _ => false
  end.

Definition is_str (v : value) : bool :=
  match v with VStr _ => true | _ => false end.

(** Text of ASCII characters only; in it [is_space] is the whitespace
    that [str.strip] removes. *)
Fixpoint is_ascii (s : string) : bool :=
  match s with
  | EmptyString => true
  | String c s' => Nat.ltb (nat_of_ascii c) 128 && is_ascii s'
  end.

(** The six values of the configuration the writer substitutes as they
    are, given the mailer's queue URL. *)
Definition substituted (config : OutputConfig) (queue_url : value) : list value :=
  [ output_s3_bucket_name config; custodian_log_group config;
    dead_letter_queue_arn config; role_arn config; queue_url;
    account_name config ].

(** ** Files used in the examples *)

(** The policy [untagged_ec2] as one region overrides it. *)
Definition untagged_ec2_east : value :=
  VDict [ ("name", VStr "ec2-untagged");
          ("resource", VStr "ec2");
          ("comment", VStr "Instances without an owner, us-east-1");
          ("filters", VList [VDict [("tag:Owner", VStr "absent")]]) ].

(** A policies directory: [dev] has a common policy and, for
    [us-east-1], a policy of its own and an override of the common one;
    [all_accounts/common] lists a file that cannot be opened.  The file
    contents stand for the YAML text. *)
Definition example_fs : filesystem :=
  {| listdir := fun p =>
       if String.eqb p "policies/dev/common" then Some ["ec2-untagged.yml"; "README.md"]
       else if String.eqb p "policies/dev/us-east-1"
            then Some ["ec2-stop.yml"; "ec2-untagged.yml"]
       else if String.eqb p "policies/all_accounts/common"
            then Some ["ec2-untagged.yml"; "missing.yml"]
       else if String.eqb p "policies/all_accounts/eu-west-1" then Some ["p1.yml"]
       else None;
     file_contents := fun p =>
       if String.eqb p "policies/dev/common/ec2-untagged.yml" then Some "untagged"
       else if String.eqb p "policies/dev/us-east-1/ec2-untagged.yml"
            then Some "untagged east"
       else if String.eqb p "policies/dev/us-east-1/ec2-stop.yml" then Some "stop"
       else if String.eqb p "policies/all_accounts/common/ec2-untagged.yml"
            then Some "untagged"
       else if String.eqb p "policies/all_accounts/eu-west-1/p1.yml" then Some "p1"
       else if String.eqb p "policies/defaults.yml" then Some "defaults"
       else None;
     yaml_load := fun c =>
       if String.eqb c "untagged" then Some untagged_ec2
       else if String.eqb c "untagged east" then Some untagged_ec2_east
       else if String.eqb c "stop" then Some stop_policy
       else if String.eqb c "p1" then Some (periodic_policy "p1")
       else if String.eqb c "defaults" then Some notify_defaults
       else None |}.

(** Whether [old] can begin where [s] does in a text that goes on after
    [s] without a percent sign; and whether it can begin nowhere in
    [s]. *)
Fixpoint may_start (old s : string) : bool :=
  match old, s with
  | EmptyString, _ => true
  | String x old', String y s' => Ascii.eqb x y && may_start old' s'
  | String _ _, EmptyString => negb (str_has_char "%" old)
  end.

Fixpoint clear_of (old s : string) : bool :=
  match s with
  | EmptyString => true
  | String _ s' => negb (may_start old s) && clear_of old s'
  end.

(** The descriptions [_policy_rst_data] collects: no key twice, every
    value a string. *)
Definition descriptions_ok (d : dict) : Prop :=
  NoDup (keys d) /\ Forall (fun kv => is_str (snd kv) = true) d.

(** An account, a region and the policies [account_policies] has for
    them. *)
Definition policies_of (account_policies : account_map) (acctname rname : string)
  : option dict :=
  match amap_get acctname account_policies with
  | Some region_policies => amap_get rname region_policies
  | None => None
  end.

(** A configuration for the examples, and one without a dead letter
    queue. *)
Definition example_output : OutputConfig :=
  {| output_s3_bucket_name := VStr "c7n-logs";
     custodian_log_group := VStr "/cloud-custodian/dev";
     dead_letter_queue_arn := VStr "arn:aws:sqs:us-east-1:123456789012:c7n-dlq";
     role_arn := VStr "arn:aws:iam::123456789012:role/c7n";
     mailer_config := VDict [("queue_url", VStr "https://sqs.example.com/c7n-mailer")];
     account_name := VStr "dev";
     account_id := VInt 123456789012 |}.

Definition output_without_dlq : OutputConfig :=
  {| output_s3_bucket_name := VStr "c7n-logs";
     custodian_log_group := VStr "/cloud-custodian/dev";
     dead_letter_queue_arn := VNone;
     role_arn := VStr "arn:aws:iam::123456789012:role/c7n";
     mailer_config := VDict [("queue_url", VStr "https://sqs.example.com/c7n-mailer")];
     account_name := VStr "dev";
     account_id := VInt 123456789012 |}.

(** The regions of an account, in ascending order, that have the policy
    [pname]. *)
Definition has_policy (region_policies : region_map) (pname rname : string) : bool :=
  match amap_get rname region_policies with
  | Some ps => dict_has pname ps
  | None => false
  end.

Definition regions_with (region_policies : region_map) (pname : string)
  : list string :=
  List.filter (has_policy region_policies pname) (sorted (map fst region_policies)).

(** What an account adds to the accounts of a policy in the table: its
    name when it has the policy in all the regions of the configuration,
    its name and the regions when it has it in some, nothing when it has
    it in none. *)
Definition account_entry (all_regions : list string) (account_policies : account_map)
    (pname acctname : string) : list string :=
  match amap_get acctname account_policies with
  | Some region_policies =>
      let regions := sorted (regions_with region_policies pname) in
      if bool_decide (regions = all_regions) then [acctname]
      else if Nat.ltb 0 (length regions) then
        [acctname +:+ " (" +:+ join " " regions +:+ ")"]
      else []
  | None => []
  end.

(** Dictionaries as Python builds them: no account, no region of an
    account and no policy of a region twice. *)
Definition account_map_wf (account_policies : account_map) : Prop :=
  NoDup (map fst account_policies) /\
  Forall (fun arp : string * region_map =>
            NoDup (map fst (snd arp)) /\
            Forall (fun rps : string * dict => NoDup (keys (snd rps))) (snd arp))
    account_policies.

(** Policies of two accounts for the examples. *)
Definition example_accounts : account_map :=
  [ ("prod", [ ("us-east-1", [("ec2-untagged", untagged_ec2)]);
               ("eu-west-1", [("ec2-untagged", untagged_ec2)]) ]);
    ("dev", [ ("us-east-1", [ ("ec2-untagged", untagged_ec2_east);
                              ("ec2-stop", stop_policy) ]);
              ("eu-west-1", [("ec2-untagged", untagged_ec2)]) ]) ].
(** * Properties *)

(** ** The result monad *)

Lemma bind_Ok {A B} (a : A) (f : A -> result B) : (Ok a ≫= f) = f a.
Proof. reflexivity. Qed.

Lemma bind_Raise {A B} (e : exn) (f : A -> result B) : (Raise e ≫= f) = Raise e.
Proof. reflexivity. Qed.

Lemma bind_Ok_inv {A B} (m : result A) (f : A -> result B) (b : B) :
  (m ≫= f) = Ok b -> exists a, m = Ok a /\ f a = Ok b.
Proof. destruct m as [a|e]; [eauto | discriminate]. Qed.

Lemma bind_Raise_inv {A B} (m : result A) (f : A -> result B) (e : exn) :
  (m ≫= f) = Raise e -> m = Raise e \/ exists a, m = Ok a /\ f a = Raise e.
Proof. destruct m as [a|e']; [eauto | intros [= ->]; auto]. Qed.

(** Splits a hypothesis [x ← m; k = Ok b] into its steps. *)
Ltac inv_bind H :=
  let a := fresh "a" in
  let Ha := fresh "Ha" in
  apply bind_Ok_inv in H; destruct H as (a & Ha & H).

Lemma foldM_app {A B} (f : A -> B -> result A) (xs ys : list B) (acc : A) :
  foldM f (xs ++ ys) acc = (foldM f xs acc ≫= foldM f ys).
Proof.
  revert acc; induction xs as [|x xs IH]; intros acc; [reflexivity|].
  cbn. destruct (f acc x) as [acc'|e]; cbn; [apply IH | reflexivity].
Qed.

Lemma not_raises_Ok {A} (a : A) : ~ raises (Ok a).
Proof. intros [e He]; discriminate. Qed.

Lemma raises_Raise {A} (e : exn) : raises (@Raise A e).
Proof. exists e; reflexivity. Qed.

Lemma raises_or_ok {A} (m : result A) : raises m \/ exists a, m = Ok a.
Proof. destruct m; [right | left]; eauto using raises_Raise. Qed.

(** ** Strings and dictionaries *)

Lemma eqb_refl (s : string) : String.eqb s s = true.
Proof. apply String.eqb_refl. Qed.

Lemma eqb_true (s t : string) : String.eqb s t = true <-> s = t.
Proof. apply String.eqb_eq. Qed.

Lemma eqb_false (s t : string) : String.eqb s t = false <-> s <> t.
Proof. apply String.eqb_neq. Qed.

Lemma dict_has_get (k : string) (d : dict) :
  dict_has k d = true <-> exists v, dict_get k d = Some v.
Proof.
  unfold dict_has. destruct (dict_get k d); split; eauto; try discriminate.
  intros [v [=]].
Qed.

Lemma dict_has_false (k : string) (d : dict) :
  dict_has k d = false <-> dict_get k d = None.
Proof. unfold dict_has. destruct (dict_get k d); split; congruence. Qed.

Lemma dict_get_set_eq (k : string) (v : value) (d : dict) :
  dict_get k (dict_set k v d) = Some v.
Proof.
  induction d as [|[k' v'] d IH]; cbn.
  - now rewrite eqb_refl.
  - destruct (String.eqb k k') eqn:E; cbn; rewrite E; [reflexivity | exact IH].
Qed.

Lemma dict_get_set_ne (k k' : string) (v : value) (d : dict) :
  k <> k' -> dict_get k' (dict_set k v d) = dict_get k' d.
Proof.
  intros Hne. induction d as [|[k0 v0] d IH]; cbn.
  - apply eqb_false in Hne. rewrite String.eqb_sym in Hne. now rewrite Hne.
  - destruct (String.eqb k k0) eqn:E; cbn.
    + apply eqb_true in E; subst k0.
      assert (String.eqb k' k = false) as -> by (apply eqb_false; congruence).
      reflexivity.
    + destruct (String.eqb k' k0); [reflexivity | exact IH].
Qed.

Lemma dict_get_del_eq (k : string) (d : dict) :
  NoDup (keys d) -> dict_get k (dict_del k d) = None.
Proof.
  induction d as [|[k' v'] d IH]; cbn; [reflexivity|].
  intros Hnd. apply NoDup_cons in Hnd as [Hnotin Hnd].
  destruct (String.eqb k k') eqn:E; cbn.
  - apply eqb_true in E; subst k'.
    clear IH Hnd. induction d as [|[k0 v0] d IH]; cbn; [reflexivity|].
    cbn in Hnotin. apply not_elem_of_cons in Hnotin as [Hne Hnotin].
    assert (String.eqb k k0 = false) as -> by (apply eqb_false; congruence).
    auto.
  - rewrite E. auto.
Qed.

Lemma dict_get_del_ne (k k' : string) (d : dict) :
  k <> k' -> dict_get k' (dict_del k d) = dict_get k' d.
Proof.
  intros Hne. induction d as [|[k0 v0] d IH]; cbn; [reflexivity|].
  destruct (String.eqb k k0) eqn:E; cbn.
  - apply eqb_true in E; subst k0.
    assert (String.eqb k' k = false) as -> by (apply eqb_false; congruence).
    reflexivity.
  - destruct (String.eqb k' k0); [reflexivity | exact IH].
Qed.

Lemma dict_get_In (k : string) (v : value) (d : dict) :
  dict_get k d = Some v -> In (k, v) d.
Proof.
  induction d as [|[k' v'] d IH]; cbn; [discriminate|].
  destruct (String.eqb k k') eqn:E.
  - apply eqb_true in E; subst. intros [= ->]. now left.
  - intros H. right. auto.
Qed.

Lemma dict_set_same (k : string) (v : value) (d : dict) :
  dict_get k d = Some v -> dict_set k v d = d.
Proof.
  induction d as [|[k' v'] d IH]; cbn; [discriminate|].
  destruct (String.eqb k k') eqn:E.
  - intros [= ->]. reflexivity.
  - intros H. now rewrite IH.
Qed.

(** ** Equality with a string, and with a one-entry dictionary *)

Lemma py_eq_VStr_r (v : value) (s : string) :
  py_eq v (VStr s) = true <-> v = VStr s.
Proof.
  destruct v; cbn; split; try discriminate; try congruence.
  - intros H. apply eqb_true in H. now subst.
  - intros [= ->]. apply eqb_refl.
Qed.

Lemma py_eq_VStr_l (v : value) (s : string) :
  py_eq (VStr s) v = true <-> v = VStr s.
Proof.
  destruct v; cbn; split; try discriminate; try congruence.
  - intros H. apply eqb_true in H. now subst.
  - intros [= ->]. apply eqb_refl.
Qed.

Lemma py_eq_singleton (k s : string) (v : value) :
  py_eq (VDict [(k, VStr s)]) v = true <-> v = VDict [(k, VStr s)].
Proof.
  split.
  - destruct v as [| | | |l|d]; cbn; try discriminate.
    destruct d as [|[k' w] [|? ?]]; cbn; try discriminate.
    destruct (String.eqb k k') eqn:E; cbn; [|discriminate].
    apply eqb_true in E; subst k'.
    rewrite andb_true_r. intros H. apply py_eq_VStr_l in H. now subst.
  - intros ->. cbn. now rewrite !eqb_refl.
Qed.

Lemma list_contains_singleton (k s : string) (l : list value) :
  list_contains (VDict [(k, VStr s)]) l = true <-> In (VDict [(k, VStr s)]) l.
Proof.
  unfold list_contains. rewrite existsb_exists. split.
  - intros (x & Hin & Heq). apply py_eq_singleton in Heq. now subst.
  - intros Hin. eexists; split; [exact Hin|]. now apply py_eq_singleton.
Qed.

(** ** The check [_check_policy_mark_but_no_tag_filter] *)

Lemma collect_mark_tag_skip (tags : list value) (a : value) :
  is_mark_for_op a = false -> collect_mark_tag tags a = Ok tags.
Proof.
  destruct a as [| | | |l|d]; cbn; try reflexivity.
  destruct (dict_get "type" d) as [t|]; cbn; [intros ->|]; reflexivity.
Qed.

Lemma collect_mark_tag_mark (tags : list value) (a : value) :
  is_mark_for_op a = true ->
  collect_mark_tag tags a = (tag ← getitem a "tag"; Ok (tags ++ [tag])).
Proof.
  destruct a as [| | | |l|d]; cbn; try discriminate.
  destruct (dict_get "type" d) as [t|]; cbn; [intros ->|discriminate]; reflexivity.
Qed.

Lemma collect_mark_tags_ok (acts acc : list value) :
  (forall a, In a acts -> is_mark_for_op a = true -> is_ok (getitem a "tag") = true) ->
  exists tags,
    foldM collect_mark_tag acts acc = Ok (acc ++ tags) /\
    forall t, In t tags <->
      exists a, In a acts /\ is_mark_for_op a = true /\ getitem a "tag" = Ok t.
Proof.
  revert acc. induction acts as [|a acts IH]; intros acc Htag.
  - exists []. rewrite app_nil_r. split; [reflexivity|].
    intros t; split; [intros [] | intros (a & [] & _)].
  - cbn [foldM]. destruct (is_mark_for_op a) eqn:Hm.
    + rewrite collect_mark_tag_mark by exact Hm.
      pose proof (Htag a (or_introl eq_refl) Hm) as Hok.
      destruct (getitem a "tag") as [t0|e] eqn:Hget; [|discriminate]. cbn.
      destruct (IH (acc ++ [t0])) as (tags & Hfold & Hin).
      { intros a' Ha'. apply Htag. now right. }
      exists (t0 :: tags). rewrite Hfold, <- app_assoc. split; [reflexivity|].
      intros t; cbn; rewrite Hin; split.
      * intros [<- | (a' & Ha' & Hm' & Hg)]; [exists a | exists a']; auto.
      * intros (a' & [<- | Ha'] & Hm' & Hg); [left; congruence | right; eauto].
    + rewrite collect_mark_tag_skip by exact Hm. cbn.
      destruct (IH acc) as (tags & Hfold & Hin).
      { intros a' Ha'. apply Htag. now right. }
      exists tags. split; [exact Hfold|].
      intros t; rewrite Hin; split.
      * intros (a' & Ha' & Hm' & Hg). exists a'; auto.
      * intros (a' & [<- | Ha'] & Hm' & Hg); [congruence | eauto].
Qed.

Lemma collect_mark_tags_raise (acts acc : list value) (a : value) :
  In a acts -> is_mark_for_op a = true -> getitem a "tag" = Raise (KeyError "tag") ->
  (forall a', In a' acts -> is_mark_for_op a' = true ->
     is_ok (getitem a' "tag") = true \/ getitem a' "tag" = Raise (KeyError "tag")) ->
  foldM collect_mark_tag acts acc = Raise (KeyError "tag").
Proof.
  revert acc. induction acts as [|a0 acts IH]; intros acc Hin Hm Hget Hall; [destruct Hin|].
  cbn [foldM]. destruct (is_mark_for_op a0) eqn:Hm0.
  - rewrite collect_mark_tag_mark by exact Hm0.
    destruct (Hall a0 (or_introl eq_refl) Hm0) as [Hok | Hr].
    + destruct (getitem a0 "tag") as [t0|e] eqn:Hg0; [|discriminate]. cbn.
      destruct Hin as [-> | Hin]; [congruence|].
      apply IH; auto. intros a' Ha'. apply Hall. now right.
    + rewrite Hr. reflexivity.
  - rewrite collect_mark_tag_skip by exact Hm0. cbn.
    destruct Hin as [-> | Hin]; [congruence|].
    apply IH; auto. intros a' Ha'. apply Hall. now right.
Qed.

Lemma tags_filtered_list (fs tags : list value) :
  exists b, tags_filtered (VList fs) tags = Ok b /\
    (b = true <-> forall t, In t tags -> In (tag_filter t) fs).
Proof.
  induction tags as [|t tags (b & Hb & Hiff)]; cbn.
  - exists true. split; [reflexivity|]. split; [intros _ t [] | reflexivity].
  - destruct (list_contains (tag_filter t) fs) eqn:Hc; cbn.
    + exists b. split; [exact Hb|]. rewrite Hiff.
      apply list_contains_singleton in Hc.
      split; [intros H t' [<- | Ht']; auto | intros H t' Ht'; apply H; now right].
    + exists false. split; [reflexivity|]. split; [discriminate|].
      intros H. specialize (H t (or_introl eq_refl)).
      apply list_contains_singleton in H. unfold tag_filter in Hc. congruence.
Qed.

Lemma getitem_dict_tag (a : value) :
  is_mark_for_op a = true ->
  is_ok (getitem a "tag") = true \/ getitem a "tag" = Raise (KeyError "tag").
Proof.
  destruct a as [| | | |l|d]; cbn; try discriminate. intros _.
  destruct (dict_get "tag" d); cbn; auto.
Qed.

(** C6 (as the code has it): a policy without a [filters] key or without
    an [actions] key passes the check, whatever it marks.  A policy that
    has a list of filters and a list of actions, each mark-for-op action
    carrying a tag, passes exactly when every mark-for-op action's tag [t]
    has the filter [{"tag:t": "absent"}] among the filters; so a policy
    with no mark-for-op action passes. *)
Theorem mark_but_no_tag_filter_verdict (p : dict) :
  (dict_has "filters" p = false \/ dict_has "actions" p = false ->
   _check_policy_mark_but_no_tag_filter (VDict p) = Ok true) /\
  (forall filters acts : list value,
     dict_get "filters" p = Some (VList filters) ->
     dict_get "actions" p = Some (VList acts) ->
     (forall a, In a acts -> is_mark_for_op a = true ->
                is_ok (getitem a "tag") = true) ->
     exists b,
       _check_policy_mark_but_no_tag_filter (VDict p) = Ok b /\
       (b = true <->
        forall a t, In a acts -> is_mark_for_op a = true ->
                    getitem a "tag" = Ok t -> In (tag_filter t) filters)).
Proof.
  split.
  - unfold _check_policy_mark_but_no_tag_filter, has_key; cbn.
    destruct (dict_has "filters" p) eqn:Hf; cbn; [|reflexivity].
    intros [? | ->]; [discriminate | reflexivity].
  - intros filters acts Hf Ha Htags.
    unfold _check_policy_mark_but_no_tag_filter, has_key; cbn.
    unfold dict_has. rewrite Hf, Ha. cbn.
    destruct (collect_mark_tags_ok acts [] Htags) as (tags & -> & Hin). cbn.
    destruct (tags_filtered_list filters tags) as (b & Hb & Hiff).
    exists b. split; [exact Hb|]. rewrite Hiff. split.
    + intros H a t Hina Hm Hg. apply H, Hin. eauto.
    + intros H t Ht. apply Hin in Ht as (a & Hina & Hm & Hg). eauto.
Qed.

Lemma mark_but_no_tag_filter_verdict_witness :
  _check_policy_mark_but_no_tag_filter mark_no_filters = Ok true /\
  exists b,
    _check_policy_mark_but_no_tag_filter
      (VDict [ ("filters", VList [VDict [("tag:expiry", VStr "absent")]]);
               ("actions", VList [VDict [("type", VStr "mark-for-op");
                                         ("tag", VStr "expiry")]]) ]) = Ok b.
Proof.
  split.
  - apply (proj1 (mark_but_no_tag_filter_verdict _)). left. reflexivity.
  - destruct (proj2 (mark_but_no_tag_filter_verdict
        [ ("filters", VList [VDict [("tag:expiry", VStr "absent")]]);
          ("actions", VList [VDict [("type", VStr "mark-for-op");
                                    ("tag", VStr "expiry")]]) ])
        [VDict [("tag:expiry", VStr "absent")]]
        [VDict [("type", VStr "mark-for-op"); ("tag", VStr "expiry")]]
        eq_refl eq_refl) as (b & Hb & _).
    + intros a [<- | []] _. reflexivity.
    + exists b. exact Hb.
Defined.

(** C6, as stated, fails: [mark_no_filters] has a mark-for-op action with
    the tag [expiry] and no filter at all, and it passes the check. *)
Lemma mark_but_no_tag_filter_counterexample :
  getitem mark_no_filters "actions"
    = Ok (VList [VDict [("type", VStr "mark-for-op"); ("tag", VStr "expiry")]]) /\
  getitem mark_no_filters "filters" = Raise (KeyError "filters") /\
  _check_policy_mark_but_no_tag_filter mark_no_filters = Ok true.
Proof. repeat split. Qed.

(** C10: a policy with a [filters] key whose actions hold a dictionary of
    type mark-for-op without a ["tag"] key gets no verdict from the check:
    the access [a['tag']] raises [KeyError]. *)
Theorem mark_for_op_without_tag_raises (p : dict) (filters : value)
    (acts : list value) (a : dict) :
  dict_get "filters" p = Some filters ->
  dict_get "actions" p = Some (VList acts) ->
  In (VDict a) acts ->
  dict_get "type" a = Some (VStr "mark-for-op") ->
  dict_get "tag" a = None ->
  _check_policy_mark_but_no_tag_filter (VDict p) = Raise (KeyError "tag").
Proof.
  intros Hf Ha Hin Hty Htag.
  unfold _check_policy_mark_but_no_tag_filter, has_key; cbn.
  unfold dict_has. rewrite Hf, Ha. cbn.
  rewrite (collect_mark_tags_raise acts [] (VDict a)); auto.
  - cbn. now rewrite Hty.
  - cbn. now rewrite Htag.
  - intros a' _. apply getitem_dict_tag.
Qed.

Lemma mark_for_op_without_tag_raises_witness :
  _check_policy_mark_but_no_tag_filter mark_no_tag = Raise (KeyError "tag").
Proof.
  apply (mark_for_op_without_tag_raises _
           (VList [VDict [("tag:maid_status", VStr "absent")]])
           [VDict [("type", VStr "mark-for-op"); ("op", VStr "stop")]]
           [("type", VStr "mark-for-op"); ("op", VStr "stop")]);
    try reflexivity.
  left. reflexivity.
Defined.

(** ** [_check_policies]: the aggregation when every check gives a verdict *)

Lemma failures_append_names (name : string) (doc : string) (f : failures) :
  Forall (fun e => is_Some (as_str (fst e))) f ->
  Forall (fun e => is_Some (as_str (fst e))) (failures_append (VStr name) doc f) /\
  failures_append (VStr name) doc f <> [].
Proof.
  induction f as [|[n docs] f IH]; cbn [failures_append]; intros Hall.
  - split; [|discriminate]. repeat constructor. cbn. eauto.
  - apply Forall_cons in Hall as [Hn Hf].
    destruct (py_eq (VStr name) n); (split; [|intros H; discriminate H]);
      constructor; auto.
    apply (IH Hf).
Qed.

Lemma run_check_verdict (pol : value) (name : string) (f : failures) (c : check)
    (b : bool) :
  chk c pol = Ok b -> getitem pol "name" = Ok (VStr name) ->
  run_check pol f c
  = Ok (if b then f else failures_append (VStr name) (strip_doc (chk_doc c)) f).
Proof.
  intros Hc Hn. unfold run_check. rewrite Hc. cbn. destruct b; cbn; [reflexivity|].
  rewrite Hn. reflexivity.
Qed.

(** The loop over the checks, on one policy. *)
Lemma run_checks_verdicts (checks : list check) (pol : value) (name : string) :
  (forall c, In c checks -> exists b, chk c pol = Ok b) ->
  getitem pol "name" = Ok (VStr name) ->
  forall f, Forall (fun e => is_Some (as_str (fst e))) f ->
    exists f', foldM (run_check pol) checks f = Ok f' /\
      Forall (fun e => is_Some (as_str (fst e))) f' /\
      (f' = [] <-> f = [] /\ forall c, In c checks -> chk c pol = Ok true).
Proof.
  intros Hv Hn. induction checks as [|c checks IH]; intros f Hf.
  - exists f. cbn. split; [reflexivity|]. split; [exact Hf|]. split; [|tauto].
    intros ->. split; [reflexivity | intros c []].
  - destruct (Hv c (or_introl eq_refl)) as [b Hb].
    cbn [foldM]. rewrite (run_check_verdict pol name f c b Hb Hn). cbn.
    destruct (failures_append_names name (strip_doc (chk_doc c)) f Hf) as [Hf1 Hne].
    destruct (IH (fun c' H => Hv c' (or_intror H))
                (if b then f else failures_append (VStr name) (strip_doc (chk_doc c)) f))
      as (f' & Hrun & Hf' & Hempty).
    { destruct b; assumption. }
    exists f'. split; [exact Hrun|]. split; [exact Hf'|]. rewrite Hempty.
    destruct b.
    + split.
      * intros [-> Hall]. split; [reflexivity|]. intros c' [<- | Hin]; auto.
      * intros [-> Hall]. split; [reflexivity|]. intros c' Hin. apply Hall. now right.
    + split; [intros [He _]; contradiction|].
      intros [_ Hall]. specialize (Hall c (or_introl eq_refl)). congruence.
Qed.

(** The two loops. *)
Lemma collect_failures_verdicts (checks : list check) (policies : list value) :
  Forall (fun pol => (forall c, In c checks -> exists b, chk c pol = Ok b) /\
                     exists name, getitem pol "name" = Ok (VStr name)) policies ->
  forall f, Forall (fun e => is_Some (as_str (fst e))) f ->
    exists f',
      foldM (fun f pol => foldM (run_check pol) checks f) policies f = Ok f' /\
      Forall (fun e => is_Some (as_str (fst e))) f' /\
      (f' = [] <-> f = [] /\
                   forall pol c, In pol policies -> In c checks -> chk c pol = Ok true).
Proof.
  intros Hall. induction Hall as [|pol policies [Hv [name Hn]] _ IH]; intros f Hf.
  - exists f. cbn. split; [reflexivity|]. split; [exact Hf|]. split; [|tauto].
    intros ->. split; [reflexivity | intros pol c []].
  - destruct (run_checks_verdicts checks pol name Hv Hn f Hf) as (f1 & Hrun1 & Hf1 & He1).
    destruct (IH f1 Hf1) as (f' & Hrun & Hf' & He).
    exists f'. cbn [foldM]. rewrite Hrun1. cbn. split; [exact Hrun|].
    split; [exact Hf'|]. rewrite He, He1. split.
    + intros [[-> H1] H2]. split; [reflexivity|].
      intros p c [<- | Hin] Hc; auto.
    + intros [-> H]. split; [split; [reflexivity|]|].
      * intros c Hc. apply H; [now left | exact Hc].
      * intros p c Hp Hc. apply H; [now right | exact Hc].
Qed.

Lemma sorted_names_str (f : failures) :
  Forall (fun e => is_Some (as_str (fst e))) f -> exists sf, sorted_names f = Ok sf.
Proof.
  intros Hall. unfold sorted_names.
  destruct f as [|e1 [|e2 f]]; [eauto | eauto |].
  assert (Hb : forallb (fun e => bool_decide (is_Some (as_str (fst e)))) (e1 :: e2 :: f)
               = true).
  { apply forallb_forall. intros e He. apply bool_decide_eq_true.
    rewrite Forall_forall in Hall. apply Hall. now apply list_elem_of_In. }
  rewrite Hb. eauto.
Qed.

(** The aggregation, on policies with a string name on which every
    check returns a verdict: every check is run on every policy, and
    [_check_policies] raises [SystemExit(1)] if some check returned
    [False] on some policy, and returns otherwise, with nothing logged. *)
Lemma check_policies_verdicts (policies : list value) :
  Forall (fun pol => (forall c, In c policy_checks -> exists b, chk c pol = Ok b) /\
                     exists name, getitem pol "name" = Ok (VStr name)) policies ->
  ((forall pol c, In pol policies -> In c policy_checks -> chk c pol = Ok true) ->
   _check_policies policies = ([], Ok tt)) /\
  (~ (forall pol c, In pol policies -> In c policy_checks -> chk c pol = Ok true) ->
   snd (_check_policies policies) = Raise (SystemExit 1)).
Proof.
  intros Hall. unfold _check_policies, _check_policies_with, collect_failures.
  destruct (collect_failures_verdicts policy_checks policies Hall [])
    as (f & -> & Hf & He); [constructor|].
  split.
  - intros Hpass. assert (f = []) as -> by (apply He; auto). reflexivity.
  - intros Hfail. destruct f as [|e f]; [exfalso; apply Hfail; now apply He|].
    cbn [length Nat.ltb Nat.leb].
    destruct (sorted_names_str (e :: f) Hf) as [sf ->]. reflexivity.
Qed.

Example check_policies_untagged : _check_policies [untagged_ec2] = ([], Ok tt).
Proof.
  apply (check_policies_verdicts [untagged_ec2]).
  - repeat constructor.
    + intros c [<- | [<- | [<- | []]]]; eexists; reflexivity.
    + eexists; reflexivity.
  - intros pol c [<- | []] [<- | [<- | [<- | []]]]; reflexivity.
Qed.

(** C5 at the policy [mark_no_tag]: no check returns [False] on it, yet
    [_check_policies] neither returns nor raises [SystemExit]: the first
    check raises [KeyError] on the action's missing [tag], which leaves
    both loops before the remaining checks run, and nothing is logged. *)
Theorem check_policies_mark_no_tag :
  _check_policies [mark_no_tag] = ([], Raise (KeyError "tag")) /\
  _check_policy_mark_for_op_bad_message mark_no_tag = Ok true /\
  _check_policy_marked_for_op_first mark_no_tag = Ok true.
Proof. repeat split. Qed.

(** ** [_array_merge]: when it raises *)

Lemma get_type (d : dict) : get (VDict d) "type" VNone = Ok (type_of d).
Proof. unfold get, type_of. now destruct (dict_get "type" d). Qed.

Lemma same_type_twice_cons_other (v : value) (b : list value) :
  is_dict v = false -> same_type_twice (v :: b) <-> same_type_twice b.
Proof.
  intros Hv. split.
  - intros (l1 & d1 & l2 & d2 & l3 & Heq & Hpy).
    destruct l1 as [|x l1]; cbn in Heq; simplify_eq.
    exists l1, d1, l2, d2, l3. auto.
  - intros (l1 & d1 & l2 & d2 & l3 & -> & Hpy).
    exists (v :: l1), d1, l2, d2, l3. auto.
Qed.

Lemma same_type_twice_cons_dict (d : dict) (b : list value) :
  same_type_twice (VDict d :: b) <->
  (exists d2, In (VDict d2) b /\ py_eq (type_of d2) (type_of d) = true) \/
  same_type_twice b.
Proof.
  split.
  - intros (l1 & d1 & l2 & d2 & l3 & Heq & Hpy).
    destruct l1 as [|x l1]; cbn in Heq; simplify_eq.
    + left. exists d2. split; [|exact Hpy].
      apply in_or_app. right. now left.
    + right. exists l1, d1, l2, d2, l3. auto.
  - intros [(d2 & Hin & Hpy) | (l1 & d1 & l2 & d2 & l3 & -> & Hpy)].
    + apply in_split in Hin as (l2 & l3 & ->).
      exists [], d, l2, d2, l3. auto.
    + exists (VDict d :: l1), d1, l2, d2, l3. auto.
Qed.


Lemma find_default_other (update : list value) (dd : defs) (v : value) :
  is_dict v = false ->
  exists update', find_default (update, dd) v = Ok (update', dd).
Proof.
  intros Hv. destruct v; try discriminate; cbn;
    destruct (negb _); eauto.
Qed.

Lemma find_default_dict (update : list value) (dd : defs) (d : dict) :
  hashable (type_of d) = true ->
  find_default (update, dd) (VDict d) =
    if py_eq (type_of d) VNone then Raise (RuntimeError no_type_msg)
    else if existsb (fun e => py_eq (type_of d) (fst e)) dd
         then Raise (RuntimeError same_type_msg)
         else Ok (update, dd ++ [(type_of d, d)]).
Proof.
  intros Hh. cbn [find_default]. rewrite get_type. cbn.
  unfold defs_has. rewrite Hh. cbn.
  destruct (type_of d); cbn; try reflexivity;
    destruct (existsb _ dd); reflexivity.
Qed.

Lemma py_eq_VNone_r (v : value) : py_eq v VNone = true <-> v = VNone.
Proof. destruct v; cbn; split; congruence. Qed.

Lemma find_defaults_raises_iff (b update : list value) (dd : defs) :
  types_hashable b = true ->
  raises (foldM find_default b (update, dd)) <->
  (exists d, In (VDict d) b /\ type_of d = VNone) \/
  (exists d, In (VDict d) b /\ existsb (fun e => py_eq (type_of d) (fst e)) dd = true) \/
  same_type_twice b.
Proof.
  revert update dd. induction b as [|v b IH]; intros update dd Hh.
  - cbn. split.
    + intros H. now apply not_raises_Ok in H.
    + intros [(d & [] & _) | [(d & [] & _) | (l1 & d1 & l2 & d2 & l3 & Heq & _)]].
      now destruct l1.
  - cbn in Hh. apply andb_true_iff in Hh as [Hv Hb].
    cbn [foldM]. destruct (is_dict v) eqn:Hd.
    + destruct v as [| | | | |d]; try discriminate.
      rewrite find_default_dict by exact Hv.
      rewrite same_type_twice_cons_dict.
      destruct (py_eq (type_of d) VNone) eqn:Hn.
      { apply py_eq_VNone_r in Hn. split; [intros _ | intros _; apply raises_Raise].
        left. exists d. split; [now left | exact Hn]. }
      destruct (existsb (fun e => py_eq (type_of d) (fst e)) dd) eqn:Hdup.
      { split; [intros _ | intros _; apply raises_Raise].
        right; left. exists d. split; [now left | exact Hdup]. }
      cbn. rewrite IH by exact Hb. split.
      * intros [(d' & Hin & Hn') | [(d' & Hin & Hc) | Hs]].
        -- left. exists d'. split; [now right | exact Hn'].
        -- rewrite existsb_app in Hc. cbn in Hc. rewrite orb_false_r in Hc.
           apply orb_true_iff in Hc as [Hc | Hc].
           ++ right; left. exists d'. split; [now right | exact Hc].
           ++ right; right; left. exists d'. split; [exact Hin | exact Hc].
        -- right; right; right. exact Hs.
      * intros [(d' & [Hd' | Hin] & Hn') | [(d' & [Hd' | Hin] & Hc) | [(d' & Hin & Hc) | Hs]]].
        -- simplify_eq. rewrite Hn' in Hn. discriminate.
        -- left. exists d'. auto.
        -- simplify_eq. congruence.
        -- right; left. exists d'. split; [exact Hin|].
           rewrite existsb_app, Hc. reflexivity.
        -- right; left. exists d'. split; [exact Hin|].
           rewrite existsb_app. cbn. rewrite Hc. apply orb_true_r.
        -- right; right. exact Hs.
    + destruct (find_default_other update dd v Hd) as (update' & ->). cbn.
      rewrite IH by exact Hb.
      rewrite same_type_twice_cons_other by exact Hd. split.
      * intros [(d & Hin & Hn) | [(d & Hin & Hc) | Hs]].
        -- left. exists d. split; [now right | exact Hn].
        -- right; left. exists d. split; [now right | exact Hc].
        -- right; right. exact Hs.
      * intros [(d & [Hd' | Hin] & Hn) | [(d & [Hd' | Hin] & Hc) | Hs]];
          try (subst v; discriminate); eauto.
Qed.

Lemma defs_get_has (t : value) (dd : defs) :
  existsb (fun e => py_eq t (fst e)) dd = true -> is_Some (defs_get t dd).
Proof.
  induction dd as [|[t' d] dd IH]; cbn; [discriminate|].
  destruct (py_eq t t'); cbn; eauto.
Qed.

Lemma do_update_dict (e : dict) (dd : defs) :
  hashable (type_of e) = true ->
  do_update (VDict e) dd =
    if py_eq (type_of e) VNone then Ok (VDict e, dd)
    else if existsb (fun x => py_eq (type_of e) (fst x)) dd then
      match defs_get (type_of e) dd with
      | Some d => Ok (VDict (fill_missing e d), defs_del (type_of e) dd)
      | None => Raise (KeyError (py_str (type_of e)))
      end
    else Ok (VDict e, dd).
Proof.
  intros Hh. cbn [do_update]. rewrite get_type. cbn.
  unfold defs_has. rewrite Hh. cbn.
  destruct (type_of e); cbn; try reflexivity;
    destruct (existsb _ dd); reflexivity.
Qed.

Lemma do_update_ok (i : value) (dd : defs) :
  types_hashable [i] = true -> exists r, do_update i dd = Ok r.
Proof.
  cbn. rewrite andb_true_r. intros Hh.
  destruct i as [| | | | |e]; [cbn; eauto ..|].
  rewrite do_update_dict by exact Hh.
  destruct (py_eq (type_of e) VNone); eauto.
  destruct (existsb _ dd) eqn:Hex; eauto.
  destruct (defs_get_has _ _ Hex) as [d0 ->]; eauto.
Qed.

Lemma do_updates_ok (update : list value) (dd : defs) :
  types_hashable update = true -> exists r, do_updates update dd = Ok r.
Proof.
  revert dd. induction update as [|i update IH]; intros dd Hh; cbn; eauto.
  cbn in Hh. apply andb_true_iff in Hh as [Hi Hu].
  destruct (do_update_ok i dd) as ([i' dd'] & ->); [cbn; now rewrite Hi|]. cbn.
  destruct (IH dd' Hu) as ([rest' dd''] & ->). cbn. eauto.
Qed.

Lemma find_defaults_hashable (b update update' : list value) (dd dd' : defs) :
  foldM find_default b (update, dd) = Ok (update', dd') ->
  types_hashable update = true -> types_hashable update' = true.
Proof.
  revert update dd. induction b as [|v b IH]; intros update dd; cbn [foldM].
  - now intros [= <- <-].
  - intros H Hh. inv_bind H. destruct a as [u1 dd1].
    eapply IH; [exact H|].
    destruct v as [| | | | |d]; cbn [find_default] in Ha.
    1-5: destruct (negb _); simplify_eq; try exact Hh;
         unfold types_hashable; rewrite forallb_app; cbn;
         now rewrite andb_true_r.
    rewrite get_type in Ha. cbn in Ha.
    destruct (type_of d); try discriminate;
      inv_bind Ha; destruct a; simplify_eq; exact Hh.
Qed.

(** C8 (as the code has it), with every ["type"] a scalar: [_array_merge]
    raises exactly when [base] is not a list, or some dictionary of [base]
    has no ["type"] or has the type [None], or two dictionaries of [base]
    have the same type; otherwise it returns. *)
Theorem array_merge_raises_iff (base : value) (update : list value)
    (policy_name : value) (path : list string) :
  (forall b, base = VList b -> types_hashable b = true) ->
  types_hashable update = true ->
  raises (_array_merge base update policy_name path) <->
  is_list base = false \/
  exists b, base = VList b /\
    ((exists d, In (VDict d) b /\ type_of d = VNone) \/ same_type_twice b).
Proof.
  intros Hb Hu. destruct base as [| | | |b|d].
  1-4,6: split; [intros _; now left | intros _; apply raises_Raise].
  specialize (Hb b eq_refl). cbn [_array_merge is_list].
  pose proof (find_defaults_raises_iff b update [] Hb) as Hiff.
  destruct (foldM find_default b (update, [])) as [[update' dd]|e] eqn:Hfold.
  - cbn. destruct (do_updates_ok update' dd) as ([update'' dd'] & ->).
    { eapply find_defaults_hashable; eauto. }
    cbn. split.
    + intros H. now apply not_raises_Ok in H.
    + intros [? | (b' & [= <-] & Hbad)]; [discriminate|].
      exfalso. eapply (@not_raises_Ok (list value * defs)). apply Hiff.
      destruct Hbad as [Hn | Hs]; [left; exact Hn | right; right; exact Hs].
  - cbn. split; [intros _ | intros _; apply raises_Raise].
    right. exists b. split; [reflexivity|].
    destruct (proj1 Hiff (raises_Raise e)) as [Hn | [(d & _ & Hc) | Hs]]; auto.
    discriminate.
Qed.

Lemma array_merge_raises_iff_witness :
  raises (_array_merge
            (VList [VDict [("type", VStr "notify")]; VStr "x";
                    VDict [("type", VStr "notify"); ("to", VList [])]])
            [VDict [("type", VStr "webhook")]] (VStr "p") ["actions"]) <->
  is_list (VList [VDict [("type", VStr "notify")]; VStr "x";
                  VDict [("type", VStr "notify"); ("to", VList [])]]) = false \/
  exists b,
    VList [VDict [("type", VStr "notify")]; VStr "x";
           VDict [("type", VStr "notify"); ("to", VList [])]] = VList b /\
    ((exists d, In (VDict d) b /\ type_of d = VNone) \/ same_type_twice b).
Proof.
  apply array_merge_raises_iff.
  - intros b Hb. injection Hb as <-. reflexivity.
  - reflexivity.
Defined.

(** C8, as stated, fails: the only dictionary of this [base] has a
    ["type"] field, whose value is [None], and [_array_merge] raises. *)
Lemma array_merge_null_type_counterexample :
  let b := [VDict [("type", VNone); ("key", VStr "State")]] in
  is_list (VList b) = true /\
  (forall d, In (VDict d) b -> dict_has "type" d = true) /\
  length b = 1%nat /\
  _array_merge (VList b) [] (VStr "p") ["filters"]
    = Raise (RuntimeError no_type_msg).
Proof.
  cbn. repeat split.
  intros d [Hd | []]. injection Hd as <-. reflexivity.
Qed.

(** A list or a dictionary as ["type"] makes [_array_merge] raise
    [TypeError], in [base] and in [update] alike. *)
Example array_merge_unhashable_type :
  _array_merge (VList []) [VDict [("type", VList [VStr "a"])]] (VStr "p") []
    = Raise TypeError /\
  _array_merge (VList [VDict [("type", VList [VStr "a"])]]) [] (VStr "p") []
    = Raise TypeError.
Proof. split; reflexivity. Qed.

(** ** [_merge_conf] *)

(** Induction on values, with the hypothesis for every element of a list
    and every value of a dictionary. *)
Lemma value_ind' (P : value -> Prop) :
  P VNone -> (forall b, P (VBool b)) -> (forall n, P (VInt n)) ->
  (forall s, P (VStr s)) ->
  (forall l, Forall P l -> P (VList l)) ->
  (forall d, Forall (fun kv => P (snd kv)) d -> P (VDict d)) ->
  forall v, P v.
Proof.
  intros HN HB HI HS HL HD.
  fix IH 1. intros [| b | n | s | l | d];
    [exact HN | apply HB | apply HI | apply HS | |].
  - apply HL. induction l as [|x l IHl]; constructor; [apply IH | exact IHl].
  - apply HD. induction d as [|[k x] d IHd]; constructor; [apply IH | exact IHd].
Qed.

Lemma merge_conf_unfold (base : value) (its : dict) (policy_name : value)
    (path : list string) :
  _merge_conf base (VDict its) policy_name path =
    ('(base, its') ← merge_items its base policy_name path;
     drop ←
       (if bool_decide (path = []) then
          inb ← has_key "actions" base;
          Ok (inb && negb (dict_has "actions" its))
        else Ok false);
     if (drop : bool) then
       base ← delitem base "actions"; Ok (base, VDict its')
     else Ok (base, VDict its')).
Proof.
  cbn [_merge_conf]. f_equal.
  revert base. induction its as [|[k v] its IH]; intros base; [reflexivity|].
  cbn [merge_items].
  destruct (merge_item _ policy_name path base k v) as [[b1 v']|e]; [|reflexivity].
  cbn. rewrite <- IH. reflexivity.
Qed.

Lemma merge_item_dict rec (policy_name : value) (path : list string)
    (b : dict) (k : string) (v r v' : value) :
  merge_item rec policy_name path (VDict b) k v = Ok (r, v') ->
  exists x, r = VDict (dict_set k x b).
Proof.
  unfold merge_item. intros H. inv_bind H. destruct a.
  - cbn in H. simplify_eq. eauto.
  - cbn in H. destruct (dict_has k b); cbn in H; [|simplify_eq; eauto].
    destruct v; cbn in H; simplify_eq; eauto.
    + destruct (dict_get k b); cbn in H; [|discriminate].
      inv_bind H. cbn in H. simplify_eq. eauto.
    + destruct (dict_get k b); cbn in H; [|discriminate].
      inv_bind H. destruct a. cbn in H. simplify_eq. eauto.
Qed.

Lemma NoDup_keys_set (k : string) (x : value) (d : dict) :
  NoDup (keys d) -> NoDup (keys (dict_set k x d)).
Proof.
  induction d as [|[k' v'] d IH]; cbn.
  - intros _. apply NoDup_singleton.
  - intros Hnd. apply NoDup_cons in Hnd as [Hnotin Hnd].
    destruct (String.eqb k k') eqn:E; cbn.
    + apply NoDup_cons. auto.
    + apply NoDup_cons. split; [|auto].
      intros Hin. apply Hnotin. clear -Hin E.
      apply eqb_false in E.
      induction d as [|[k0 v0] d IH]; cbn in *.
      * apply list_elem_of_singleton in Hin. congruence.
      * destruct (String.eqb k k0); cbn in *; [exact Hin|].
        apply elem_of_cons in Hin as [-> | Hin]; [left | right; auto].
Qed.

(** What the loop of [_merge_conf] does to a dictionary [base]: it stays a
    dictionary, keeps every key the update does not have, and has every
    key of the update. *)
Lemma merge_items_dict (its : dict) (b : dict) (policy_name : value)
    (path : list string) (r : value) (its' : dict) :
  merge_items its (VDict b) policy_name path = Ok (r, its') ->
  exists rd, r = VDict rd /\
    (forall k, ~ In k (keys its) -> dict_get k rd = dict_get k b) /\
    (forall k, In k (keys its) -> dict_has k rd = true) /\
    (NoDup (keys b) -> NoDup (keys rd)) /\
    keys its' = keys its.
Proof.
  revert b r its'. induction its as [|[k v] its IH]; intros b r its' H.
  - cbn in H. simplify_eq. exists b. repeat split; auto.
  - cbn [merge_items] in H. inv_bind H. destruct a as [b1 v'].
    inv_bind H. destruct a as [b2 rest']. cbn in H. simplify_eq.
    destruct (merge_item_dict _ _ _ _ _ _ _ _ Ha) as (x & ->).
    destruct (IH _ _ _ Ha0) as (rd & -> & Hkeep & Hhas & Hnd & Hkeys).
    exists rd. split; [reflexivity|]. repeat split.
    + intros k0 Hk0. rewrite Hkeep by (intros ?; apply Hk0; now right).
      apply dict_get_set_ne. intros ->. apply Hk0. now left.
    + intros k0 [<- | Hin]; [|auto].
      destruct (in_dec String.string_dec k (keys its)) as [Hin | Hnin]; [auto|].
      apply dict_has_get. rewrite Hkeep by exact Hnin.
      rewrite dict_get_set_eq. eauto.
    + intros Hb. apply Hnd. now apply NoDup_keys_set.
    + cbn. f_equal. exact Hkeys.
Qed.

Lemma keys_In_has (k : string) (d : dict) : In k (keys d) <-> dict_has k d = true.
Proof.
  rewrite dict_has_get. induction d as [|[k' v'] d IH]; cbn.
  - split; [intros [] | intros [v [=]]].
  - destruct (String.eqb k k') eqn:E.
    + apply eqb_true in E. subst. split; eauto.
    + apply eqb_false in E. rewrite <- IH. split; [intros [?|?]; [congruence|auto] | auto].
Qed.

(** C7: at the top level ([path = []]) the merge of an update without an
    ["actions"] key has no ["actions"] key, whatever the defaults declare;
    below the top level the base's ["actions"] stay; and an update that
    has the key, be it with an empty list, keeps it in the result. *)
Theorem merge_conf_actions (b u : dict) (policy_name r u' : value)
    (path : list string) :
  NoDup (keys b) ->
  _merge_conf (VDict b) (VDict u) policy_name path = Ok (r, u') ->
  exists rd, r = VDict rd /\
    (path = [] -> dict_has "actions" u = false -> dict_has "actions" rd = false) /\
    (path <> [] -> dict_has "actions" u = false ->
     dict_get "actions" rd = dict_get "actions" b) /\
    (dict_has "actions" u = true -> dict_has "actions" rd = true).
Proof.
  intros Hnd H. rewrite merge_conf_unfold in H.
  inv_bind H. destruct a as [r1 its'].
  destruct (merge_items_dict _ _ _ _ _ _ Ha) as (rd & -> & Hkeep & Hhas & Hnd' & _).
  specialize (Hnd' Hnd).
  case_bool_decide as Hpath.
  - subst path. cbn in H.
    destruct (dict_has "actions" u) eqn:Hu; cbn in H.
    + rewrite andb_false_r in H. simplify_eq. exists rd.
      split; [reflexivity|]. repeat split; try discriminate; try congruence.
      intros _. apply Hhas. now apply keys_In_has.
    + rewrite andb_true_r in H.
      destruct (dict_has "actions" rd) eqn:Hr; cbn in H.
      * simplify_eq. exists (dict_del "actions" rd).
        split; [reflexivity|]. repeat split; try discriminate; try congruence.
        intros _ _. apply dict_has_false. now apply dict_get_del_eq.
      * simplify_eq. exists rd. split; [reflexivity|].
        repeat split; try discriminate; congruence.
  - cbn in H. simplify_eq. exists rd. split; [reflexivity|]. repeat split.
    + congruence.
    + intros _ Hu. apply Hkeep. rewrite keys_In_has. congruence.
    + intros Hu. apply Hhas. now apply keys_In_has.
Qed.

Lemma merge_conf_actions_witness :
  let defaults := [("actions", VList [VDict [("type", VStr "tag")]])] in
  (exists rd u',
     _merge_conf (VDict defaults) (VDict [("name", VStr "p")]) (VStr "p") []
       = Ok (VDict rd, u') /\ dict_has "actions" rd = false) /\
  (exists rd u',
     _merge_conf (VDict defaults)
       (VDict [("name", VStr "p"); ("actions", VList [])]) (VStr "p") []
       = Ok (VDict rd, u') /\ dict_has "actions" rd = true).
Proof.
  cbn zeta. split.
  - destruct (merge_conf_actions
                [("actions", VList [VDict [("type", VStr "tag")]])]
                [("name", VStr "p")] (VStr "p")
                (VDict [("name", VStr "p")]) (VDict [("name", VStr "p")]) [])
      as (rd & Hr & Habs & _ & _).
    + cbn. apply NoDup_singleton.
    + reflexivity.
    + exists rd, (VDict [("name", VStr "p")]).
      split; [now rewrite <- Hr | apply Habs; reflexivity].
  - destruct (merge_conf_actions
                [("actions", VList [VDict [("type", VStr "tag")]])]
                [("name", VStr "p"); ("actions", VList [])] (VStr "p")
                (VDict [("actions", VList [VDict [("type", VStr "tag")]]);
                        ("name", VStr "p")])
                (VDict [("name", VStr "p");
                        ("actions", VList [VDict [("type", VStr "tag")]])]) [])
      as (rd & Hr & _ & _ & Hpres).
    + cbn. apply NoDup_singleton.
    + reflexivity.
    + exists rd, (VDict [("name", VStr "p");
                         ("actions", VList [VDict [("type", VStr "tag")]])]).
      split; [now rewrite <- Hr | apply Hpres; reflexivity].
Defined.

(** ** Merging a document with itself *)

Lemma dict_get_NoDup_In (k : string) (v : value) (d : dict) :
  NoDup (keys d) -> In (k, v) d -> dict_get k d = Some v.
Proof.
  induction d as [|[k' v'] d IH]; cbn; [intros _ []|].
  intros Hnd [Heq | Hin]; apply NoDup_cons in Hnd as [Hnotin Hnd].
  - simplify_eq. now rewrite eqb_refl.
  - destruct (String.eqb k k') eqn:E; [|auto].
    apply eqb_true in E; subst k'. exfalso. apply Hnotin.
    apply list_elem_of_In. apply (in_map fst) in Hin. exact Hin.
Qed.

Lemma py_eq_refl (v : value) : wf v = true -> py_eq v v = true.
Proof.
  induction v as [| b | n | s | l IH | d IH] using value_ind'; cbn; auto.
  - now destruct b.
  - intros _. apply Z.eqb_refl.
  - intros _. apply eqb_refl.
  - intros Hwf. induction IH as [|x l Hx _ IHl]; [reflexivity|].
    cbn in Hwf. apply andb_true_iff in Hwf as [Hwx Hwl].
    rewrite Hx by exact Hwx. cbn. auto.
  - intros Hwf. apply andb_true_iff in Hwf as [Hnd Hwf].
    apply bool_decide_eq_true in Hnd. rewrite Nat.eqb_refl. cbn.
    assert (Hsub : forall k v, In (k, v) d -> dict_get k d = Some v)
      by (intros; now apply dict_get_NoDup_In).
    match goal with
    | |- ?f d = true =>
        enough (Hgen : forall d',
                   (forall k v, In (k, v) d' -> dict_get k d = Some v) ->
                   Forall (fun kv => wf kv.2 = true -> py_eq kv.2 kv.2 = true) d' ->
                   forallb (fun kv => wf kv.2) d' = true -> f d' = true)
          by (apply Hgen; auto)
    end.
    clear IH Hwf Hsub. intros d' Hsub IH Hwf.
    induction IH as [|[k x] d' Hx _ IHd]; [reflexivity|].
    cbn in Hwf. apply andb_true_iff in Hwf as [Hwx Hwd].
    rewrite (Hsub k x) by now left.
    cbn in Hx. rewrite Hx by exact Hwx. cbn. apply IHd; [|exact Hwd].
    intros k' v' Hin. apply Hsub. now right.
Qed.

Lemma py_eq_refl_hashable (t : value) : hashable t = true -> py_eq t t = true.
Proof.
  destruct t as [| b | n | s | |]; cbn; try discriminate; intros _; auto.
  - now destruct b.
  - apply Z.eqb_refl.
  - apply eqb_refl.
Qed.

Lemma list_contains_In (v : value) (l : list value) :
  wf v = true -> In v l -> list_contains v l = true.
Proof.
  intros Hwf Hin. unfold list_contains. apply existsb_exists.
  exists v. split; [exact Hin | now apply py_eq_refl].
Qed.

Lemma distinct_types_sound (l : list value) :
  distinct_types l = true -> ~ same_type_twice l.
Proof.
  induction l as [|v l IH]; cbn.
  - intros _ (l1 & d1 & l2 & d2 & l3 & Heq & _). now destruct l1.
  - destruct v as [| | | | |d].
    1-5: intros H; rewrite same_type_twice_cons_other by reflexivity; auto.
    intros H. apply andb_true_iff in H as [Hne Hd].
    rewrite same_type_twice_cons_dict. intros [(d2 & Hin & Hpy) | Hs]; [|now apply IH].
    apply negb_true_iff in Hne.
    assert (existsb (fun v => match v with
                              | VDict d' => py_eq (type_of d') (type_of d)
                              | _ => false
                              end) l = true) as Hex; [|congruence].
    apply existsb_exists. exists (VDict d2). auto.
Qed.

Lemma find_defaults_same (b update u' : list value) (dd dd' : defs) :
  foldM find_default b (update, dd) = Ok (u', dd') ->
  (forall v, In v b -> is_dict v = false -> list_contains v update = true) ->
  u' = update /\ dd' = dd ++ base_defs b.
Proof.
  revert dd. induction b as [|v b IH]; intros dd H Hin.
  - cbn in H. simplify_eq. now rewrite app_nil_r.
  - cbn [foldM] in H. inv_bind H. destruct a as [u1 dd1].
    assert (u1 = update /\ dd1 = dd ++ base_defs [v]) as [-> ->].
    { destruct v as [| | | | |d]; cbn [find_default] in Ha.
      1-5: rewrite Hin in Ha by (auto; now left); cbn in Ha; simplify_eq;
           split; [reflexivity | cbn; now rewrite app_nil_r].
      rewrite get_type in Ha. cbn in Ha. cbn [base_defs].
      destruct (type_of d); try discriminate;
        inv_bind Ha; destruct a; simplify_eq; auto. }
    destruct (IH _ H) as [-> ->]; [intros; apply Hin; auto; now right|].
    split; [reflexivity|]. rewrite <- app_assoc.
    destruct v; reflexivity.
Qed.

Lemma fill_missing_self (e d : dict) :
  (forall kv, In kv d -> dict_has (fst kv) e = true) -> fill_missing e d = e.
Proof.
  unfold fill_missing. induction d as [|kv d IH]; intros H; [reflexivity|].
  cbn. rewrite H by now left. cbn. apply IH. intros; apply H; now right.
Qed.

Lemma dict_has_In (kv : string * value) (e : dict) :
  In kv e -> dict_has (fst kv) e = true.
Proof. intros H. apply keys_In_has. now apply in_map. Qed.

Lemma do_updates_self (b : list value) :
  forallb (fun v => match v with
                    | VDict d => hashable (type_of d) && negb (py_eq (type_of d) VNone)
                    | _ => true
                    end) b = true ->
  do_updates b (base_defs b) = Ok (b, []).
Proof.
  induction b as [|v b IH]; [reflexivity|].
  cbn [forallb]. intros H. apply andb_true_iff in H as [Hv Hb].
  cbn [do_updates]. destruct v as [| | | | |e].
  1-5: cbn; rewrite IH by exact Hb; reflexivity.
  apply andb_true_iff in Hv as [Hh Hn]. apply negb_true_iff in Hn.
  rewrite do_update_dict by exact Hh. rewrite Hn. cbn.
  rewrite py_eq_refl_hashable by exact Hh. cbn.
  rewrite fill_missing_self by (intros kv; apply dict_has_In).
  rewrite IH by exact Hb. reflexivity.
Qed.

Lemma array_ok_hashable (l : list value) :
  array_ok l = true -> types_hashable l = true.
Proof.
  unfold array_ok, types_hashable. intros H. apply andb_true_iff in H as [H _].
  rewrite forallb_forall in *. intros v Hv. specialize (H v Hv).
  destruct v; auto. now apply andb_true_iff in H as [H _].
Qed.

(** An [array_ok] list merged with itself is itself. *)
Lemma array_merge_self (l : list value) (policy_name : value) (path : list string) :
  wf (VList l) = true -> array_ok l = true ->
  _array_merge (VList l) l policy_name path = Ok l.
Proof.
  intros Hwf Hok. cbn [_array_merge].
  pose proof (array_ok_hashable l Hok) as Hh.
  pose proof (find_defaults_raises_iff l l [] Hh) as Hiff.
  unfold array_ok in Hok. apply andb_true_iff in Hok as [Hty Hdis].
  destruct (foldM find_default l (l, [])) as [[u' dd']|e] eqn:Hfold.
  - destruct (find_defaults_same _ _ _ _ _ Hfold) as [-> ->].
    { intros v Hin _. apply list_contains_In; [|exact Hin].
      cbn in Hwf. rewrite forallb_forall in Hwf. auto. }
    cbn. rewrite do_updates_self by exact Hty. reflexivity.
  - exfalso. destruct (proj1 Hiff (raises_Raise e)) as [(d & Hin & Hn) | [(d & _ & Hc) | Hs]].
    + rewrite forallb_forall in Hty. specialize (Hty _ Hin). cbn in Hty.
      rewrite Hn in Hty. discriminate.
    + discriminate.
    + now apply distinct_types_sound in Hs.
Qed.

Lemma path_snoc_mode (path : list string) (k : string) :
  path ++ [k] = ["mode"] <-> path = [] /\ k = "mode".
Proof.
  split; [|intros [-> ->]; reflexivity].
  destruct path as [|x [|y path]]; cbn; intros H; simplify_eq; auto.
Qed.

Lemma merge_item_self (rec : value -> list string -> result (value * value))
    (policy_name : value) (path : list string) (p : dict) (k : string) (v : value) :
  dict_get k p = Some v ->
  wf v = true -> arrays_ok v = true ->
  (path = [] -> k = "mode" -> is_dict v = true) ->
  (is_dict v = true -> rec v (path ++ [k]) = Ok (v, v)) ->
  merge_item rec policy_name path (VDict p) k v = Ok (VDict p, v).
Proof.
  intros Hget Hwf Hok Hmode Hrec. unfold merge_item.
  assert (Hset : setitem (VDict p) k v = Ok (VDict p))
    by (cbn; now rewrite dict_set_same).
  assert (Hhas : has_key k (VDict p) = Ok true)
    by (cbn; unfold dict_has; now rewrite Hget).
  assert (Hcont :
    (present ← has_key k (VDict p);
     if negb (present : bool) then base ← setitem (VDict p) k v; Ok (base, v)
     else
       match v with
       | VList l =>
           bk ← getitem (VDict p) k;
           l' ← _array_merge bk l policy_name (path ++ [k]);
           base ← setitem (VDict p) k (VList l');
           Ok (base, VList l')
       | VDict _ =>
           bk ← getitem (VDict p) k;
           '(bk', v') ← rec bk (path ++ [k]);
           base ← setitem (VDict p) k bk';
           Ok (base, v')
       | _ => base ← setitem (VDict p) k v; Ok (base, v)
       end) = Ok (VDict p, v)).
  { rewrite Hhas. cbn [mbind result_bind negb].
    destruct v as [| | | |l|d]; try (rewrite Hset; reflexivity).
    - cbn [getitem]. rewrite Hget. cbn [mbind result_bind].
      rewrite array_merge_self by assumption. cbn [mbind result_bind].
      rewrite Hset. reflexivity.
    - cbn [getitem]. rewrite Hget. cbn [mbind result_bind].
      rewrite Hrec by reflexivity. cbn [mbind result_bind].
      rewrite Hset. reflexivity. }
  case_bool_decide as Hp.
  - apply path_snoc_mode in Hp as [-> ->].
    specialize (Hmode eq_refl eq_refl).
    destruct v as [| | | | |d]; try discriminate.
    cbn [get]. destruct (dict_get "type" d) as [t|]; cbn [mbind result_bind].
    + destruct (py_eq t (VStr "periodic")); cbn [negb].
      * exact Hcont.
      * rewrite Hset. reflexivity.
    + cbn. exact Hcont.
  - cbn [mbind result_bind]. exact Hcont.
Qed.

Lemma merge_conf_self_path (v : value) :
  forall (policy_name : value) (path : list string),
    wf v = true -> arrays_ok v = true -> is_dict v = true ->
    (path = [] -> forall d m, v = VDict d -> dict_get "mode" d = Some m ->
                  is_dict m = true) ->
    _merge_conf v v policy_name path = Ok (v, v).
Proof.
  induction v as [| b | n | s | l IH | p IH] using value_ind';
    intros policy_name path Hwf Hok Hd Hmode; try discriminate.
  rewrite merge_conf_unfold.
  assert (Hitems : forall its,
             (forall k x, In (k, x) its -> dict_get k p = Some x) ->
             merge_items its (VDict p) policy_name path = Ok (VDict p, its)).
  { cbn in Hwf, Hok. apply andb_true_iff in Hwf as [Hnd Hwf].
    rewrite forallb_forall in Hwf, Hok. rewrite Forall_forall in IH.
    induction its as [|[k x] its IHits]; intros Hsub; [reflexivity|].
    cbn [merge_items].
    assert (Hin : In (k, x) p) by (apply dict_get_In, Hsub; now left).
    rewrite merge_item_self.
    - cbn. rewrite IHits; [reflexivity|]. intros; apply Hsub; now right.
    - apply Hsub. now left.
    - apply (Hwf _ Hin).
    - apply (Hok _ Hin).
    - intros -> ->. apply (Hmode eq_refl p x eq_refl). apply Hsub. now left.
    - intros Hdx. apply (IH (k, x)).
      + now apply list_elem_of_In.
      + apply (Hwf _ Hin).
      + apply (Hok _ Hin).
      + exact Hdx.
      + intros Hp. now destruct path. }
  rewrite Hitems.
  - cbn [mbind result_bind]. case_bool_decide; cbn.
    + destruct (dict_has "actions" p); reflexivity.
    + reflexivity.
  - cbn in Hwf. apply andb_true_iff in Hwf as [Hnd _].
    apply bool_decide_eq_true in Hnd.
    intros k x. now apply dict_get_NoDup_In.
Qed.

(** C4 (as the code has it): a policy whose arrays are [array_ok] and
    whose ["mode"], if any, is a dictionary, merged with itself, gives
    itself, and the update is left as it was. *)
Theorem merge_conf_self (p : dict) (policy_name : value) :
  wf (VDict p) = true ->
  arrays_ok (VDict p) = true ->
  (forall m, dict_get "mode" p = Some m -> is_dict m = true) ->
  _merge_conf (VDict p) (VDict p) policy_name [] = Ok (VDict p, VDict p).
Proof.
  intros Hwf Hok Hmode. apply merge_conf_self_path; auto.
  intros _ d m [= <-]. apply Hmode.
Qed.

Lemma merge_conf_self_witness :
  let p := [ ("name", VStr "ec2-stop");
             ("mode", VDict [("type", VStr "cloudtrail"); ("events", VList [VStr "RunInstances"])]);
             ("filters", VList [VDict [("type", VStr "value"); ("key", VStr "State")];
                                VStr "stopped"]);
             ("actions", VList [VStr "stop"; VDict [("type", VStr "notify")]]) ] in
  _merge_conf (VDict p) (VDict p) (VStr "ec2-stop") [] = Ok (VDict p, VDict p).
Proof.
  cbn zeta. apply merge_conf_self.
  - vm_compute. reflexivity.
  - reflexivity.
  - intros m Hm. cbn in Hm. injection Hm as <-. reflexivity.
Defined.

(** C4, as stated, fails: the tag filter of [untagged_ec2] has no
    ["type"], so merging the policy with itself raises. *)
Lemma merge_conf_self_counterexample :
  _merge_conf untagged_ec2 untagged_ec2 (VStr "ec2-untagged") []
    = Raise (RuntimeError no_type_msg).
Proof. reflexivity. Qed.

(** ** [_add_always_notify] *)

Lemma dict_set_set (k : string) (v w : value) (d : dict) :
  dict_set k v (dict_set k w d) = dict_set k v d.
Proof.
  induction d as [|[k' x] d IH]; cbn.
  - now rewrite eqb_refl.
  - destruct (String.eqb k k') eqn:E; cbn; rewrite E; [reflexivity | now rewrite IH].
Qed.












(** ** [_apply_defaults] *)

Lemma merge_item_scalar rec (policy_name : value) (path : list string)
    (base : value) (k : string) (v r v' : value) :
  merge_item rec policy_name path base k v = Ok (r, v') ->
  is_dict v = false -> is_list v = false ->
  v' = v /\ r = VDict (match base with VDict b => dict_set k v b | _ => [] end)
         /\ is_dict base = true.
Proof.
  unfold merge_item. intros H Hd Hl. inv_bind H.
  assert (Hset : forall r v', (base0 ← setitem base k v; Ok (base0, v)) = Ok (r, v') ->
            v' = v /\ r = VDict (match base with VDict b => dict_set k v b | _ => [] end)
            /\ is_dict base = true).
  { intros r0 v0 H0. destruct base; cbn in H0; try discriminate. simplify_eq. auto. }
  destruct a; [now apply Hset|].
  inv_bind H. destruct (negb a); [now apply Hset|].
  destruct v; try discriminate; now apply Hset.
Qed.

Lemma merge_items_update (its : dict) (base policy_name r : value)
    (path : list string) (its' : dict) :
  merge_items its base policy_name path = Ok (r, its') ->
  forall k v, dict_get k its = Some v -> is_dict v = false -> is_list v = false ->
              dict_get k its' = Some v.
Proof.
  revert base its'. induction its as [|[k0 v0] its IH]; intros base its' H k v Hget Hd Hl.
  - discriminate.
  - cbn [merge_items] in H. inv_bind H. destruct a as [b1 v0'].
    inv_bind H. destruct a as [b2 rest']. cbn in H. simplify_eq.
    cbn in Hget |- *. destruct (String.eqb k k0).
    + simplify_eq. f_equal. eapply merge_item_scalar; eauto.
    + eapply IH; eauto.
Qed.

(** A scalar of the update is what the merge leaves under its key. *)
Lemma merge_items_scalar (its : dict) (b : dict) (policy_name : value)
    (path : list string) (rd its' : dict) (k : string) (v : value) :
  merge_items its (VDict b) policy_name path = Ok (VDict rd, its') ->
  NoDup (keys its) ->
  dict_get k its = Some v -> is_dict v = false -> is_list v = false ->
  dict_get k rd = Some v.
Proof.
  revert b its'. induction its as [|[k0 v0] its IH]; intros b its' H Hnd Hget Hd Hl.
  - discriminate.
  - cbn [merge_items] in H. inv_bind H. destruct a as [b1 v0'].
    inv_bind H. destruct a as [b2 rest']. cbn in H. simplify_eq.
    cbn in Hnd. apply NoDup_cons in Hnd as [Hnotin Hnd].
    destruct (merge_item_dict _ _ _ _ _ _ _ _ Ha) as (x & ->).
    cbn in Hget. destruct (String.eqb k k0) eqn:E.
    + apply eqb_true in E. simplify_eq.
      destruct (merge_item_scalar _ _ _ _ _ _ _ _ Ha Hd Hl) as (_ & Hr & _).
      injection Hr as Hr.
      destruct (merge_items_dict _ _ _ _ _ _ Ha0) as (rd' & Heq & Hkeep & _).
      injection Heq as <-. rewrite Hkeep.
      * rewrite Hr. apply dict_get_set_eq.
      * intros Hin. apply Hnotin. now apply list_elem_of_In.
    + eapply IH; eauto.
Qed.

Lemma merge_items_base_dict (its : dict) (base policy_name r : value)
    (path : list string) (its' : dict) :
  merge_items its base policy_name path = Ok (r, its') ->
  its <> [] -> is_dict base = true.
Proof.
  destruct its as [|[k v] its]; [congruence|]. intros H _.
  cbn [merge_items] in H. inv_bind H. destruct a as [b1 v'].
  unfold merge_item in Ha. inv_bind Ha.
  assert (Hset : forall x v1 (r : value * value),
            (base0 ← setitem base k x; Ok (base0, v1)) = Ok r -> is_dict base = true).
  { intros x v1 r0 H0. now destruct base. }
  destruct a; [eauto|]. inv_bind Ha. destruct (negb a); [eauto|].
  destruct v; eauto.
  - inv_bind Ha. inv_bind Ha. eauto.
  - inv_bind Ha. inv_bind Ha. destruct a1. eauto.
Qed.

Lemma add_always_notify_keeps (config : CaisConfig) (c : dict) (r : value) (k : string) :
  _add_always_notify config (VDict c) = Ok r -> k <> "actions" ->
  getitem r k = getitem (VDict c) k.
Proof.
  unfold _add_always_notify. intros H Hk.
  destruct (always_notify config) as [desired|]; [|now simplify_eq].
  inv_bind H. inv_bind H.
  destruct a0; try (inv_bind H; inv_bind H; now simplify_eq).
  inv_bind H.
  destruct a0; cbn in H; simplify_eq; cbn;
    rewrite dict_get_set_ne by congruence; reflexivity.
Qed.

Lemma dict_get_update (d e : dict) (k : string) :
  NoDup (keys e) ->
  dict_get k (dict_update d e)
    = match dict_get k e with Some v => Some v | None => dict_get k d end.
Proof.
  unfold dict_update. revert d. induction e as [|[k0 v0] e IH]; intros d Hnd; cbn.
  - reflexivity.
  - apply NoDup_cons in Hnd as [Hnotin Hnd]. rewrite IH by exact Hnd.
    destruct (String.eqb k k0) eqn:E.
    + apply eqb_true in E. subst k0.
      assert (dict_get k e = None) as ->.
      { apply dict_has_false. destruct (dict_has k e) eqn:Hh; [|reflexivity].
        exfalso. apply Hnotin. apply list_elem_of_In. now apply keys_In_has. }
      apply dict_get_set_eq.
    + apply eqb_false in E. destruct (dict_get k e); [reflexivity|].
      apply dict_get_set_ne. congruence.
Qed.

Lemma apply_defaults_unfold (config : CaisConfig) (defaults : value) (p conf m : dict)
    (policy' ty : value) (n : string) :
  dict_get "name" p = Some (VStr n) ->
  _merge_conf defaults (VDict p) (VStr n) [] = Ok (VDict conf, policy') ->
  dict_get "mode" conf = Some (VDict m) ->
  dict_get "type" m = Some ty ->
  _apply_defaults config defaults (VDict p) =
    (mode ←
       (if py_eq ty (VStr "periodic") && negb (dict_has "tags" m)
        then Ok (VDict (dict_set "tags" (VDict []) m)) else Ok (VDict m));
     has_tags ← has_key "tags" mode;
     mode ←
       (if (has_tags : bool) then
          tags ← getitem mode "tags";
          dtags ← defaults_tags defaults;
          tags ← update tags dtags;
          tags ← setitem tags "Component" (VStr n);
          setitem mode "tags" tags
        else Ok mode);
     conf ← setitem (VDict conf) "mode" mode;
     has_actions ← has_key "actions" conf;
     conf ←
       (if negb (has_actions : bool) then setitem conf "actions" (VList [])
        else Ok conf);
     _add_always_notify config conf).
Proof.
  intros Hname Hmerge Hmode Hty. unfold _apply_defaults.
  cbn [getitem]. rewrite Hname. cbn [mbind result_bind].
  rewrite Hmerge. cbn [mbind result_bind getitem].
  rewrite Hmode. cbn [mbind result_bind getitem].
  rewrite Hty. cbn [mbind result_bind].
  assert (Hname' : getitem policy' "name" = Ok (VStr n)).
  { rewrite merge_conf_unfold in Hmerge. inv_bind Hmerge. destruct a as [b1 its'].
    assert (policy' = VDict its') as ->.
    { inv_bind Hmerge. destruct a; [inv_bind Hmerge|]; now simplify_eq. }
    cbn. erewrite merge_items_update; eauto. }
  assert (Hmode1 :
    (if py_eq ty (VStr "periodic")
     then has_tags ← has_key "tags" (VDict m);
          if negb (has_tags : bool) then setitem (VDict m) "tags" (VDict [])
          else Ok (VDict m)
     else Ok (VDict m))
    = (if py_eq ty (VStr "periodic") && negb (dict_has "tags" m)
       then Ok (VDict (dict_set "tags" (VDict []) m)) else Ok (VDict m))).
  { destruct (py_eq ty (VStr "periodic")); [|reflexivity].
    cbn. now destruct (dict_has "tags" m). }
  rewrite Hmode1. clear Hmode1.
  destruct (if py_eq ty (VStr "periodic") && negb (dict_has "tags" m)
            then Ok (VDict (dict_set "tags" (VDict []) m)) else Ok (VDict m))
    as [mode|e]; [|reflexivity].
  cbn [mbind result_bind].
  destruct (has_key "tags" mode) as [[|]|e]; cbn [mbind result_bind]; try reflexivity.
  destruct (getitem mode "tags") as [tags|e]; cbn [mbind result_bind]; [|reflexivity].
  unfold defaults_tags.
  destruct (get defaults "mode" (VDict [])) as [dmode|e];
    cbn [mbind result_bind]; [|reflexivity].
  destruct (get dmode "tags" (VDict [])) as [dtags|e];
    cbn [mbind result_bind]; [|reflexivity].
  destruct (update tags dtags) as [tags'|e]; cbn [mbind result_bind]; [|reflexivity].
  rewrite Hname'. reflexivity.
Qed.

(** C1 (as the code has it).  Let the merge of a policy named [n] onto the
    defaults have the mode [m] of type [ty], and let the defaults' mode
    tags be the dictionary [dtags] (empty when they have none).  If
    [_apply_defaults] returns, the mode [m'] of its result is [m] itself
    when [ty] is not periodic and [m] has no tags; and when [m] has the
    tags [t0] -- periodic or not -- or is periodic without tags
    ([t0] empty), [m'] is [m] with its tags replaced by [t0] updated with
    every entry of [dtags], an entry of [dtags] overwriting that of
    [t0], and then with [Component] set to [n]. *)
Theorem apply_defaults_tags (config : CaisConfig) (defaults policy' r ty : value)
    (p conf m dtags : dict) (n : string) :
  dict_get "name" p = Some (VStr n) ->
  _merge_conf defaults (VDict p) (VStr n) [] = Ok (VDict conf, policy') ->
  dict_get "mode" conf = Some (VDict m) ->
  dict_get "type" m = Some ty ->
  defaults_tags defaults = Ok (VDict dtags) ->
  _apply_defaults config defaults (VDict p) = Ok r ->
  exists m',
    getitem r "mode" = Ok (VDict m') /\
    (py_eq ty (VStr "periodic") = false -> dict_has "tags" m = false -> m' = m) /\
    (forall t0,
       dict_get "tags" m = Some (VDict t0) \/
       (dict_get "tags" m = None /\ py_eq ty (VStr "periodic") = true /\ t0 = []) ->
       m' = dict_set "tags"
              (VDict (dict_set "Component" (VStr n) (dict_update t0 dtags))) m) /\
    (forall t0 k,
       NoDup (keys dtags) ->
       dict_get k (dict_set "Component" (VStr n) (dict_update t0 dtags))
         = if String.eqb k "Component" then Some (VStr n)
           else match dict_get k dtags with
                | Some v => Some v
                | None => dict_get k t0
                end).
Proof.
  intros Hname Hmerge Hmode Hty Hdt Hr.
  rewrite (apply_defaults_unfold _ _ _ _ _ _ _ _ Hname Hmerge Hmode Hty) in Hr.
  rewrite Hdt in Hr.
  assert (Hlook : forall t0 k,
    NoDup (keys dtags) ->
    dict_get k (dict_set "Component" (VStr n) (dict_update t0 dtags))
      = if String.eqb k "Component" then Some (VStr n)
        else match dict_get k dtags with
             | Some v => Some v
             | None => dict_get k t0
             end).
  { intros t0 k Hnd. destruct (String.eqb k "Component") eqn:E.
    - apply eqb_true in E. subst. apply dict_get_set_eq.
    - apply eqb_false in E. rewrite dict_get_set_ne by congruence.
      now apply dict_get_update. }
  assert (Hfin : forall mode conf2,
    (conf ← setitem (VDict conf) "mode" mode;
     has_actions ← has_key "actions" conf;
     conf ← (if negb (has_actions : bool) then setitem conf "actions" (VList [])
             else Ok conf);
     _add_always_notify config conf) = Ok conf2 ->
    getitem conf2 "mode" = Ok mode).
  { intros mode conf2 H. cbn [setitem mbind result_bind has_key contains] in H.
    destruct (dict_has "actions" (dict_set "mode" mode conf));
      cbn [negb setitem mbind result_bind] in H;
      rewrite (add_always_notify_keeps _ _ _ "mode" H) by discriminate; cbn.
    - now rewrite dict_get_set_eq.
    - rewrite dict_get_set_ne by discriminate. now rewrite dict_get_set_eq. }
  destruct (py_eq ty (VStr "periodic")) eqn:Hper; cbn [andb] in Hr.
  - destruct (dict_has "tags" m) eqn:Htags; cbn [negb mbind result_bind] in Hr.
    + cbn [has_key contains] in Hr. rewrite Htags in Hr.
      cbn [mbind result_bind getitem] in Hr.
      apply dict_has_get in Htags as [tv Htv]. rewrite Htv in Hr.
      cbn [mbind result_bind] in Hr.
      destruct tv as [| | | | |t0]; try discriminate.
      cbn [update setitem mbind result_bind] in Hr.
      apply Hfin in Hr. eexists. split; [exact Hr|]. split; [discriminate|].
      split; [|exact Hlook].
      intros t1 [H1 | (H1 & _)]; [|congruence]. congruence.
    + cbn [has_key contains] in Hr. unfold dict_has in Hr at 1.
      rewrite dict_get_set_eq in Hr. cbn [mbind result_bind getitem] in Hr.
      rewrite dict_get_set_eq in Hr.
      cbn [update setitem mbind result_bind] in Hr. rewrite dict_set_set in Hr.
      apply Hfin in Hr. eexists. split; [exact Hr|]. split; [discriminate|].
      split; [|exact Hlook].
      apply dict_has_false in Htags.
      intros t1 [H1 | (_ & _ & ->)]; [congruence | reflexivity].
  - cbn [mbind result_bind has_key contains] in Hr.
    destruct (dict_has "tags" m) eqn:Htags; cbn [mbind result_bind getitem] in Hr.
    + apply dict_has_get in Htags as [tv Htv]. rewrite Htv in Hr.
      cbn [mbind result_bind] in Hr.
      destruct tv as [| | | | |t0]; try discriminate.
      cbn [update setitem mbind result_bind] in Hr.
      apply Hfin in Hr. eexists. split; [exact Hr|]. split; [discriminate|].
      split; [|exact Hlook].
      intros t1 [H1 | (H1 & _)]; congruence.
    + apply Hfin in Hr. exists m. split; [exact Hr|]. split; [reflexivity|].
      split; [|exact Hlook].
      apply dict_has_false in Htags.
      intros t1 [H1 | (_ & H1 & _)]; congruence.
Qed.

Lemma apply_defaults_tags_witness :
  exists m',
    getitem (VDict [ ("mode", VDict [ ("type", VStr "cloudtrail");
                                      ("tags", VDict [ ("Env", VStr "prod");
                                                       ("Component", VStr "p1") ]) ]);
                     ("name", VStr "p1"); ("actions", VList []) ]) "mode"
      = Ok (VDict m') /\
    m' = dict_set "tags"
           (VDict (dict_set "Component" (VStr "p1")
                     (dict_update [("Env", VStr "dev")] [("Env", VStr "prod")])))
           [ ("type", VStr "cloudtrail"); ("tags", VDict [("Env", VStr "dev")]) ].
Proof.
  destruct (apply_defaults_tags plain_config tagged_defaults cloudtrail_policy
              (VDict [ ("mode", VDict [ ("type", VStr "cloudtrail");
                                        ("tags", VDict [ ("Env", VStr "prod");
                                                         ("Component", VStr "p1") ]) ]);
                       ("name", VStr "p1"); ("actions", VList []) ])
              (VStr "cloudtrail")
              [ ("name", VStr "p1");
                ("mode", VDict [ ("type", VStr "cloudtrail");
                                 ("tags", VDict [("Env", VStr "dev")]) ]) ]
              [ ("mode", VDict [ ("type", VStr "cloudtrail");
                                 ("tags", VDict [("Env", VStr "dev")]) ]);
                ("name", VStr "p1") ]
              [ ("type", VStr "cloudtrail"); ("tags", VDict [("Env", VStr "dev")]) ]
              [ ("Env", VStr "prod") ] "p1"
              eq_refl eq_refl eq_refl eq_refl eq_refl eq_refl)
    as (m' & Hm' & _ & Hset & _).
  exists m'. split; [exact Hm'|].
  apply Hset. left. reflexivity.
Defined.

(** C1, as stated, fails: the merged mode of [cloudtrail_policy] has the
    type cloudtrail, not periodic, and still its tags are adjusted:
    [Component] is set and the defaults' [Env] replaces the policy's. *)
Lemma apply_defaults_tags_counterexample :
  _merge_conf tagged_defaults cloudtrail_policy (VStr "p1") []
    = Ok (VDict [ ("mode", VDict [ ("type", VStr "cloudtrail");
                                   ("tags", VDict [("Env", VStr "dev")]) ]);
                  ("name", VStr "p1") ],
          cloudtrail_policy) /\
  _apply_defaults plain_config tagged_defaults cloudtrail_policy
    = Ok (VDict [ ("mode", VDict [ ("type", VStr "cloudtrail");
                                   ("tags", VDict [ ("Env", VStr "prod");
                                                    ("Component", VStr "p1") ]) ]);
                  ("name", VStr "p1"); ("actions", VList []) ]).
Proof. split; reflexivity. Qed.

(** ** [_generate_configs] *)

Lemma apply_defaults_name (config : CaisConfig) (defaults r : value) (p : dict)
    (n : string) :
  NoDup (keys p) ->
  dict_get "name" p = Some (VStr n) ->
  _apply_defaults config defaults (VDict p) = Ok r ->
  getitem r "name" = Ok (VStr n).
Proof.
  intros Hnd Hname H. unfold _apply_defaults in H.
  cbn [getitem] in H. rewrite Hname in H. cbn [mbind result_bind] in H.
  inv_bind H. destruct a as [conf policy'].
  assert (Hconf : exists c, conf = VDict c /\ dict_get "name" c = Some (VStr n)).
  { rewrite merge_conf_unfold in Ha. inv_bind Ha. destruct a as [b1 its'].
    pose proof (merge_items_base_dict _ _ _ _ _ _ Ha0) as Hb.
    destruct defaults as [| | | | |b]; try (discriminate Hb; now destruct p).
    destruct (merge_items_dict _ _ _ _ _ _ Ha0) as (rd & -> & _ & _ & _ & _).
    pose proof (merge_items_scalar _ _ _ _ _ _ _ _ Ha0 Hnd Hname eq_refl eq_refl) as Hn.
    inv_bind Ha. destruct a.
    - inv_bind Ha. cbn in Ha2. destruct (dict_has "actions" rd); [|discriminate].
      simplify_eq. eexists. split; [reflexivity|].
      rewrite dict_get_del_ne by discriminate. exact Hn.
    - simplify_eq. eauto. }
  destruct Hconf as (c & -> & Hc).
  inv_bind H. inv_bind H. inv_bind H. inv_bind H. inv_bind H.
  cbn [setitem] in H. inv_bind H. simplify_eq.
  inv_bind H. inv_bind H.
  assert (Ha7 : exists c', a5 = VDict c' /\ dict_get "name" c' = Some (VStr n)).
  { clear -Ha6 Hc.
    destruct (negb a4); cbn in Ha6; simplify_eq; eexists; (split; [reflexivity|]);
      rewrite ?dict_get_set_ne by discriminate; exact Hc. }
  destruct Ha7 as (c' & -> & Hc').
  rewrite (add_always_notify_keeps _ _ _ "name" H) by discriminate.
  cbn. now rewrite Hc'.
Qed.

Lemma insert_sorted_perm (x : string) (l : list string) :
  Permutation (insert_sorted x l) (x :: l).
Proof.
  induction l as [|y l IH]; cbn; [reflexivity|].
  destruct (String.leb x y); [reflexivity|].
  rewrite IH. apply perm_swap.
Qed.

Lemma sorted_perm (l : list string) : Permutation (sorted l) l.
Proof.
  induction l as [|x l IH]; cbn; [reflexivity|].
  rewrite insert_sorted_perm. now constructor.
Qed.

Lemma insert_sorted_Sorted (x : string) (l : list string) :
  Sorted (fun a b => String.leb a b = true) l ->
  Sorted (fun a b => String.leb a b = true) (insert_sorted x l).
Proof.
  induction l as [|y l IH]; cbn; intros Hs.
  - repeat constructor.
  - destruct (String.leb x y) eqn:E.
    + constructor; [exact Hs | constructor; exact E].
    + apply Sorted_inv in Hs as [Hs Hhd]. constructor; [auto|].
      assert (Hyx : String.leb y x = true)
        by (destruct (String.leb_total x y); congruence).
      destruct l as [|z l]; cbn; [constructor; exact Hyx|].
      destruct (String.leb x z); constructor; [exact Hyx|].
      now apply HdRel_inv in Hhd.
Qed.

Lemma sorted_Sorted (l : list string) :
  Sorted (fun a b => String.leb a b = true) (sorted l).
Proof.
  induction l as [|x l IH]; cbn; [constructor | now apply insert_sorted_Sorted].
Qed.

Lemma defaulted_policies (config : CaisConfig) (policies : dict) (defaults : value)
    (ks : list string) (acc pols : list value) :
  foldM (fun pols k =>
           pol ← getitem (VDict policies) k;
           conf ← _apply_defaults config defaults pol;
           Ok (pols ++ [conf])) ks acc = Ok pols ->
  exists new, pols = acc ++ new /\
    Forall2 (compiled config policies defaults) new ks.
Proof.
  revert acc. induction ks as [|k ks IH]; intros acc H.
  - cbn in H. simplify_eq. exists []. rewrite app_nil_r. split; [reflexivity | constructor].
  - cbn [foldM] in H. apply bind_Ok_inv in H as (pols1 & Hk & H).
    apply bind_Ok_inv in Hk as (pol & Hpol & Hk).
    apply bind_Ok_inv in Hk as (conf & Hconf & Hk). injection Hk as <-.
    cbn [getitem] in Hpol.
    destruct (dict_get k policies) as [p|] eqn:Hget; [|discriminate].
    injection Hpol as ->.
    destruct (IH _ H) as (new & -> & Hall).
    exists (conf :: new). rewrite <- app_assoc. split; [reflexivity|].
    constructor; [|exact Hall].
    exists pol. split; [exact Hget|]. split; [exact Hconf|].
    intros pd n -> Hnd Hname. eapply apply_defaults_name; eauto.
Qed.

Lemma cleanup_names (policies cleanup : list value) :
  _generate_cleanup_policies policies = Ok cleanup ->
  exists l c,
    cleanup = [VDict l; VDict c] /\
    NoDup (keys l) /\ dict_get "name" l = Some (VStr "c7n-cleanup-lambda") /\
    NoDup (keys c) /\ dict_get "name" c = Some (VStr "c7n-cleanup-cwe").
Proof.
  unfold _generate_cleanup_policies. intros H. inv_bind H.
  destruct a as [cwe_filters l_filters]. simplify_eq.
  eexists _, _. split; [reflexivity|]. cbn.
  repeat split; apply (bool_decide_unpack _); vm_compute; exact I.
Qed.

Lemma defaulted_cleanup_names (config : CaisConfig) (defaults : value)
    (l c : dict) (acc pols : list value) :
  NoDup (keys l) -> dict_get "name" l = Some (VStr "c7n-cleanup-lambda") ->
  NoDup (keys c) -> dict_get "name" c = Some (VStr "c7n-cleanup-cwe") ->
  foldM (fun pols pol =>
           conf ← _apply_defaults config defaults pol;
           Ok (pols ++ [conf])) [VDict l; VDict c] acc = Ok pols ->
  exists new, pols = acc ++ new /\
    Forall2 (fun pol n => getitem pol "name" = Ok (VStr n)) new
      ["c7n-cleanup-lambda"; "c7n-cleanup-cwe"].
Proof.
  intros Hl Hln Hc Hcn H. cbn [foldM] in H.
  inv_bind H. inv_bind Ha. simplify_eq.
  inv_bind H. inv_bind Ha. simplify_eq.
  eexists [_; _]. rewrite <- app_assoc. split; [reflexivity|].
  constructor; [exact (apply_defaults_name _ _ _ _ _ Hl Hln Ha0)|].
  constructor; [exact (apply_defaults_name _ _ _ _ _ Hc Hcn Ha1)|].
  constructor.
Qed.

(** C3 (as the code has it): when [_generate_configs] returns, the list
    under ["policies"] holds one policy for each key of the region's
    policies, in the ascending order of the keys: the policy under the
    key with the defaults applied, under its own name when that is a
    string; then [c7n-cleanup-lambda] and then [c7n-cleanup-cwe].  The
    order is the order of the names where the name of a policy is its
    key. *)
Theorem generate_configs_order (config : CaisConfig) (policies : dict)
    (defaults r : value) (log : list string) :
  _generate_configs config policies defaults = (log, Ok r) ->
  exists pols lcleanup cwecleanup,
    r = VDict [("policies", VList (pols ++ [lcleanup; cwecleanup]))] /\
    Forall2 (compiled config policies defaults) pols (sorted (keys policies)) /\
    getitem lcleanup "name" = Ok (VStr "c7n-cleanup-lambda") /\
    getitem cwecleanup "name" = Ok (VStr "c7n-cleanup-cwe") /\
    Sorted (fun a b => String.leb a b = true) (sorted (keys policies)) /\
    Permutation (sorted (keys policies)) (keys policies).
Proof.
  intros H. unfold _generate_configs in H.
  match type of H with
  | (match ?g with _ => _ end) = _ => destruct g as [pols|e] eqn:Hgen
  end; [|simplify_eq].
  destruct (_check_policies pols) as [log' checked].
  injection H as -> H. inv_bind H. simplify_eq.
  apply bind_Ok_inv in Hgen as (pols0 & Hpols0 & Hgen).
  apply bind_Ok_inv in Hgen as (cleanup & Hcleanup & Hgen).
  destruct (defaulted_policies _ _ _ _ _ _ Hpols0) as (new & -> & Hnew).
  destruct (cleanup_names _ _ Hcleanup) as (l & c & -> & Hl & Hln & Hc & Hcn).
  destruct (defaulted_cleanup_names _ _ _ _ _ _ Hl Hln Hc Hcn Hgen)
    as (new' & -> & Hnew').
  apply Forall2_cons_inv_r in Hnew' as (l' & new1 & Hl' & Hnew' & ->).
  apply Forall2_cons_inv_r in Hnew' as (c' & new2 & Hc' & Hnew' & ->).
  apply Forall2_nil_inv_r in Hnew' as ->.
  cbn [app] in *. exists new, l', c'. split; [reflexivity|].
  split; [exact Hnew|]. split; [exact Hl'|]. split; [exact Hc'|].
  split; [apply sorted_Sorted | apply sorted_perm].
Qed.

Lemma generate_configs_order_witness :
  exists r pols lcleanup cwecleanup,
    _generate_configs plain_config
      [("p2", periodic_policy "p2"); ("p1", periodic_policy "p1")] tagged_defaults
      = ([], Ok r) /\
    r = VDict [("policies", VList (pols ++ [lcleanup; cwecleanup]))] /\
    Forall2 (compiled plain_config
               [("p2", periodic_policy "p2"); ("p1", periodic_policy "p1")]
               tagged_defaults)
      pols ["p1"; "p2"] /\
    getitem lcleanup "name" = Ok (VStr "c7n-cleanup-lambda") /\
    getitem cwecleanup "name" = Ok (VStr "c7n-cleanup-cwe").
Proof.
  assert (Hrun : { r | _generate_configs plain_config
      [("p2", periodic_policy "p2"); ("p1", periodic_policy "p1")] tagged_defaults
      = ([], Ok r) }) by (eexists; vm_compute; reflexivity).
  destruct Hrun as [r Hr].
  destruct (generate_configs_order plain_config
              [("p2", periodic_policy "p2"); ("p1", periodic_policy "p1")]
              tagged_defaults r [] Hr)
    as (pols & l & c & Hres & Hpols & Hl & Hc & _).
  exists r, pols, l, c. repeat split; assumption.
Defined.

(** The order is that of the keys, not of the names: the reader lets a
    file [defaults.yml] hold a policy of any name, and the policy [zzz]
    under the key [defaults] comes before the policy [m]. *)
Example generate_configs_defaults_key :
  exists zzz m lcleanup cwecleanup,
    _generate_configs plain_config
      [("m", periodic_policy "m"); ("defaults", periodic_policy "zzz")] tagged_defaults
      = ([], Ok (VDict [("policies", VList [zzz; m; lcleanup; cwecleanup])])) /\
    getitem zzz "name" = Ok (VStr "zzz") /\
    getitem m "name" = Ok (VStr "m") /\
    String.leb "zzz" "m" = false.
Proof.
  eexists _, _, _, _. split; [vm_compute; reflexivity|].
  repeat split.
Qed.

(** C3, as stated, fails: the compiled list for the one policy [p1] is
    [p1], [c7n-cleanup-lambda], [c7n-cleanup-cwe], and neither
    [p1 <= c7n-cleanup-lambda] nor [c7n-cleanup-lambda <= c7n-cleanup-cwe]
    holds. *)
Lemma generate_configs_order_counterexample :
  exists p1 lcleanup cwecleanup,
    _generate_configs plain_config [("p1", periodic_policy "p1")] tagged_defaults
      = ([], Ok (VDict [("policies", VList [p1; lcleanup; cwecleanup])])) /\
    getitem p1 "name" = Ok (VStr "p1") /\
    getitem lcleanup "name" = Ok (VStr "c7n-cleanup-lambda") /\
    getitem cwecleanup "name" = Ok (VStr "c7n-cleanup-cwe") /\
    String.leb "p1" "c7n-cleanup-lambda" = false /\
    String.leb "c7n-cleanup-lambda" "c7n-cleanup-cwe" = false.
Proof.
  eexists _, _, _. split; [vm_compute; reflexivity|].
  repeat split.
Qed.

(** * The store model: what [_apply_defaults] writes *)

Module HeapFacts.
Import Heap HeapFrame.


Section Rules.

Variable n : nat.

Lemma frame_refl (s : store) : frame n s s.
Proof. intros a _. reflexivity. Qed.

Lemma frame_trans (s1 s2 s3 : store) : frame n s1 s2 -> frame n s2 s3 -> frame n s1 s3.
Proof. intros H1 H2 a Ha. rewrite H2, H1; auto. Qed.

Lemma typed_mono (t : tag) (v : hval) : mono (fun tg => typed n tg t v).
Proof.
  intros tg tg' Hpre. destruct v; cbn; auto.
  intros [Hn Hl]. split; [exact Hn|]. eapply prefix_lookup_Some; eauto.
Qed.

Lemma obj_ok_mono (d : nat) (o : obj) : mono (fun tg => obj_ok n tg d o).
Proof.
  intros tg tg' Hpre. destruct o; cbn; intros H;
    (eapply Forall_impl; [exact H|]); intros x; apply typed_mono; exact Hpre.
Qed.

Lemma mono_and (P Q : list tag -> Prop) : mono P -> mono Q -> mono (fun tg => P tg /\ Q tg).
Proof. intros HP HQ tg tg' Hpre [? ?]. split; eauto. Qed.

Lemma mono_const (P : Prop) : mono (fun _ => P).
Proof. intros tg tg' _ H. exact H. Qed.

Lemma mono_Forall {A} (R : list tag -> A -> Prop) (xs : list A) :
  (forall x, mono (fun tg => R tg x)) -> mono (fun tg => Forall (R tg) xs).
Proof.
  intros HR tg tg' Hpre H. eapply Forall_impl; [exact H|].
  intros x. apply HR. exact Hpre.
Qed.

Lemma hoare_ret {A} ex (P : list tag -> Prop) (a : A) (Q : list tag -> A -> Prop) :
  (forall tg, P tg -> Q tg a) -> hoare n ex P (mret a) Q.
Proof.
  intros HQ tg s r s' HI HP Hm. injection Hm as <- <-.
  split; [apply frame_refl|]. intros a' [= <-]. exists tg. auto.
Qed.

Lemma hoare_raise {A} ex (P : list tag -> Prop) (e : exn)
    (Q : list tag -> A -> Prop) :
  hoare n ex P (raise e) Q.
Proof.
  intros tg s r s' HI HP Hm. injection Hm as <- <-.
  split; [apply frame_refl | discriminate].
Qed.

Lemma hoare_bind {A B} ex (P : list tag -> Prop) (m : M A) (f : A -> M B)
    (Q : list tag -> A -> Prop) (R : list tag -> B -> Prop) :
  mono P ->
  hoare n ex P m Q ->
  (forall a, hoare n ex (fun tg => P tg /\ Q tg a) (f a) R) ->
  hoare n ex P (m ≫= f) R.
Proof.
  intros HmP Hm Hf tg s r s' HI HP Hrun.
  unfold mbind, M_bind in Hrun.
  destruct (m s) as [[a|e] s1] eqn:Hms.
  - destruct (Hm _ _ _ _ HI HP Hms) as [Hfr Hok].
    destruct (Hok a eq_refl) as (tg1 & Hpre1 & HI1 & HQ).
    destruct (Hf a tg1 s1 r s' HI1 (conj (HmP _ _ Hpre1 HP) HQ) Hrun) as [Hfr2 Hok2].
    split; [eapply frame_trans; eauto|].
    intros b Hb. destruct (Hok2 b Hb) as (tg2 & Hpre2 & HI2 & HR).
    exists tg2. split; [etrans; eauto | auto].
  - injection Hrun as <- <-.
    destruct (Hm _ _ _ _ HI HP Hms) as [Hfr _]. split; [exact Hfr | discriminate].
Qed.

Lemma hoare_conseq {A} ex (P P' : list tag -> Prop) (m : M A)
    (Q Q' : list tag -> A -> Prop) :
  hoare n ex P m Q ->
  (forall tg, P' tg -> P tg) ->
  (forall tg a, Q tg a -> Q' tg a) ->
  hoare n ex P' m Q'.
Proof.
  intros Hm HP HQ tg s r s' HI HP' Hrun.
  destruct (Hm _ _ _ _ HI (HP _ HP') Hrun) as [Hfr Hok].
  split; [exact Hfr|]. intros a Ha.
  destruct (Hok a Ha) as (tg' & ? & ? & ?). exists tg'. auto.
Qed.

(** What holds before and is monotone holds after. *)
Lemma hoare_keep {A} ex (P F : list tag -> Prop) (m : M A)
    (Q : list tag -> A -> Prop) :
  mono F ->
  hoare n ex P m Q ->
  hoare n ex (fun tg => P tg /\ F tg) m (fun tg a => Q tg a /\ F tg).
Proof.
  intros HF Hm tg s r s' HI [HP HFt] Hrun.
  destruct (Hm _ _ _ _ HI HP Hrun) as [Hfr Hok].
  split; [exact Hfr|]. intros a Ha.
  destruct (Hok a Ha) as (tg' & Hpre & ? & ?). exists tg'.
  split; [exact Hpre|]. split; [assumption|]. split; [assumption|]. eauto.
Qed.

Lemma hoare_frames {A} ex (P : list tag -> Prop) (m : M A)
    (Q : list tag -> A -> Prop) :
  hoare n ex P m Q -> frames n ex P m.
Proof. intros Hm tg s r s' HI HP Hrun. now destruct (Hm _ _ _ _ HI HP Hrun). Qed.

Lemma frames_bind {A B} ex (P : list tag -> Prop) (m : M A) (f : A -> M B)
    (Q : list tag -> A -> Prop) :
  mono P ->
  hoare n ex P m Q ->
  (forall a, frames n ex (fun tg => P tg /\ Q tg a) (f a)) ->
  frames n ex P (m ≫= f).
Proof.
  intros HmP Hm Hf tg s r s' HI HP Hrun.
  unfold mbind, M_bind in Hrun.
  destruct (m s) as [[a|e] s1] eqn:Hms.
  - destruct (Hm _ _ _ _ HI HP Hms) as [Hfr Hok].
    destruct (Hok a eq_refl) as (tg1 & Hpre1 & HI1 & HQ).
    eapply frame_trans; [exact Hfr|].
    eapply (Hf a tg1); eauto.
  - injection Hrun as <- <-. now destruct (Hm _ _ _ _ HI HP Hms).
Qed.

Lemma frames_conseq {A} ex (P P' : list tag -> Prop) (m : M A) :
  frames n ex P m -> (forall tg, P' tg -> P tg) -> frames n ex P' m.
Proof. intros Hm HP tg s r s' HI HP' Hrun. eapply Hm; eauto. Qed.

(** Once the merge is done the invariant may have exceptions. *)
Lemma frames_relax {A} (P : list tag -> Prop) (m : M A) :
  frames n false P m -> frames n true P m.
Proof.
  intros Hm tg s r s' (ex & _ & HI) HP Hrun.
  eapply Hm; eauto. exists ex. split; [discriminate | exact HI].
Qed.

Lemma hoare_reads {A} ex (P : list tag -> Prop) (m : M A) :
  reads m -> hoare n ex P m (fun _ _ => True).
Proof.
  intros Hm tg s r s' HI HP Hrun.
  pose proof (Hm s) as Hs. rewrite Hrun in Hs. cbn in Hs. subst s'.
  split; [apply frame_refl|]. intros a _. exists tg. auto.
Qed.

Lemma reads_ret {A} (a : A) : reads (mret a).
Proof. intros s. reflexivity. Qed.

Lemma reads_raise {A} (e : exn) : reads (@raise A e).
Proof. intros s. reflexivity. Qed.

Lemma reads_bind {A B} (m : M A) (f : A -> M B) :
  reads m -> (forall a, reads (f a)) -> reads (m ≫= f).
Proof.
  intros Hm Hf s. unfold mbind, M_bind.
  pose proof (Hm s) as Hs. destruct (m s) as [[a|e] s1]; cbn in Hs; subst s1.
  - apply Hf.
  - reflexivity.
Qed.

Lemma reads_load (a : nat) : reads (load a).
Proof. intros s. unfold load. now destruct (s !! a). Qed.

Lemma hoare_reads_bind {A B} ex (P : list tag -> Prop) (m : M A) (f : A -> M B)
    (R : list tag -> B -> Prop) :
  reads m ->
  (forall a, hoare n ex P (f a) R) ->
  hoare n ex P (m ≫= f) R.
Proof.
  intros Hm Hf tg s r s' HI HP Hrun. unfold mbind, M_bind in Hrun.
  pose proof (Hm s) as Hs. destruct (m s) as [[a|e] s1]; cbn in Hs; subst s1.
  - eapply Hf; eauto.
  - injection Hrun as <- <-. split; [apply frame_refl | discriminate].
Qed.

Lemma frames_reads_bind {A B} ex (P : list tag -> Prop) (m : M A) (f : A -> M B) :
  reads m ->
  (forall a, frames n ex P (f a)) ->
  frames n ex P (m ≫= f).
Proof.
  intros Hm Hf tg s r s' HI HP Hrun. unfold mbind, M_bind in Hrun.
  pose proof (Hm s) as Hs. destruct (m s) as [[a|e] s1]; cbn in Hs; subst s1.
  - eapply Hf; eauto.
  - injection Hrun as <- <-. apply frame_refl.
Qed.

Lemma frames_bind_reads {A B} ex (P : list tag -> Prop) (m : M A) (f : A -> M B) :
  frames n ex P m ->
  (forall a, reads (f a)) ->
  frames n ex P (m ≫= f).
Proof.
  intros Hm Hf tg s r s' HI HP Hrun. unfold mbind, M_bind in Hrun.
  destruct (m s) as [[a|e] s1] eqn:Hms.
  - pose proof (Hf a s1) as Hs. rewrite Hrun in Hs. cbn in Hs. subst s'.
    eapply Hm; eauto.
  - injection Hrun as <- <-. eapply Hm; eauto.
Qed.

Ltac solve_mono :=
  repeat first
    [ assumption
    | apply mono_and
    | apply typed_mono
    | apply mono_const
    | apply mono_Forall; intros ? ].

(** Take a read step. *)
Ltac hread lem := apply hoare_reads_bind; [apply lem|]; intros ?.

(** ** The invariant under allocation and writes *)

Lemma typed_notex b ex tg s t a :
  (b = true -> ex = []) -> Inv n ex tg s -> typed n tg t (HRef a) -> safe b t ->
  ~ In a ex.
Proof.
  intros Hb (_ & _ & _ & Hex) [_ Hl] Hs Hin.
  destruct (Hex a Hin) as (d & Hd & Hge). rewrite Hl in Hd. injection Hd as ->.
  destruct Hs as [Hs | [Hs | Hs]]; cbn in Hs; [|congruence|lia].
  rewrite (Hb Hs) in Hin. destruct Hin.
Qed.

Lemma Inv_alloc ex tg s o t :
  Inv n ex tg s -> obj_ok n tg (snd t) o ->
  Inv n ex (tg ++ [t]) (s ++ [o]) /\
  typed n (tg ++ [t]) t (HRef (length s)) /\
  frame n s (s ++ [o]).
Proof.
  intros (Hn & Hlen & Hobj & Hex) Ho.
  assert (Hpre : tg `prefix_of` tg ++ [t]) by (now exists [t]).
  split; [|split].
  - split; [rewrite length_app; lia|]. split; [rewrite !length_app; cbn; lia|]. split.
    + intros a o' t' Ha Hne Hl Ht.
      apply (obj_ok_mono (snd t') o' tg); [exact Hpre|].
      apply lookup_app_Some in Hl as [Hl | [Hge Hl]].
      * apply (Hobj a o' t'); auto.
        rewrite lookup_app_l in Ht; [exact Ht|].
        apply lookup_lt_Some in Hl. lia.
      * apply list_lookup_singleton_Some in Hl as [Ha0 <-].
        assert (a = length tg) as -> by lia.
        rewrite list_lookup_middle in Ht by reflexivity. injection Ht as <-. exact Ho.
    + intros a Hin. destruct (Hex a Hin) as (d & Hd & Hge). exists d.
      split; [eapply prefix_lookup_Some; eauto | exact Hge].
  - split; [exact Hn|]. rewrite <- Hlen. apply list_lookup_middle. reflexivity.
  - intros a Ha. apply lookup_app_l. lia.
Qed.

Lemma Inv_put ex tg s a o' t :
  Inv n ex tg s -> n <= a -> tg !! a = Some t ->
  (~ In a ex -> obj_ok n tg (snd t) o') ->
  Inv n ex tg (<[a := o']> s) /\ frame n s (<[a := o']> s).
Proof.
  intros (Hn & Hlen & Hobj & Hex) Ha Ht Ho.
  assert (Hlt : a < length s) by (apply lookup_lt_Some in Ht; lia).
  split.
  - split; [rewrite length_insert; exact Hn|].
    split; [rewrite length_insert; exact Hlen|]. split; [|exact Hex].
    intros b ob tb Hb Hne Hlb Htb.
    destruct (decide (a = b)) as [<- | Hab].
    + rewrite list_lookup_insert_eq in Hlb by exact Hlt.
      injection Hlb as <-. rewrite Ht in Htb. injection Htb as <-. auto.
    + rewrite list_lookup_insert_ne in Hlb by exact Hab. eauto.
  - intros b Hb. apply list_lookup_insert_ne. lia.
Qed.

(** A write to an object two levels or more below the root, which is
    excepted from then on. *)
Lemma Inv_put_ex ex tg s a o' d :
  Inv n ex tg s -> n <= a -> tg !! a = Some (Field, d) -> 2 <= d ->
  Inv n (a :: ex) tg (<[a := o']> s) /\ frame n s (<[a := o']> s).
Proof.
  intros (Hn & Hlen & Hobj & Hex) Ha Ht Hd. split.
  - split; [rewrite length_insert; exact Hn|].
    split; [rewrite length_insert; exact Hlen|]. split.
    + intros b ob tb Hb Hne Hlb Htb.
      assert (Hab : a <> b) by (intros ->; apply Hne; now left).
      rewrite list_lookup_insert_ne in Hlb by exact Hab.
      apply (Hobj b ob tb); auto. intros Hin. apply Hne. now right.
    + intros b [<- | Hin]; [eauto | auto].
  - intros b Hb. apply list_lookup_insert_ne. lia.
Qed.

Lemma hdict_get_typed tg t k d v :
  Forall (fun kv => typed n tg t (snd kv)) d ->
  hdict_get k d = Some v -> typed n tg t v.
Proof.
  induction d as [|[k' x] d IH]; cbn; [discriminate|]. intros Hall.
  apply Forall_cons in Hall as [Hx Hd].
  destruct (String.eqb k k'); [now intros [= <-] | auto].
Qed.

Lemma hdict_set_typed tg t k d v :
  Forall (fun kv => typed n tg t (snd kv)) d -> typed n tg t v ->
  Forall (fun kv => typed n tg t (snd kv)) (hdict_set k v d).
Proof.
  intros Hall Hv. induction d as [|[k' x] d IH]; cbn.
  - repeat constructor. exact Hv.
  - apply Forall_cons in Hall as [Hx Hd].
    destruct (String.eqb k k'); constructor; auto.
Qed.

Lemma hdict_del_typed tg t k d :
  Forall (fun kv => typed n tg t (snd kv)) d ->
  Forall (fun kv => typed n tg t (snd kv)) (hdict_del k d).
Proof.
  intros Hall. induction d as [|[k' x] d IH]; cbn; [constructor|].
  apply Forall_cons in Hall as [Hx Hd].
  destruct (String.eqb k k'); [exact Hd | constructor; auto].
Qed.

(** ** The operations *)

Ltac run_load Hrun a s :=
  unfold mbind, M_bind, load in Hrun;
  let o := fresh "o" in
  let Hl := fresh "Hl" in
  destruct (s !! a) as [o|] eqn:Hl;
  [| injection Hrun as <- <-; split; [apply frame_refl | discriminate]].

Ltac done_read b ex tg Hb HI :=
  split; [apply frame_refl|];
  let a := fresh in let H := fresh in
  intros a H; try discriminate H; exists tg;
  (split; [reflexivity|]); (split; [exists ex; split; [exact Hb | exact HI]|]);
  try (injection H as <-).

Lemma hoare_alloc b (P : list tag -> Prop) (o : obj) (t : tag) :
  (forall tg, P tg -> obj_ok n tg (snd t) o) ->
  hoare n b P (alloc o) (fun tg v => typed n tg t v).
Proof.
  intros Ho tg s r s' (ex & Hb & HI) HP Hrun. injection Hrun as <- <-.
  destruct (Inv_alloc ex tg s o t HI (Ho _ HP)) as (HI' & Ht & Hfr).
  split; [exact Hfr|]. intros a [= <-]. exists (tg ++ [t]).
  split; [now exists [t]|]. split; [exists ex; auto | exact Ht].
Qed.

Lemma hoare_getitem b (P : list tag -> Prop) (c : hval) (k : string) (t : tag) :
  safe b t ->
  (forall tg, P tg -> typed n tg t c) ->
  hoare n b P (getitem c k) (fun tg v => typed n tg (Field, S (snd t)) v).
Proof.
  intros Hs Hc tg s r s' (ex & Hb & HI) HP Hrun. specialize (Hc _ HP).
  destruct c as [| | | |a]; try (injection Hrun as <- <-; done_read b ex tg Hb HI).
  unfold getitem in Hrun. run_load Hrun a s.
  pose proof (typed_notex _ _ _ _ _ _ Hb HI Hc Hs) as Hnin.
  destruct o as [l|d]; [injection Hrun as <- <-; done_read b ex tg Hb HI|].
  destruct (hdict_get k d) as [v|] eqn:Hg; injection Hrun as <- <-;
    done_read b ex tg Hb HI.
  destruct HI as (_ & _ & Hobj & _). destruct Hc as [Hn Ht].
  eapply hdict_get_typed; [|exact Hg]. apply (Hobj a (ODict d) t); auto.
Qed.

Lemma hoare_get b (P : list tag -> Prop) (c : hval) (k : string) (dflt : hval)
    (t : tag) :
  safe b t ->
  (forall tg, P tg -> typed n tg t c /\ typed n tg (Field, S (snd t)) dflt) ->
  hoare n b P (get c k dflt) (fun tg v => typed n tg (Field, S (snd t)) v).
Proof.
  intros Hs Hc tg s r s' (ex & Hb & HI) HP Hrun. destruct (Hc _ HP) as [Htc Htd].
  destruct c as [| | | |a]; try (injection Hrun as <- <-; done_read b ex tg Hb HI).
  unfold get in Hrun. run_load Hrun a s.
  pose proof (typed_notex _ _ _ _ _ _ Hb HI Htc Hs) as Hnin.
  destruct o as [l|d]; [injection Hrun as <- <-; done_read b ex tg Hb HI|].
  destruct (hdict_get k d) as [v|] eqn:Hg; injection Hrun as <- <-;
    done_read b ex tg Hb HI; [|exact Htd].
  destruct HI as (_ & _ & Hobj & _). destruct Htc as [Hn Ht].
  eapply hdict_get_typed; [|exact Hg]. apply (Hobj a (ODict d) t); auto.
Qed.

Lemma hoare_items b (P : list tag -> Prop) (c : hval) (t : tag) :
  safe b t ->
  (forall tg, P tg -> typed n tg t c) ->
  hoare n b P (items c)
    (fun tg its => Forall (fun kv => typed n tg (Field, S (snd t)) (snd kv)) its).
Proof.
  intros Hs Hc tg s r s' (ex & Hb & HI) HP Hrun. specialize (Hc _ HP).
  destruct c as [| | | |a]; try (injection Hrun as <- <-; done_read b ex tg Hb HI).
  unfold items in Hrun. run_load Hrun a s.
  pose proof (typed_notex _ _ _ _ _ _ Hb HI Hc Hs) as Hnin.
  destruct o as [l|d]; injection Hrun as <- <-; done_read b ex tg Hb HI.
  destruct HI as (_ & _ & Hobj & _). destruct Hc as [Hn Ht].
  apply (Hobj a (ODict d) t); auto.
Qed.

Lemma hoare_iter b (P : list tag -> Prop) (c : hval) (t : tag) :
  safe b t ->
  (forall tg, P tg -> typed n tg t c) ->
  hoare n b P (iter c) (fun tg xs => Forall (typed n tg (Elem, S (snd t))) xs).
Proof.
  intros Hs Hc tg s r s' (ex & Hb & HI) HP Hrun. specialize (Hc _ HP).
  destruct c as [| | |x|a]; try (injection Hrun as <- <-; done_read b ex tg Hb HI).
  - apply Forall_forall. intros v Hv. apply list_elem_of_fmap in Hv as (? & -> & _).
    exact I.
  - unfold iter in Hrun. run_load Hrun a s.
    pose proof (typed_notex _ _ _ _ _ _ Hb HI Hc Hs) as Hnin.
    destruct o as [l|d]; injection Hrun as <- <-; done_read b ex tg Hb HI.
    + destruct HI as (_ & _ & Hobj & _). destruct Hc as [Hn Ht].
      apply (Hobj a (OList l) t); auto.
    + apply Forall_forall. intros v Hv. apply list_elem_of_fmap in Hv as (? & -> & _).
      exact I.
Qed.

Lemma hoare_setitem b (P : list tag -> Prop) (c : hval) (k : string) (v : hval)
    (t : tag) :
  (forall tg, P tg -> typed n tg t c /\ typed n tg (Field, S (snd t)) v) ->
  hoare n b P (setitem c k v) (fun _ _ => True).
Proof.
  intros Hc tg s r s' (ex & Hb & HI) HP Hrun. destruct (Hc _ HP) as [Htc Htv].
  destruct c as [| | | |a]; try (injection Hrun as <- <-; done_read b ex tg Hb HI).
  unfold setitem in Hrun. run_load Hrun a s.
  destruct o as [l|d]; [injection Hrun as <- <-; done_read b ex tg Hb HI|].
  injection Hrun as <- <-. destruct Htc as [Hn Hta].
  destruct (Inv_put ex tg s a (ODict (hdict_set k v d)) t HI Hn Hta) as [HI' Hfr].
  { intros Hne. destruct HI as (_ & _ & Hobj & _).
    apply hdict_set_typed; [|exact Htv]. apply (Hobj a (ODict d) t); auto. }
  split; [exact Hfr|]. intros [] _. exists tg.
  split; [reflexivity|]. split; [exists ex; auto | exact I].
Qed.

Lemma hoare_setitem_ex (P : list tag -> Prop) (c : hval) (k : string) (v : hval)
    (d : nat) :
  2 <= d ->
  (forall tg, P tg -> typed n tg (Field, d) c) ->
  hoare n false P (setitem c k v) (fun _ _ => True).
Proof.
  intros Hd Hc tg s r s' (ex & Hb & HI) HP Hrun. specialize (Hc _ HP).
  destruct c as [| | | |a]; try (injection Hrun as <- <-; done_read false ex tg Hb HI).
  unfold setitem in Hrun. run_load Hrun a s.
  destruct o as [l|e]; [injection Hrun as <- <-; done_read false ex tg Hb HI|].
  injection Hrun as <- <-. destruct Hc as [Hn Hta].
  destruct (Inv_put_ex ex tg s a (ODict (hdict_set k v e)) d HI Hn Hta Hd)
    as [HI' Hfr].
  split; [exact Hfr|]. intros [] _. exists tg.
  split; [reflexivity|]. split; [exists (a :: ex); split; [discriminate | exact HI'] | exact I].
Qed.

Lemma hoare_delitem b (P : list tag -> Prop) (c : hval) (k : string) (t : tag) :
  (forall tg, P tg -> typed n tg t c) ->
  hoare n b P (delitem c k) (fun _ _ => True).
Proof.
  intros Hc tg s r s' (ex & Hb & HI) HP Hrun. specialize (Hc _ HP).
  destruct c as [| | | |a]; try (injection Hrun as <- <-; done_read b ex tg Hb HI).
  unfold delitem in Hrun. run_load Hrun a s.
  destruct o as [l|d]; [injection Hrun as <- <-; done_read b ex tg Hb HI|].
  destruct (hdict_has k d); injection Hrun as <- <-; [|done_read b ex tg Hb HI].
  destruct Hc as [Hn Hta].
  destruct (Inv_put ex tg s a (ODict (hdict_del k d)) t HI Hn Hta) as [HI' Hfr].
  { intros Hne. destruct HI as (_ & _ & Hobj & _).
    apply hdict_del_typed. apply (Hobj a (ODict d) t); auto. }
  split; [exact Hfr|]. intros [] _. exists tg.
  split; [reflexivity|]. split; [exists ex; auto | exact I].
Qed.

Lemma hoare_append b (P : list tag -> Prop) (c x : hval) (t : tag) :
  (forall tg, P tg -> typed n tg t c /\ typed n tg (Elem, S (snd t)) x) ->
  hoare n b P (append c x) (fun _ _ => True).
Proof.
  intros Hc tg s r s' (ex & Hb & HI) HP Hrun. destruct (Hc _ HP) as [Htc Htx].
  destruct c as [| | | |a]; try (injection Hrun as <- <-; done_read b ex tg Hb HI).
  unfold append in Hrun. run_load Hrun a s.
  destruct o as [l|d]; [|injection Hrun as <- <-; done_read b ex tg Hb HI].
  injection Hrun as <- <-. destruct Htc as [Hn Hta].
  destruct (Inv_put ex tg s a (OList (l ++ [x])) t HI Hn Hta) as [HI' Hfr].
  { intros Hne. destruct HI as (_ & _ & Hobj & _). cbn.
    apply Forall_app. split; [apply (Hobj a (OList l) t); auto|].
    repeat constructor. exact Htx. }
  split; [exact Hfr|]. intros [] _. exists tg.
  split; [reflexivity|]. split; [exists ex; auto | exact I].
Qed.

Lemma hoare_append_ex (P : list tag -> Prop) (c x : hval) (d : nat) :
  2 <= d ->
  (forall tg, P tg -> typed n tg (Field, d) c) ->
  hoare n false P (append c x) (fun _ _ => True).
Proof.
  intros Hd Hc tg s r s' (ex & Hb & HI) HP Hrun. specialize (Hc _ HP).
  destruct c as [| | | |a]; try (injection Hrun as <- <-; done_read false ex tg Hb HI).
  unfold append in Hrun. run_load Hrun a s.
  destruct o as [l|e]; [|injection Hrun as <- <-; done_read false ex tg Hb HI].
  injection Hrun as <- <-. destruct Hc as [Hn Hta].
  destruct (Inv_put_ex ex tg s a (OList (l ++ [x])) d HI Hn Hta Hd) as [HI' Hfr].
  split; [exact Hfr|]. intros [] _. exists tg.
  split; [reflexivity|]. split; [exists (a :: ex); split; [discriminate | exact HI'] | exact I].
Qed.

(** The last write of [_add_always_notify] appends the configuration's
    object to a list: only the frame is kept. *)
Lemma frames_append b (P : list tag -> Prop) (c x : hval) (t : tag) :
  (forall tg, P tg -> typed n tg t c) ->
  frames n b P (append c x).
Proof.
  intros Hc tg s r s' HI HP Hrun. specialize (Hc _ HP).
  destruct c as [| | | |a]; try (injection Hrun as <- <-; apply frame_refl).
  unfold append, mbind, M_bind, load in Hrun.
  destruct (s !! a) as [[l|d]|]; injection Hrun as <- <-; try apply frame_refl.
  destruct Hc as [Hn _]. intros a0 Ha0. apply list_lookup_insert_ne. lia.
Qed.

(** ** Loops *)

Lemma hoare_forM {A} ex (P : list tag -> Prop) (f : A -> M unit) (xs : list A) :
  mono P ->
  (forall x, In x xs -> hoare n ex P (f x) (fun _ _ => True)) ->
  hoare n ex P (forM f xs) (fun _ _ => True).
Proof.
  intros HP. induction xs as [|x xs IH]; intros Hf; cbn [forM].
  - now apply hoare_ret.
  - eapply hoare_bind; [exact HP | apply Hf; now left |].
    intros u. eapply hoare_conseq; [apply IH | tauto | auto].
    intros y Hy. apply Hf. now right.
Qed.

Lemma hoare_foldM {A B} ex (P : list tag -> Prop) (J : list tag -> A -> Prop)
    (f : A -> B -> M A) (xs : list B) :
  mono P -> (forall acc, mono (fun tg => J tg acc)) ->
  (forall x acc, In x xs -> hoare n ex (fun tg => P tg /\ J tg acc) (f acc x) J) ->
  forall acc, hoare n ex (fun tg => P tg /\ J tg acc) (foldM f xs acc) J.
Proof.
  intros HP HJ. induction xs as [|x xs IH]; intros Hf acc; cbn [foldM].
  - apply hoare_ret. tauto.
  - eapply hoare_bind; [apply mono_and; auto | apply Hf; now left |].
    intros acc'. eapply hoare_conseq; [apply IH | tauto | auto].
    intros y acc0 Hy. apply Hf. now right.
Qed.

Lemma hoare_mapM {A B} ex (P : list tag -> Prop) (R : list tag -> B -> Prop)
    (f : A -> M B) (xs : list A) :
  mono P -> (forall b, mono (fun tg => R tg b)) ->
  (forall x, In x xs -> hoare n ex P (f x) R) ->
  hoare n ex P (mapM f xs) (fun tg ys => Forall (R tg) ys).
Proof.
  intros HP HR. induction xs as [|x xs IH]; intros Hf; cbn [mapM].
  - apply hoare_ret. constructor.
  - eapply hoare_bind; [exact HP | apply Hf; now left |].
    intros y. eapply hoare_bind.
    + apply mono_and; auto.
    + apply hoare_keep; [apply HR | apply IH].
      intros z Hz. apply Hf. now right.
    + intros ys. apply hoare_ret. intros tg [_ [Hys Hy]]. constructor; auto.
Qed.

(** ** Copies and loaded values are new objects *)

Lemma hoare_deepcopy ex (P : list tag -> Prop) (fuel : nat) :
  mono P ->
  forall (v : hval) (t : tag),
    hoare n ex P (deepcopy fuel v) (fun tg r => typed n tg t r).
Proof.
  intros HP. induction fuel as [|fuel IH]; intros v t.
  - destruct v; try (apply hoare_ret; intros; exact I). apply hoare_raise.
  - destruct v as [| | | |a]; try (apply hoare_ret; intros; exact I).
    cbn [deepcopy]. hread reads_load. destruct a0 as [l|d].
    + eapply hoare_bind; [exact HP | |].
      * apply (hoare_mapM ex _ (fun tg r => typed n tg (Elem, S (snd t)) r));
          [exact HP | intros b; apply typed_mono |].
        intros x _. apply IH.
      * intros l'. apply hoare_alloc. intros tg [_ Hl]. exact Hl.
    + eapply hoare_bind; [exact HP | |].
      * apply (hoare_mapM ex _ (fun tg kv => typed n tg (Field, S (snd t)) (snd kv)));
          [exact HP | intros b; apply typed_mono |].
        intros x _. eapply hoare_bind; [exact HP | apply (IH (snd x)) |].
        intros y. apply hoare_ret. intros tg [_ Hy]. exact Hy.
      * intros d'. apply hoare_alloc. intros tg [_ Hd]. exact Hd.
Qed.

Lemma hoare_alloc_value ex (P : list tag -> Prop) :
  mono P ->
  forall (v : value) (t : tag),
    hoare n ex P (alloc_value v) (fun tg r => typed n tg t r).
Proof.
  intros HP v. induction v as [| b | z | x | l IH | d IH] using value_ind';
    intros t; try (apply hoare_ret; intros; exact I); cbn [alloc_value].
  - eapply hoare_bind; [exact HP | |].
    + apply (hoare_mapM ex _ (fun tg r => typed n tg (Elem, S (snd t)) r));
        [exact HP | intros b; apply typed_mono |].
      intros x Hx. rewrite Forall_forall in IH. apply IH.
      now apply list_elem_of_In.
    + intros l'. apply hoare_alloc. intros tg [_ Hl]. exact Hl.
  - eapply hoare_bind; [exact HP | |].
    + apply (hoare_mapM ex _ (fun tg kv => typed n tg (Field, S (snd t)) (snd kv)));
        [exact HP | intros b; apply typed_mono |].
      intros x Hx. rewrite Forall_forall in IH.
      eapply hoare_bind; [exact HP | apply (IH x); now apply list_elem_of_In |].
      intros y. apply hoare_ret. intros tg [_ Hy]. exact Hy.
    + intros d'. apply hoare_alloc. intros tg [_ Hd]. exact Hd.
Qed.

(** ** Operations that only read *)

Lemma reads_getitem c k : reads (getitem c k).
Proof.
  destruct c; try apply reads_raise. apply reads_bind; [apply reads_load|].
  intros [l|d]; [apply reads_raise|]. destruct (hdict_get k d); [apply reads_ret | apply reads_raise].
Qed.

Lemma reads_get c k dflt : reads (get c k dflt).
Proof.
  destruct c; try apply reads_raise. apply reads_bind; [apply reads_load|].
  intros [l|d]; [apply reads_raise|]. destruct (hdict_get k d); apply reads_ret.
Qed.

Lemma reads_items c : reads (items c).
Proof.
  destruct c; try apply reads_raise. apply reads_bind; [apply reads_load|].
  intros [l|d]; [apply reads_raise | apply reads_ret].
Qed.

Lemma reads_iter c : reads (iter c).
Proof.
  destruct c; try apply reads_raise; try apply reads_ret.
  apply reads_bind; [apply reads_load|]. intros [l|d]; apply reads_ret.
Qed.

Lemma reads_is_dict v : reads (is_dict v).
Proof.
  destruct v; try apply reads_ret. apply reads_bind; [apply reads_load|].
  intros o. apply reads_ret.
Qed.

Lemma reads_is_list v : reads (is_list v).
Proof.
  destruct v; try apply reads_ret. apply reads_bind; [apply reads_load|].
  intros o. apply reads_ret.
Qed.

Lemma reads_h_read fuel v : reads (h_read fuel v).
Proof. intros s. unfold h_read. now destruct (read fuel s v). Qed.

Lemma reads_h_eq fuel a b : reads (h_eq fuel a b).
Proof.
  apply reads_bind; [apply reads_h_read|]. intros x.
  apply reads_bind; [apply reads_h_read|]. intros y. apply reads_ret.
Qed.

Lemma reads_foldM {A B} (f : A -> B -> M A) (xs : list B) (acc : A) :
  (forall a x, reads (f a x)) -> reads (foldM f xs acc).
Proof.
  intros Hf. revert acc. induction xs as [|x xs IH]; intros acc; cbn [foldM].
  - apply reads_ret.
  - apply reads_bind; [apply Hf | apply IH].
Qed.

Lemma reads_contains fuel x c : reads (contains fuel x c).
Proof.
  destruct c; try apply reads_raise.
  - destruct x; try apply reads_raise. apply reads_ret.
  - apply reads_bind; [apply reads_load|]. intros [l|d].
    + apply reads_foldM. intros [|] e; [apply reads_ret | apply reads_h_eq].
    + destruct x; try apply reads_ret. apply reads_raise.
Qed.

Lemma reads_has_key k c : reads (has_key k c).
Proof. apply reads_contains. Qed.

Lemma reads_defs_has t dd : reads (defs_has t dd).
Proof. destruct t; try apply reads_ret. apply reads_raise. Qed.

(** ** [_array_merge] and [_merge_conf] write from [n] on *)

Lemma defs_typed_mono d dd : mono (fun tg => defs_typed n d tg dd).
Proof. apply mono_Forall. intros e. apply typed_mono. Qed.

Lemma defs_get_typed d tg t dd dv :
  defs_typed n d tg dd -> defs_get t dd = Some dv -> typed n tg (Elem, S d) dv.
Proof.
  induction dd as [|[t' x] dd IH]; cbn; [discriminate|]. intros Hall.
  apply Forall_cons in Hall as [Hd Hdd].
  destruct (scalar_eq t t'); [now intros [= <-] | auto].
Qed.

Lemma defs_del_typed d tg t dd :
  defs_typed n d tg dd -> defs_typed n d tg (defs_del t dd).
Proof.
  unfold defs_typed. induction dd as [|[t' x] dd IH]; cbn; intros Hall;
    [constructor|].
  apply Forall_cons in Hall as [Hd Hdd].
  destruct (scalar_eq t t'); [exact Hdd | constructor; auto].
Qed.

Lemma safe_strict t : safe true t.
Proof. now left. Qed.

Lemma hoare_find_default (P : list tag -> Prop) fuel update ru d v dd :
  mono P ->
  (forall tg, P tg -> typed n tg (ru, d) update /\ typed n tg (Elem, S d) v) ->
  hoare n true (fun tg => P tg /\ defs_typed n d tg dd)
    (find_default fuel update dd v) (defs_typed n d).
Proof.
  intros HP Hty. unfold find_default.
  hread reads_is_dict. destruct a; cbn [negb].
  - hread reads_get.
    assert (Hdd : hoare n true (fun tg => P tg /\ defs_typed n d tg dd)
              (dup ← defs_has a dd;
               if (dup : bool) then raise (RuntimeError same_type_msg)
               else mret (dd ++ [(a, v)])) (defs_typed n d)).
    { hread reads_defs_has. destruct a0; [apply hoare_raise|].
      apply hoare_ret. intros tg [HPt Hdd]. apply Forall_app. split; [exact Hdd|].
      repeat constructor. apply (Hty _ HPt). }
    destruct a; try exact Hdd. apply hoare_raise.
  - hread reads_contains.
    eapply hoare_bind; [solve_mono; apply defs_typed_mono | |].
    + destruct a; cbn [negb].
      * apply (hoare_ret _ _ _ (fun _ _ => True)). auto.
      * eapply (hoare_append true _ update v (ru, d)).
        intros tg [HPt _]. apply (Hty _ HPt).
    + intros u. apply hoare_ret. tauto.
Qed.

Lemma hoare_fill_one (P : list tag -> Prop) i d kv :
  (forall tg, P tg -> typed n tg (Elem, d) i /\ typed n tg (Field, S d) (snd kv)) ->
  hoare n true P (fill_one i kv) (fun _ _ => True).
Proof.
  intros Hty. unfold fill_one. hread reads_has_key. destruct a; cbn [negb].
  - now apply hoare_ret.
  - eapply (hoare_setitem true _ i _ _ (Elem, d)). exact Hty.
Qed.

Lemma hoare_do_update (P : list tag -> Prop) i d dd :
  mono P ->
  (forall tg, P tg -> typed n tg (Elem, S d) i) ->
  hoare n true (fun tg => P tg /\ defs_typed n d tg dd) (do_update dd i) (defs_typed n d).
Proof.
  intros HP Hty. unfold do_update.
  hread reads_is_dict. destruct a; cbn [negb]; [|apply hoare_ret; tauto].
  hread reads_get.
  assert (Hdd : hoare n true (fun tg => P tg /\ defs_typed n d tg dd)
            (known ← defs_has a dd;
             if negb (known : bool) then mret dd
             else
               match defs_get a dd with
               | Some dv =>
                   its ← items dv;
                   _ ← forM (fill_one i) its;
                   mret (defs_del a dd)
               | None => raise (KeyError "type")
               end) (defs_typed n d)).
  { hread reads_defs_has. destruct a0; cbn [negb]; [|apply hoare_ret; tauto].
    destruct (defs_get a dd) as [dv|] eqn:Hdv; [|apply hoare_raise].
    eapply hoare_bind; [solve_mono; apply defs_typed_mono | |].
    - eapply (hoare_items true _ dv (Elem, S d)); [apply safe_strict|].
      intros tg [_ Hdd]. eapply defs_get_typed; eauto.
    - intros its. eapply hoare_bind.
      + solve_mono; apply defs_typed_mono.
      + apply hoare_forM; [solve_mono; apply defs_typed_mono|].
        intros kv Hkv. apply (hoare_fill_one _ i (S d)). intros tg [[HPt _] Hits].
        split; [auto|]. rewrite Forall_forall in Hits.
        apply Hits. now apply list_elem_of_In.
      + intros u. apply hoare_ret. intros tg [[[_ Hdd] _] _].
        now apply defs_del_typed. }
  destruct a; try exact Hdd. apply hoare_ret. tauto.
Qed.

Lemma hoare_add_default (P : list tag -> Prop) path update ru d kv :
  (forall tg, P tg -> typed n tg (ru, d) update /\ typed n tg (Elem, S d) (snd kv)) ->
  hoare n true P (add_default path update kv) (fun _ _ => True).
Proof.
  intros Hty. unfold add_default.
  destruct (bool_decide (path = ["actions"]) && scalar_eq (fst kv) (HStr "notify")).
  - now apply hoare_ret.
  - eapply (hoare_append true _ update _ (ru, d)). exact Hty.
Qed.

Lemma hoare_array_merge (P : list tag -> Prop) fuel base update policy_name path
    rb ru d :
  mono P ->
  (forall tg, P tg -> typed n tg (rb, d) base /\ typed n tg (ru, d) update) ->
  hoare n true P (_array_merge fuel base update policy_name path)
    (fun _ r => r = update).
Proof.
  intros HP Hty. unfold _array_merge.
  hread reads_is_list. destruct a; cbn [negb].
  2: { hread reads_h_read. hread reads_h_read. apply hoare_raise. }
  eapply hoare_bind; [exact HP | |].
  { eapply (hoare_iter true _ base (rb, d)); [apply safe_strict|].
    intros tg HPt. apply (Hty _ HPt). }
  intros b. eapply hoare_bind; [solve_mono | |].
  { eapply hoare_conseq.
    - apply (hoare_foldM true (fun tg => P tg /\ Forall (typed n tg (Elem, S d)) b)
               (defs_typed n d) (find_default fuel update) b).
      + solve_mono.
      + apply defs_typed_mono.
      + intros x acc Hx. apply (hoare_find_default _ fuel update ru d); [solve_mono|].
        intros tg [HPt Hb]. split; [apply (Hty _ HPt)|].
        rewrite Forall_forall in Hb. apply Hb. now apply list_elem_of_In.
    - intros tg H. split; [exact H | constructor].
    - intros tg a H. exact H. }
  intros dd. eapply hoare_bind; [solve_mono; apply defs_typed_mono | |].
  { eapply (hoare_iter true _ update (ru, d)); [apply safe_strict|].
    intros tg [[HPt _] _]. apply (Hty _ HPt). }
  intros u. eapply hoare_bind; [solve_mono; apply defs_typed_mono | |].
  { eapply hoare_conseq.
    - apply (hoare_foldM true (fun tg => P tg /\ Forall (typed n tg (Elem, S d)) u)
               (defs_typed n d) do_update u).
      + solve_mono.
      + apply defs_typed_mono.
      + intros x acc Hx. apply hoare_do_update; [solve_mono|].
        intros tg [_ Hu]. rewrite Forall_forall in Hu.
        apply Hu. now apply list_elem_of_In.
    - intros tg [[[HPt _] Hdd] Hu]. auto.
    - intros tg a H. exact H. }
  intros dd'. eapply hoare_bind; [solve_mono; apply defs_typed_mono | |].
  { apply hoare_forM; [solve_mono; apply defs_typed_mono|].
    intros kv Hkv. apply (hoare_add_default _ path update ru d).
    intros tg [[[[HPt _] _] _] Hdd]. split; [apply (Hty _ HPt)|].
    unfold defs_typed in Hdd. rewrite Forall_forall in Hdd.
    apply Hdd. now apply list_elem_of_In. }
  intros u0. now apply hoare_ret.
Qed.

Lemma hoare_merge_item (P : list tag -> Prop) fuel
    (rec : hval -> hval -> list string -> M hval) policy_name path base rb d kv :
  mono P ->
  (forall (P' : list tag -> Prop) bk v kpath,
     mono P' ->
     (forall tg, P' tg -> typed n tg (Field, S d) bk /\ typed n tg (Field, S d) v) ->
     hoare n true P' (rec bk v kpath) (fun _ r => r = bk)) ->
  (forall tg, P tg -> typed n tg (rb, d) base /\ typed n tg (Field, S d) (snd kv)) ->
  hoare n true P (merge_item fuel rec policy_name path base kv) (fun _ _ => True).
Proof.
  intros HP Hrec Hty. unfold merge_item.
  assert (Hset : hoare n true P (setitem base (fst kv) (snd kv)) (fun _ _ => True))
    by (eapply (hoare_setitem true _ base _ _ (rb, d)); exact Hty).
  apply hoare_reads_bind.
  { case_bool_decide; [|apply reads_ret].
    apply reads_bind; [apply reads_get|]. intros t.
    apply reads_bind; [apply reads_h_eq|]. intros per. apply reads_ret. }
  intros [|]; [exact Hset|].
  hread reads_has_key. destruct a; cbn [negb]; [|exact Hset].
  hread reads_is_list. destruct a.
  - eapply hoare_bind; [exact HP | |].
    { eapply (hoare_getitem true _ base _ (rb, d)); [apply safe_strict|].
      intros tg HPt. apply (Hty _ HPt). }
    intros bk. eapply hoare_bind; [solve_mono | |].
    { eapply (hoare_array_merge _ fuel bk (snd kv) policy_name _ Field Field (S d));
        [solve_mono|].
      intros tg [HPt Hbk]. split; [exact Hbk | apply (Hty _ HPt)]. }
    intros r. eapply (hoare_setitem true _ base _ _ (rb, d)).
    intros tg [[HPt Hbk] ->]. split; apply (Hty _ HPt).
  - hread reads_is_dict. destruct a; [|exact Hset].
    eapply hoare_bind; [exact HP | |].
    { eapply (hoare_getitem true _ base _ (rb, d)); [apply safe_strict|].
      intros tg HPt. apply (Hty _ HPt). }
    intros bk. eapply hoare_bind; [solve_mono | |].
    { eapply (Hrec _ bk (snd kv)); [solve_mono|].
      intros tg [HPt Hbk]. split; [exact Hbk | apply (Hty _ HPt)]. }
    intros r. eapply (hoare_setitem true _ base _ _ (rb, d)).
    intros tg [[HPt Hbk] ->]. split; [apply (Hty _ HPt) | exact Hbk].
Qed.

Lemma hoare_merge_conf fuel :
  forall (P : list tag -> Prop) base update policy_name path rb ru d,
    mono P ->
    (forall tg, P tg -> typed n tg (rb, d) base /\ typed n tg (ru, d) update) ->
    hoare n true P (_merge_conf fuel base update policy_name path)
      (fun _ r => r = base).
Proof.
  induction fuel as [|fuel IH]; intros P base update policy_name path rb ru d HP Hty.
  - apply hoare_raise.
  - cbn [_merge_conf]. eapply hoare_bind; [exact HP | |].
    { eapply (hoare_items true _ update (ru, d)); [apply safe_strict|].
      intros tg HPt. apply (Hty _ HPt). }
    intros its. eapply hoare_bind; [solve_mono | |].
    { apply hoare_forM; [solve_mono|]. intros kv Hkv.
      apply (hoare_merge_item _ fuel _ policy_name path base rb d); [solve_mono | |].
      - intros P' bk v kpath HP' Hty'. eapply IH; eauto.
      - intros tg [HPt Hits]. split; [apply (Hty _ HPt)|].
        rewrite Forall_forall in Hits. apply Hits. now apply list_elem_of_In. }
    intros u. apply hoare_reads_bind.
    { case_bool_decide; [|apply reads_ret].
      apply reads_bind; [apply reads_has_key|]. intros inb.
      apply reads_bind; [apply reads_has_key|]. intros inu. apply reads_ret. }
    intros drop. eapply hoare_bind; [solve_mono | |].
    { destruct drop.
      - eapply (hoare_delitem true _ base _ (rb, d)). intros tg [[HPt _] _].
        apply (Hty _ HPt).
      - apply (hoare_ret _ _ _ (fun _ _ => True)). auto. }
    intros u0. now apply hoare_ret.
Qed.

(** ** The writes after the merge *)

Lemma safe_root b d : safe b (Root, d).
Proof. right. left. discriminate. Qed.

Lemma safe_elem b d : safe b (Elem, d).
Proof. right. left. discriminate. Qed.

Lemma safe_top b r : safe b (r, 1).
Proof. right. right. cbn. lia. Qed.

Lemma hoare_put_ex (P : list tag -> Prop) (a : nat) (o : obj) (d : nat) :
  2 <= d ->
  (forall tg, P tg -> typed n tg (Field, d) (HRef a)) ->
  hoare n false P (put a o) (fun _ _ => True).
Proof.
  intros Hd Hc tg s r s' (ex & Hb & HI) HP Hrun. destruct (Hc _ HP) as [Hn Hta].
  injection Hrun as <- <-.
  destruct (Inv_put_ex ex tg s a o d HI Hn Hta Hd) as [HI' Hfr].
  split; [exact Hfr|]. intros [] _. exists tg.
  split; [reflexivity|].
  split; [exists (a :: ex); split; [discriminate | exact HI'] | exact I].
Qed.

Lemma reads_update_pair d e : reads (update_pair d e).
Proof.
  apply reads_bind; [apply reads_iter|]. intros kv.
  destruct kv as [|x [|v [|w l]]]; try apply reads_raise;
    destruct x; first [apply reads_ret | apply reads_raise].
Qed.

(** [tags.update(...)] takes the values of the defaults as they are: the
    tags are excepted from then on. *)
Lemma hoare_update_ex (P : list tag -> Prop) (c x : hval) (d : nat) :
  2 <= d ->
  (forall tg, P tg -> typed n tg (Field, d) c) ->
  hoare n false P (update c x) (fun _ _ => True).
Proof.
  intros Hd Hc. destruct c as [| | | |a]; try apply hoare_raise.
  unfold update. hread reads_load. destruct a0 as [l|e]; [apply hoare_raise|].
  hread reads_is_dict. destruct a0.
  - hread reads_items. eapply hoare_put_ex; eauto.
  - hread reads_iter.
    apply hoare_reads_bind; [apply reads_foldM; intros; apply reads_update_pair|].
    intros d'. eapply hoare_put_ex; eauto.
Qed.

Lemma hoare_add_recipient (P : list tag -> Prop) fuel action to_addr :
  mono P ->
  (forall tg, P tg -> typed n tg (Elem, 2) action) ->
  hoare n false P (add_recipient fuel action to_addr) (fun _ _ => True).
Proof.
  intros HP Hty. unfold add_recipient.
  hread reads_getitem. hread reads_contains.
  destruct a0; cbn [negb]; [now apply hoare_ret|].
  eapply hoare_bind; [exact HP | |].
  { eapply (hoare_getitem false _ action _ (Elem, 2)); [apply safe_elem | exact Hty]. }
  intros cur. eapply (hoare_append_ex _ cur to_addr 3); [lia|].
  intros tg [_ H]. exact H.
Qed.

Lemma hoare_notify_scan (P : list tag -> Prop) fuel desired :
  mono P ->
  (forall tg, P tg -> typed n tg (Root, 0) desired) ->
  forall actions,
    hoare n false (fun tg => P tg /\ Forall (typed n tg (Elem, 2)) actions)
      (notify_scan fuel desired actions) (fun _ _ => True).
Proof.
  intros HP Hty actions. induction actions as [|action rest IH]; cbn [notify_scan].
  - now apply hoare_ret.
  - assert (Hrest : forall Q : list tag -> Prop,
              hoare n false
                (fun tg => (P tg /\ Forall (typed n tg (Elem, 2)) (action :: rest)) /\ Q tg)
                (notify_scan fuel desired rest) (fun _ _ => True)).
    { intros Q. eapply hoare_conseq; [exact IH | | auto].
      intros tg [[HPt Hall] _]. apply Forall_cons in Hall as [_ Hall]. auto. }
    assert (Hrest0 : hoare n false
                (fun tg => P tg /\ Forall (typed n tg (Elem, 2)) (action :: rest))
                (notify_scan fuel desired rest) (fun _ _ => True)).
    { eapply hoare_conseq; [exact IH | | auto].
      intros tg [HPt Hall]. apply Forall_cons in Hall as [_ Hall]. auto. }
    assert (Hact : forall tg, P tg /\ Forall (typed n tg (Elem, 2)) (action :: rest) ->
                              typed n tg (Elem, 2) action).
    { intros tg [_ Hall]. now apply Forall_cons in Hall as [Ha _]. }
    hread reads_is_dict. destruct a; cbn [negb]; [|exact Hrest0].
    hread reads_get. hread reads_h_eq. destruct a0; cbn [negb]; [|exact Hrest0].
    eapply hoare_bind; [solve_mono | |].
    { apply (hoare_alloc false _ (ODict []) (Field, 3)). intros tg _. constructor. }
    intros empty. hread reads_get. hread reads_getitem. hread reads_h_eq.
    destruct a2; cbn [negb]; [|apply Hrest].
    hread reads_has_key.
    eapply hoare_bind; [solve_mono | |].
    { destruct a2; cbn [negb]; [apply (hoare_ret _ _ _ (fun _ _ => True)); auto|].
      eapply hoare_bind; [solve_mono | |].
      - apply (hoare_alloc false _ (OList []) (Field, 3)). intros tg _. constructor.
      - intros l. apply (hoare_setitem false _ action "to" l (Elem, 2)).
        intros tg [[H _] Hl]. split; [apply Hact; exact H | exact Hl]. }
    intros u. hread reads_getitem. hread reads_iter.
    eapply hoare_bind; [solve_mono | |].
    { apply hoare_forM; [solve_mono|]. intros x _.
      apply hoare_add_recipient; [solve_mono|].
      intros tg [[H _] _]. apply Hact. exact H. }
    intros u0. now apply hoare_ret.
Qed.

Lemma typed_option_mono v : mono (fun tg => typed_option n tg v).
Proof.
  destruct v; [apply typed_mono|]. intros tg tg' _ H. exact H.
Qed.

Lemma frames_add_always_notify (P : list tag -> Prop) fuel always_notify conf :
  mono P ->
  (forall tg, P tg -> typed n tg (Root, 0) conf /\ typed_option n tg always_notify) ->
  frames n false P (_add_always_notify fuel always_notify conf).
Proof.
  intros HP Hty. destruct always_notify as [desired|]; cbn [_add_always_notify].
  2: { eapply hoare_frames. apply (hoare_ret _ _ _ (fun _ _ => True)). auto. }
  eapply frames_bind; [exact HP | |].
  { apply (hoare_setitem false _ desired "type" (HStr "notify") (Root, 0)).
    intros tg HPt. split; [apply (Hty _ HPt) | exact I]. }
  intros u. eapply frames_bind; [solve_mono | |].
  { apply (hoare_getitem false _ conf "actions" (Root, 0)); [apply safe_root|].
    intros tg [HPt _]. apply (Hty _ HPt). }
  intros actions. eapply frames_bind; [solve_mono | |].
  { apply (hoare_iter false _ actions (Field, 1)); [apply safe_top|].
    intros tg [_ H]. exact H. }
  intros acts. eapply frames_bind; [solve_mono | |].
  { eapply hoare_conseq.
    - apply (hoare_notify_scan P fuel desired HP).
      intros tg HPt. apply (Hty _ HPt).
    - intros tg [[[HPt _] _] Hacts]. split; [exact HPt | exact Hacts].
    - intros tg a H. exact H. }
  intros added. apply frames_bind_reads; [|intros; apply reads_ret].
  destruct added; cbn [negb].
  - eapply hoare_frames. apply (hoare_ret _ _ _ (fun _ _ => True)). auto.
  - eapply frames_bind; [solve_mono | |].
    + apply (hoare_getitem false _ conf "actions" (Root, 0)); [apply safe_root|].
      intros tg [[[[HPt _] _] _] _]. apply (Hty _ HPt).
    + intros actions'. apply (frames_append false _ actions' desired (Field, 1)).
      intros tg [_ H]. exact H.
Qed.

(** ** [_apply_defaults] writes from [n] on *)

Lemma frames_apply_defaults (P : list tag -> Prop) fuel always_notify defaults policy :
  mono P ->
  (forall tg, P tg -> typed n tg (Root, 0) policy /\ typed_option n tg always_notify) ->
  frames n true P (_apply_defaults fuel always_notify defaults policy).
Proof.
  intros HP Hty. unfold _apply_defaults.
  eapply frames_bind; [exact HP | |].
  { apply (hoare_deepcopy true P fuel HP defaults (Root, 0)). }
  intros d. apply frames_reads_bind; [apply reads_getitem|]. intros name.
  eapply frames_bind; [solve_mono | |].
  { apply (hoare_merge_conf fuel _ d policy name [] Root Root 0); [solve_mono|].
    intros tg [HPt Hd]. split; [exact Hd | apply (Hty _ HPt)]. }
  intros conf.
  eapply frames_conseq with
    (P := fun tg => P tg /\ typed n tg (Root, 0) conf).
  2: { intros tg [[HPt Hd] ->]. auto. }
  clear d.
  assert (Hconf : forall b (Q : list tag -> Prop),
            (forall tg, Q tg -> typed n tg (Root, 0) conf) ->
            hoare n b Q (getitem conf "mode") (fun tg v => typed n tg (Field, 1) v)).
  { intros b Q HQ. apply (hoare_getitem b Q conf "mode" (Root, 0));
      [apply safe_root | exact HQ]. }
  apply frames_reads_bind; [apply reads_getitem|]. intros mode0.
  apply frames_reads_bind; [apply reads_getitem|]. intros ty.
  apply frames_reads_bind; [apply reads_h_eq|]. intros per.
  eapply frames_bind with (Q := fun _ _ => True); [solve_mono | |].
  { destruct per; [|now apply hoare_ret].
    eapply hoare_bind; [solve_mono | apply Hconf; tauto |].
    intros mode. hread reads_has_key.
    destruct a; cbn [negb]; [now apply hoare_ret|].
    eapply hoare_bind; [solve_mono | |].
    { apply (hoare_alloc true _ (ODict []) (Field, 2)). intros tg _. constructor. }
    intros empty. eapply hoare_bind; [solve_mono | apply Hconf; tauto |].
    intros mode'. apply (hoare_setitem true _ mode' "tags" empty (Field, 1)).
    intros tg [[_ He] Hm]. auto. }
  intros u. apply frames_relax.
  eapply frames_conseq with
    (P := fun tg => P tg /\ typed n tg (Root, 0) conf); [|tauto].
  apply frames_reads_bind; [apply reads_getitem|]. intros mode1.
  apply frames_reads_bind; [apply reads_has_key|]. intros has_tags.
  eapply frames_bind with (Q := fun _ _ => True); [solve_mono | |].
  { destruct has_tags; [|now apply hoare_ret].
    eapply hoare_bind; [solve_mono | apply Hconf; tauto |].
    intros mode. eapply hoare_bind; [solve_mono | |].
    { apply (hoare_getitem false _ mode "tags" (Field, 1)); [apply safe_top|].
      intros tg [_ H]. exact H. }
    intros tags. eapply hoare_bind; [solve_mono | |].
    { apply (hoare_alloc false _ (ODict []) (Field, 2)). intros tg _. constructor. }
    intros empty. hread reads_get.
    eapply hoare_bind; [solve_mono | |].
    { apply (hoare_alloc false _ (ODict []) (Field, 2)). intros tg _. constructor. }
    intros empty'. hread reads_get.
    eapply hoare_bind; [solve_mono | |].
    { apply (hoare_update_ex _ tags a0 2); [lia|].
      intros tg [[[_ H] _] _]. exact H. }
    intros u0. apply hoare_reads_bind; [apply reads_getitem|]. intros name'.
    eapply hoare_bind; [solve_mono | apply Hconf; tauto |].
    intros mode'. eapply hoare_bind; [solve_mono | |].
    { apply (hoare_getitem false _ mode' "tags" (Field, 1)); [apply safe_top|].
      intros tg [_ H]. exact H. }
    intros tags'. apply (hoare_setitem_ex _ tags' "Component" name' 2); [lia|].
    intros tg [_ H]. exact H. }
  intros u1. apply frames_reads_bind; [apply reads_has_key|]. intros has_actions.
  eapply frames_bind with (Q := fun _ _ => True); [solve_mono | |].
  { destruct has_actions; cbn [negb]; [now apply hoare_ret|].
    eapply hoare_bind; [solve_mono | |].
    { apply (hoare_alloc false _ (OList []) (Field, 1)). intros tg _. constructor. }
    intros empty. apply (hoare_setitem false _ conf "actions" empty (Root, 0)).
    intros tg [[[_ Hc] _] He]. auto. }
  intros u2. apply frames_add_always_notify; [solve_mono; apply typed_option_mono|].
  intros tg [[[HPt Hc] _] _]. split; [exact Hc | apply (Hty _ HPt)].
Qed.

End Rules.

(** ** Reading the defaults back *)

Lemma traverse_ext_Forall {A B} (f g : A -> option B) (P : A -> Prop) (xs : list A) :
  (forall x, P x -> f x = g x) -> Forall P xs -> traverse f xs = traverse g xs.
Proof.
  intros Hfg Hall. induction Hall as [|x xs Hx _ IH]; cbn; [reflexivity|].
  rewrite (Hfg x Hx), IH. reflexivity.
Qed.

Lemma traverse_impl {A B} (f g : A -> option B) (xs : list A) (ys : list B) :
  (forall x y, f x = Some y -> g x = Some y) ->
  traverse f xs = Some ys -> traverse g xs = Some ys.
Proof.
  intros Hfg. revert ys. induction xs as [|x xs IH]; cbn; intros ys H; [exact H|].
  destruct (f x) as [y|] eqn:Hx; [|discriminate].
  destruct (traverse f xs) as [ys'|]; [|discriminate].
  rewrite (Hfg x y Hx), (IH ys' eq_refl). exact H.
Qed.

(** What lies below [n] reads the same in a store that agrees below [n]. *)
Lemma read_frame (n : nat) (s s' : store) :
  closed n s -> frame n s s' ->
  forall k v, below n v -> read k s' v = read k s v.
Proof.
  intros Hc Hf k. induction k as [|k IH]; intros v Hv;
    destruct v as [| | | |a]; try reflexivity.
  cbn [read]. cbn in Hv. rewrite (Hf a Hv).
  destruct (s !! a) as [[l|d]|] eqn:Hl; [| |reflexivity].
  - f_equal. eapply traverse_ext_Forall; [|exact (Hc a _ Hv Hl)].
    intros x Hx. apply IH. exact Hx.
  - f_equal.
    eapply (traverse_ext_Forall _ _ (fun kv => below n (snd kv)));
      [|exact (Hc a _ Hv Hl)].
    intros kv Hkv. cbn. rewrite IH; auto.
Qed.

Lemma closed_frame (n : nat) (s s' : store) : closed n s -> frame n s s' -> closed n s'.
Proof. intros Hc Hf a o Ha Hl. rewrite (Hf a Ha) in Hl. exact (Hc a o Ha Hl). Qed.

Lemma typed_below (tg : list tag) (s : store) (t : tag) (v : hval) :
  length tg = length s -> typed 0 tg t v -> below (length s) v.
Proof.
  intros Hlen. destruct v; cbn; auto. intros [_ H]. apply lookup_lt_Some in H. lia.
Qed.

(** A store the loader filled refers to itself only. *)
Lemma Inv_closed (tg : list tag) (s : store) : Inv 0 [] tg s -> closed (length s) s.
Proof.
  intros (_ & Hlen & Hobj & _) a o Ha Hl.
  destruct (lookup_lt_is_Some_2 tg a) as [t Ht]; [lia|].
  pose proof (Hobj a o t (Nat.le_0_l _) (fun H => H) Hl Ht) as Ho.
  destruct o; cbn in Ho; (eapply Forall_impl; [exact Ho|]); cbn;
    intros x Hx; eapply typed_below; eauto.
Qed.

Lemma Inv_initial (s : store) : Inv (length s) [] (replicate (length s) (Root, 0)) s.
Proof.
  split; [lia|]. split; [apply length_replicate|]. split.
  - intros a o t Ha _ Hl. apply lookup_lt_Some in Hl. lia.
  - intros a [].
Qed.

Lemma read_mono (k : nat) :
  forall k' s s' v x,
    k <= k' -> s `prefix_of` s' -> read k s v = Some x -> read k' s' v = Some x.
Proof.
  induction k as [|k IH]; intros k' s s' v x Hk Hpre Hr.
  - destruct v; destruct k'; cbn in *; try exact Hr; discriminate.
  - destruct v as [| | | |a]; try (destruct k'; exact Hr).
    destruct k' as [|k']; [lia|]. cbn [read] in *.
    destruct (s !! a) as [o|] eqn:Hl; [|discriminate].
    rewrite (prefix_lookup_Some _ _ _ _ Hl Hpre).
    destruct o as [l|d].
    + destruct (traverse (read k s) l) as [ys|] eqn:Ht; [|discriminate].
      erewrite traverse_impl; [exact Hr | | exact Ht].
      intros v y Hv. eapply IH; eauto. lia.
    + destruct (traverse _ d) as [ys|] eqn:Ht; [|discriminate].
      erewrite traverse_impl; [exact Hr | | exact Ht].
      intros kv y Hv. cbn in *.
      destruct (read k s (snd kv)) as [z|] eqn:Hz; [|discriminate].
      erewrite IH; eauto. lia.
Qed.

(** The loader returns, and what it stored reads back as the value. *)
Lemma mapM_read {A B} (f : A -> M B) (rd : nat -> store -> B -> option A)
    (xs : list A) :
  (forall k k' s s' b a,
     k <= k' -> s `prefix_of` s' -> rd k s b = Some a -> rd k' s' b = Some a) ->
  Forall (fun x => forall s, exists y s' k,
            f x s = (Ok y, s') /\ s `prefix_of` s' /\ rd k s' y = Some x) xs ->
  forall s, exists ys s' k,
    mapM f xs s = (Ok ys, s') /\ s `prefix_of` s' /\
    traverse (rd k s') ys = Some xs.
Proof.
  intros Hrd Hall. induction Hall as [|x xs Hx _ IH]; intros s.
  - exists [], s, 0. cbn. auto.
  - destruct (Hx s) as (y & s1 & k1 & Hy & Hpre1 & Hr1).
    destruct (IH s1) as (ys & s2 & k2 & Hys & Hpre2 & Hr2).
    exists (y :: ys), s2, (Nat.max k1 k2).
    split; [|split].
    + cbn [mapM]. unfold mbind, M_bind. rewrite Hy, Hys. reflexivity.
    + etrans; eauto.
    + cbn [traverse].
      rewrite (Hrd k1 (Nat.max k1 k2) s1 s2 y x (Nat.le_max_l _ _) Hpre2 Hr1).
      erewrite traverse_impl; [reflexivity | | exact Hr2].
      intros b a Hb. eapply Hrd; [apply Nat.le_max_r | reflexivity | exact Hb].
Qed.

Lemma alloc_read (s : store) (o : obj) :
  (s ++ [o]) !! length s = Some o.
Proof. apply list_lookup_middle. reflexivity. Qed.

Lemma alloc_value_read (v : value) :
  forall s, exists r s' k,
    alloc_value v s = (Ok r, s') /\ s `prefix_of` s' /\ read k s' r = Some v.
Proof.
  induction v as [| b | z | x | l IH | d IH] using value_ind'; intros s;
    try (eexists _, s, 0; cbn; auto; fail).
  - destruct (mapM_read alloc_value read l read_mono IH s)
      as (l' & s1 & k & Hl & Hpre & Hr).
    exists (HRef (length s1)), (s1 ++ [OList l']), (S k).
    split; [|split].
    + cbn [alloc_value]. unfold mbind, M_bind. rewrite Hl. reflexivity.
    + etrans; [exact Hpre | now exists [OList l']].
    + cbn [read]. rewrite alloc_read.
      erewrite traverse_impl; [reflexivity | | exact Hr].
      intros y a Hy. eapply read_mono; [reflexivity | now exists [OList l'] | exact Hy].
  - destruct (mapM_read (fun kv => x ← alloc_value (snd kv); mret (fst kv, x))
                (fun k s kv => option_map (pair (fst kv)) (read k s (snd kv))) d)
      with (s := s) as (d' & s1 & k & Hd & Hpre & Hr).
    + intros k k' s0 s' b a Hk Hpre Hb.
      destruct (read k s0 (snd b)) as [y|] eqn:Hy; [|discriminate].
      erewrite read_mono; eauto.
    + eapply Forall_impl; [exact IH|]. intros [key x] Hx s0. cbn in Hx |- *.
      destruct (Hx s0) as (r & s' & k & Hr & Hpre & Hrd).
      exists (key, r), s', k. unfold mbind, M_bind. rewrite Hr. cbn.
      rewrite Hrd. auto.
    + exists (HRef (length s1)), (s1 ++ [ODict d']), (S k).
      split; [|split].
      * cbn [alloc_value]. unfold mbind, M_bind in Hd |- *. rewrite Hd. reflexivity.
      * etrans; [exact Hpre | now exists [ODict d']].
      * cbn [read]. rewrite alloc_read.
        erewrite traverse_impl; [reflexivity | | exact Hr].
        intros kv a Hkv. cbn in *.
        destruct (read k s1 (snd kv)) as [y|] eqn:Hy; [|discriminate].
        erewrite read_mono; [exact Hkv | reflexivity | now exists [ODict d'] | exact Hy].
Qed.

(** ** [_apply_defaults] leaves the defaults as they were *)

Lemma hoare_load_option (n : nat) ex (P : list tag -> Prop) (cfg : option value) :
  mono P ->
  hoare n ex P (load_option cfg) (fun tg v => typed_option n tg v).
Proof.
  intros HP. destruct cfg as [v|]; cbn [load_option].
  - eapply hoare_bind; [exact HP | apply (hoare_alloc_value n ex P HP v (Root, 0)) |].
    intros r. apply hoare_ret. intros tg [_ H]. exact H.
  - apply hoare_ret. intros tg _. exact I.
Qed.

Lemma load_option_returns (cfg : option value) (s : store) :
  exists c s', load_option cfg s = (Ok c, s').
Proof.
  destruct cfg as [v|]; cbn [load_option].
  - destruct (alloc_value_read v s) as (c & s' & k & Hc & _ & _).
    exists (Some c), s'. unfold mbind, M_bind. rewrite Hc. reflexivity.
  - exists None, s. reflexivity.
Qed.

(** The loaded defaults refer to themselves only. *)
Lemma alloc_value_closed (v : value) (r : hval) (s : store) :
  alloc_value v [] = (Ok r, s) -> closed (length s) s /\ below (length s) r.
Proof.
  intros Hv.
  assert (HI0 : InvX 0 true [] []).
  { exists []. split; [reflexivity|]. split; [reflexivity|]. split; [reflexivity|].
    split; [|intros a []]. intros a o t _ _ Hl. discriminate Hl. }
  destruct (hoare_alloc_value 0 true (fun _ => True) (mono_const True) v (Root, 0)
              [] [] (Ok r) s HI0 I Hv) as [_ Hok].
  destruct (Hok r eq_refl) as (tg & _ & (ex & Hex & HI) & Ht).
  rewrite (Hex eq_refl) in HI. split; [exact (Inv_closed tg s HI)|].
  eapply typed_below; [apply HI | exact Ht].
Qed.

(** C2, as far as it holds: whatever [_apply_defaults] does on a defaults
    document, a policy and a configuration -- return or raise --, the
    defaults document is afterwards what it was before the call, to every
    depth, and that is the document that was loaded: the merge works on a
    deep copy of the defaults.  The policy is not copied, and the
    statement does not extend to it. *)
Theorem apply_defaults_keeps_defaults (fuel : nat) (config : CaisConfig)
    (defaults policy : value) :
  exists r,
    apply_defaults_run fuel config defaults policy = Some r /\
    (forall k, read k (run_after r) (run_defaults r)
               = read k (run_before r) (run_defaults r)) /\
    exists k, read k (run_after r) (run_defaults r) = Some defaults.
Proof.
  destruct (alloc_value_read defaults []) as (d & s1 & k0 & Hd & _ & Hrd).
  destruct (alloc_value_read policy s1) as (p & s2 & k1 & Hp & _ & _).
  destruct (load_option_returns (always_notify config) s2) as (cfg & s3 & Hcfg).
  destruct (_apply_defaults fuel cfg d p s3) as [outcome s4] eqn:Hrun.
  exists {| run_defaults := d; run_policy := p; run_before := s3;
            run_outcome := outcome; run_after := s4 |}.
  split.
  { unfold apply_defaults_run. rewrite Hd, Hp, Hcfg, Hrun. reflexivity. }
  cbn [run_after run_before run_defaults].
  destruct (alloc_value_closed defaults d s1 Hd) as [Hcl Hbd].
  set (n := length s1) in *.
  assert (HI1 : InvX n true (replicate n (Root, 0)) s1).
  { exists []. split; [reflexivity | apply Inv_initial]. }
  destruct (hoare_alloc_value n true (fun _ => True) (mono_const True) policy (Root, 0)
              _ s1 (Ok p) s2 HI1 I Hp) as [Hf12 Hok2].
  destruct (Hok2 p eq_refl) as (tg2 & _ & HI2 & Htp).
  destruct (hoare_load_option n true (fun tg => typed n tg (Root, 0) p)
              (always_notify config) (typed_mono n (Root, 0) p)
              tg2 s2 (Ok cfg) s3 HI2 Htp Hcfg) as [Hf23 Hok3].
  destruct (Hok3 cfg eq_refl) as (tg3 & Hpre3 & HI3 & Htc).
  pose proof (typed_mono n (Root, 0) p tg2 tg3 Hpre3 Htp) as Htp3.
  assert (Hf13 : frame n s1 s3) by (eapply frame_trans; eauto).
  assert (Hf34 : frame n s3 s4).
  { apply (frames_apply_defaults n
             (fun tg => typed n tg (Root, 0) p /\ typed_option n tg cfg)
             fuel cfg d p) with (tg := tg3) (r := outcome).
    - apply mono_and; [apply typed_mono | apply typed_option_mono].
    - intros tg H. exact H.
    - exact HI3.
    - split; assumption.
    - exact Hrun. }
  assert (Hcl3 : closed n s3) by (eapply closed_frame; eauto).
  split.
  - intros k. apply (read_frame n s3 s4 Hcl3 Hf34 k d Hbd).
  - exists k0.
    rewrite (read_frame n s3 s4 Hcl3 Hf34 k0 d Hbd).
    rewrite (read_frame n s1 s3 Hcl Hf13 k0 d Hbd). exact Hrd.
Qed.

(** C2 as stated fails for the policy: the merge writes the defaults of a
    notify action into the policy's own action. *)
Lemma apply_defaults_changes_policy :
  exists r,
    apply_defaults_run 1000 plain_config notify_defaults stop_policy = Some r /\
    is_ok (run_outcome r) = true /\
    read 4 (run_before r) (run_policy r) = Some stop_policy /\
    read 4 (run_after r) (run_policy r)
    = Some (VDict [ ("name", VStr "ec2-stop");
                    ("resource", VStr "ec2");
                    ("actions",
                     VList [ VStr "stop";
                             VDict [ ("type", VStr "notify");
                                     ("subject", VStr "stopped");
                                     ("template", VStr "default.html");
                                     ("to", VList [VStr "ops@example.com"]) ] ]) ]) /\
    read 4 (run_after r) (run_policy r) <> read 4 (run_before r) (run_policy r).
Proof.
  eexists. split; [vm_compute; reflexivity|].
  split; [reflexivity|]. split; [reflexivity|]. split; [reflexivity|].
  vm_compute. discriminate.
Qed.

End HeapFacts.

(** * Further properties *)

(** ** [strip_doc] *)

Lemma lstrip_head (s : string) : head_ok (lstrip s) = true.
Proof.
  induction s as [|c s IH]; cbn; [reflexivity|].
  destruct (is_space c) eqn:E; [exact IH | cbn; now rewrite E].
Qed.

Lemma lstrip_id (s : string) : head_ok s = true -> lstrip s = s.
Proof.
  destruct s as [|c s]; cbn; [reflexivity|].
  intros H. apply negb_true_iff in H. now rewrite H.
Qed.

Lemma lstrip_split (s : string) :
  exists l, String.list_ascii_of_string s = l ++ String.list_ascii_of_string (lstrip s).
Proof.
  induction s as [|c s [l IH]]; cbn.
  - now exists [].
  - destruct (is_space c).
    + exists (c :: l). cbn. now rewrite IH.
    + now exists [].
Qed.

Lemma list_of_string_rev (s : string) :
  String.list_ascii_of_string (string_rev s) = rev (String.list_ascii_of_string s).
Proof. unfold string_rev. apply String.list_ascii_of_string_of_list_ascii. Qed.

Lemma string_rev_involutive (s : string) : string_rev (string_rev s) = s.
Proof.
  unfold string_rev at 1. rewrite list_of_string_rev, rev_involutive.
  apply String.string_of_list_ascii_of_string.
Qed.

Lemma head_ok_list (s : string) :
  head_ok s = match String.list_ascii_of_string s with
              | c :: _ => negb (is_space c)
              | [] => true
              end.
Proof. now destruct s. Qed.

Lemma ends_well_rev (s : string) : ends_well s = head_ok (string_rev s).
Proof.
  rewrite head_ok_list, list_of_string_rev.
  induction s as [|c s IH]; [reflexivity|].
  cbn [ends_well String.list_ascii_of_string rev].
  destruct s as [|c' s]; [reflexivity|].
  rewrite IH. cbn [String.list_ascii_of_string rev].
  destruct (rev (String.list_ascii_of_string s) ++ [c']) eqn:E; [|reflexivity].
  now destruct (rev (String.list_ascii_of_string s)).
Qed.

Lemma strip_head_ok (s : string) : head_ok (strip s) = true.
Proof.
  unfold strip.
  pose proof (lstrip_head s) as Hm.
  destruct (lstrip_split (string_rev (lstrip s))) as [l2 Hl2].
  rewrite list_of_string_rev in Hl2.
  rewrite head_ok_list, list_of_string_rev.
  rewrite head_ok_list in Hm.
  apply (f_equal (@rev ascii)) in Hl2. rewrite rev_involutive, rev_app_distr in Hl2.
  rewrite Hl2 in Hm.
  now destruct (rev (String.list_ascii_of_string (lstrip (string_rev (lstrip s))))).
Qed.

Lemma strip_ends_well (s : string) : ends_well (strip s) = true.
Proof.
  rewrite ends_well_rev. unfold strip. rewrite string_rev_involutive.
  apply lstrip_head.
Qed.

Lemma strip_id (s : string) : head_ok s = true -> ends_well s = true -> strip s = s.
Proof.
  intros Hh He. unfold strip. rewrite (lstrip_id s Hh).
  rewrite ends_well_rev in He. rewrite (lstrip_id _ He).
  apply string_rev_involutive.
Qed.

Lemma collapse_head_ok (s : string) : head_ok s = true -> head_ok (collapse s) = true.
Proof.
  destruct s as [|c s]; [reflexivity|]. cbn [head_ok collapse].
  intros H. apply negb_true_iff in H. rewrite H. cbn. now rewrite H.
Qed.

Lemma collapse_single_spaced (s : string) :
  ends_well s = true -> single_spaced (collapse s) = true.
Proof.
  induction s as [|c s IH]; [reflexivity|]. intros He.
  cbn [collapse]. destruct (is_space c) eqn:Ec.
  - destruct s as [|c' s'].
    + cbn in He. now rewrite Ec in He.
    + specialize (IH He). destruct (is_space c') eqn:Ec'; [exact IH|].
      cbn [single_spaced]. rewrite IH.
      cbn [collapse]. rewrite Ec'. cbn. now rewrite Ec'.
  - cbn [single_spaced]. rewrite Ec. cbn.
    destruct s as [|c' s']; [reflexivity|]. apply IH. exact He.
Qed.

(** What [strip_doc] returns is one line. *)
Lemma strip_doc_normal (doc : string) : one_line (strip_doc doc) = true.
Proof.
  unfold one_line, strip_doc. apply andb_true_iff. split.
  - apply collapse_head_ok, strip_head_ok.
  - apply collapse_single_spaced, strip_ends_well.
Qed.

Lemma single_spaced_collapse (s : string) : single_spaced s = true -> collapse s = s.
Proof.
  induction s as [|c s IH]; [reflexivity|]. cbn [single_spaced collapse].
  intros H. apply andb_true_iff in H as [Hc Hs]. rewrite (IH Hs).
  destruct (is_space c); [|reflexivity].
  apply andb_true_iff in Hc as [Hsp Hnext]. apply Ascii.eqb_eq in Hsp. subst c.
  destruct s as [|c' s']; [discriminate|]. apply negb_true_iff in Hnext.
  now rewrite Hnext.
Qed.

Lemma single_spaced_replace_newlines (s : string) :
  single_spaced s = true -> replace_newlines s = s.
Proof.
  induction s as [|c s IH]; [reflexivity|]. cbn [single_spaced replace_newlines].
  intros H. apply andb_true_iff in H as [Hc Hs]. rewrite (IH Hs).
  destruct (Ascii.eqb c nl) eqn:E; [|reflexivity].
  apply Ascii.eqb_eq in E. subst c. discriminate Hc.
Qed.

Lemma single_spaced_ends_well (s : string) : single_spaced s = true -> ends_well s = true.
Proof.
  induction s as [|c s IH]; [reflexivity|]. cbn [single_spaced ends_well].
  intros H. apply andb_true_iff in H as [Hc Hs].
  destruct s as [|c' s']; [|exact (IH Hs)].
  destruct (is_space c); [|reflexivity]. now apply andb_true_iff in Hc as [_ Hc].
Qed.

Lemma strip_doc_fixed (s : string) : one_line s = true -> strip_doc s = s.
Proof.
  unfold one_line, strip_doc. intros H. apply andb_true_iff in H as [Hh Hs].
  rewrite (single_spaced_replace_newlines s Hs).
  rewrite (strip_id s Hh (single_spaced_ends_well s Hs)).
  apply single_spaced_collapse. exact Hs.
Qed.

(** The description [strip_doc] makes of a docstring is one line: it
    does not begin or end with whitespace, and the only whitespace in it
    is a single space between two words; so it holds no newline. *)
Theorem strip_doc_one_line (doc : string) :
  one_line (strip_doc doc) = true /\
  str_has_char nl (strip_doc doc) = false /\
  str_contains "  " (strip_doc doc) = false.
Proof.
  pose proof (strip_doc_normal doc) as H. split; [exact H|].
  unfold one_line in H. apply andb_true_iff in H as [_ H].
  generalize dependent (strip_doc doc). intros s.
  induction s as [|c s IH]; [intros; split; reflexivity|].
  cbn [single_spaced str_has_char str_contains]. intros H.
  apply andb_true_iff in H as [Hc Hs]. destruct (IH Hs) as [IH1 IH2].
  rewrite IH1, IH2. split.
  - rewrite orb_false_r. destruct (Ascii.eqb nl c) eqn:E; [|reflexivity].
    apply Ascii.eqb_eq in E. subst c. discriminate Hc.
  - rewrite orb_false_r. cbn [startswith].
    destruct (Ascii.eqb " " c) eqn:E; [|reflexivity].
    apply Ascii.eqb_eq in E. subst c. cbn in Hc.
    destruct s as [|c' s']; [reflexivity|]. cbn [startswith andb].
    destruct (Ascii.eqb " " c') eqn:E'; [|reflexivity].
    apply Ascii.eqb_eq in E'. subst c'. discriminate Hc.
Qed.

(** [strip_doc] leaves a description it made as it is. *)
Theorem strip_doc_idempotent (doc : string) :
  strip_doc (strip_doc doc) = strip_doc doc.
Proof. apply strip_doc_fixed, strip_doc_normal. Qed.

(** ** [_check_policy_mark_for_op_bad_message] *)

Lemma check_message_dict (success : bool) (d : dict) :
  check_message success (VDict d)
  = if message_not_str (VDict d) then Raise AttributeError
    else Ok (success && negb (bad_message (VDict d))).
Proof.
  unfold check_message, message_not_str, bad_message, is_mark_for_op, get.
  destruct (dict_get "type" d) as [t|]; cbn -[py_eq endswith].
  2: { now rewrite andb_true_r. }
  destruct (py_eq t (VStr "mark-for-op")); cbn -[endswith];
    [|now rewrite andb_true_r].
  unfold dict_has. destruct (dict_get "message" d) as [m|]; cbn -[endswith];
    [|now rewrite andb_true_r].
  destruct m; cbn -[endswith]; try reflexivity.
  destruct (endswith s ": {op}@{action_date}"); cbn;
    [now rewrite andb_true_r | now rewrite andb_false_r].
Qed.

Lemma check_messages (acts : list value) (success : bool) :
  foldM check_message acts success
  = if existsb message_not_str acts then Raise AttributeError
    else Ok (success && negb (existsb bad_message acts)).
Proof.
  revert success. induction acts as [|a acts IH]; intros success; cbn [foldM existsb].
  - cbn. now rewrite andb_true_r.
  - assert (Ha : check_message success a
                 = if message_not_str a then Raise AttributeError
                   else Ok (success && negb (bad_message a))).
    { destruct a; try (cbn; now rewrite andb_true_r). apply check_message_dict. }
    rewrite Ha. destruct (message_not_str a); [reflexivity|]. cbn.
    rewrite IH. destruct (existsb message_not_str acts); [reflexivity|].
    now rewrite negb_orb, andb_assoc.
Qed.

Lemma chars_not_dict (s : string) (f : value -> bool) :
  (forall x, f (VStr x) = false) -> existsb f (chars s) = false.
Proof.
  intros Hf. unfold chars.
  induction (String.list_ascii_of_string s) as [|c l IH]; cbn; [reflexivity|].
  now rewrite Hf.
Qed.

Lemma keys_not_dict (d : dict) (f : value -> bool) :
  (forall x, f (VStr x) = false) -> existsb f (map VStr (keys d)) = false.
Proof.
  intros Hf. induction d as [|[k v] d IH]; cbn; [reflexivity|]. now rewrite Hf.
Qed.

(** What the bad-message check answers on a policy, by its [actions]:
    without the key it passes; on a list it fails when a mark-for-op
    action has a message that does not end with [: {op}@{action_date}],
    and passes otherwise, mark actions without a message included; but a
    mark-for-op action whose message is not a string makes it raise
    [AttributeError], whatever the other actions are.  Actions that are
    a string or a dictionary pass, and another value raises
    [TypeError]. *)
Theorem mark_for_op_bad_message_verdict (p : dict) :
  _check_policy_mark_for_op_bad_message (VDict p)
  = match dict_get "actions" p with
    | None => Ok true
    | Some (VList acts) =>
        if existsb message_not_str acts then Raise AttributeError
        else Ok (negb (existsb bad_message acts))
    | Some (VStr _) | Some (VDict _) => Ok true
    | Some _ => Raise TypeError
    end.
Proof.
  unfold _check_policy_mark_for_op_bad_message, has_key, contains, dict_has, getitem.
  destruct (dict_get "actions" p) as [a|]; [|reflexivity].
  cbn [mbind result_bind negb].
  destruct a as [| b | n | s | acts | d]; try reflexivity; cbn [iter mbind result_bind].
  - rewrite check_messages, !chars_not_dict; reflexivity.
  - apply check_messages.
  - rewrite check_messages, !keys_not_dict; reflexivity.
Qed.

(** ** [_check_policy_marked_for_op_first] *)

Lemma append_assoc (a b c : string) : (a +:+ b) +:+ c = a +:+ (b +:+ c).
Proof.
  induction a as [|x a IH]; [reflexivity|].
  exact (f_equal (String x) IH).
Qed.

Lemma append_nil_r (a : string) : a +:+ "" = a.
Proof.
  induction a as [|x a IH]; [reflexivity|].
  exact (f_equal (String x) IH).
Qed.

Ltac norm_app :=
  repeat match goal with
         | |- context [String ?c ?a +:+ ?b] =>
             change (String c a +:+ b) with (String c (a +:+ b))
         | |- context [EmptyString +:+ ?b] => change (EmptyString +:+ b) with b
         end.

Lemma startswith_app (n s : string) : startswith n (n +:+ s) = true.
Proof.
  induction n as [|c n IH]; norm_app; cbn [startswith]; [now destruct s|].
  now rewrite Ascii.eqb_refl, IH.
Qed.

Lemma str_contains_startswith (n s : string) :
  startswith n s = true -> str_contains n s = true.
Proof. intros H. destruct s; cbn [str_contains]; now rewrite H. Qed.

Lemma str_contains_app (n a b : string) : str_contains n (a +:+ (n +:+ b)) = true.
Proof.
  induction a as [|c a IH]; norm_app.
  - apply str_contains_startswith, startswith_app.
  - cbn [str_contains]. rewrite IH. apply orb_true_r.
Qed.

Lemma startswith_split (n s : string) :
  startswith n s = true -> exists v, s = n +:+ v.
Proof.
  revert s. induction n as [|x n IH]; intros s H; [now exists s|].
  destruct s as [|c s]; [discriminate|]. cbn [startswith] in H.
  apply andb_true_iff in H as [Hx Hn]. apply Ascii.eqb_eq in Hx. subst c.
  destruct (IH s Hn) as [v ->]. now exists v.
Qed.

Lemma str_contains_split (n s : string) :
  str_contains n s = true -> exists u v, s = u +:+ (n +:+ v).
Proof.
  induction s as [|c s IH]; cbn [str_contains]; intros H.
  - rewrite orb_false_r in H. destruct (startswith_split _ _ H) as [v Hv].
    now exists "", v.
  - apply orb_true_iff in H as [H | H].
    + destruct (startswith_split _ _ H) as [v Hv]. now exists "", v.
    + destruct (IH H) as (u & v & ->). now exists (String c u), v.
Qed.

Lemma str_contains_within (n a b s : string) :
  str_contains n s = true -> str_contains n (a +:+ (s +:+ b)) = true.
Proof.
  intros H. destruct (str_contains_split _ _ H) as (u & v & ->).
  rewrite (append_assoc u), (append_assoc n), <- (append_assoc a u).
  apply str_contains_app.
Qed.

Lemma join_fold (sep : string) (xs : list string) (acc : string) :
  fold_left (fun acc y => acc +:+ sep +:+ y) xs acc
  = acc +:+ fold_right (fun y r => sep +:+ y +:+ r) "" xs.
Proof.
  revert acc. induction xs as [|x xs IH]; intros acc; cbn [fold_left fold_right].
  - now rewrite append_nil_r.
  - rewrite IH, !append_assoc. reflexivity.
Qed.

(** What a part of an item is a part of the joined list. *)
Lemma join_contains (n sep x : string) (xs : list string) :
  In x xs -> str_contains n x = true -> str_contains n (join sep xs) = true.
Proof.
  intros Hin Hx.
  assert (HJ : forall xs, In x xs ->
            str_contains n (fold_right (fun y r => sep +:+ y +:+ r) "" xs) = true).
  { clear xs Hin. induction xs as [|y xs IH]; [intros []|]. cbn [fold_right].
    intros [-> | Hin].
    - now apply str_contains_within.
    - rewrite <- append_assoc, <- (append_nil_r (fold_right _ _ xs)).
      apply str_contains_within. auto. }
  destruct xs as [|y xs]; [destruct Hin|]. unfold join. rewrite join_fold.
  destruct Hin as [-> | Hin].
  - change (x +:+ ?r) with ("" +:+ (x +:+ r)). now apply str_contains_within.
  - rewrite <- (append_nil_r (fold_right _ _ xs)).
    apply str_contains_within. auto.
Qed.

Lemma repr_marked_filter (d : dict) :
  dict_get "type" d = Some (VStr "marked-for-op") ->
  str_contains "'type': 'marked-for-op'" (py_repr (VDict d)) = true.
Proof.
  intros H. apply dict_get_In in H. cbn [py_repr].
  apply str_contains_within. eapply join_contains.
  - apply in_map_iff. exists ("type", VStr "marked-for-op"). split; [reflexivity | exact H].
  - reflexivity.
Qed.

Lemma repr_marked_filters (fs : list value) (d : dict) :
  In (VDict d) fs -> dict_get "type" d = Some (VStr "marked-for-op") ->
  str_contains "'type': 'marked-for-op'" (py_str (VList fs)) = true.
Proof.
  intros Hin H. cbn [py_str py_repr]. apply str_contains_within.
  eapply join_contains.
  - apply in_map_iff. exists (VDict d). split; [reflexivity | exact Hin].
  - now apply repr_marked_filter.
Qed.

(** The marked-for-op check on a policy whose filters are a list.  It
    passes when the first filter is a marked-for-op filter.  When some
    filter of the list is a marked-for-op filter, it passes only then:
    a first filter of another type, or one that is no dictionary, makes
    it fail. *)
Theorem marked_for_op_first_verdict (p : dict) (f0 : value) (fs : list value) :
  dict_get "filters" p = Some (VList (f0 :: fs)) ->
  (is_marked_filter f0 = true ->
   _check_policy_marked_for_op_first (VDict p) = Ok true) /\
  ((exists d, In (VDict d) (f0 :: fs) /\
              dict_get "type" d = Some (VStr "marked-for-op")) ->
   _check_policy_marked_for_op_first (VDict p) = Ok (is_marked_filter f0)).
Proof.
  intros Hf.
  assert (Hrun : _check_policy_marked_for_op_first (VDict p)
                 = if negb (str_contains "'type': 'marked-for-op'"
                              (py_str (VList (f0 :: fs))))
                   then Ok true else Ok (is_marked_filter f0)).
  { unfold _check_policy_marked_for_op_first, has_key, contains, dict_has, getitem.
    rewrite Hf. cbn [mbind result_bind negb].
    destruct (negb _); [reflexivity|]. cbn [getitem0 mbind result_bind].
    destruct f0 as [| b | n | s | l | d]; try reflexivity.
    unfold get, is_marked_filter. now destruct (dict_get "type" d). }
  rewrite Hrun. split.
  - intros ->. now destruct (negb _).
  - intros (d & Hin & Hd). now rewrite (repr_marked_filters _ d Hin Hd).
Qed.

Lemma marked_for_op_first_verdict_witness :
  _check_policy_marked_for_op_first
    (VDict [ ("name", VStr "stop-marked");
             ("filters", VList [ VDict [("tag:Owner", VStr "absent")];
                                 VDict [("type", VStr "marked-for-op");
                                        ("op", VStr "stop")] ]) ])
  = Ok false.
Proof.
  apply (marked_for_op_first_verdict
           [ ("name", VStr "stop-marked");
             ("filters", VList [ VDict [("tag:Owner", VStr "absent")];
                                 VDict [("type", VStr "marked-for-op");
                                        ("op", VStr "stop")] ]) ]
           (VDict [("tag:Owner", VStr "absent")])
           [VDict [("type", VStr "marked-for-op"); ("op", VStr "stop")]]).
  - reflexivity.
  - exists [("type", VStr "marked-for-op"); ("op", VStr "stop")].
    split; [right; left; reflexivity | reflexivity].
Defined.

(** ** [_generate_cleanup_policies] *)

Lemma add_cleanup_filters_names (policies names : list value) (cwe l : list value) :
  Forall2 (fun p n => getitem p "name" = Ok n) policies names ->
  foldM add_cleanup_filters policies (cwe, l)
  = Ok (cwe ++ map (fun n => value_filter (VStr "Name") (VStr "ne")
                                (VStr ("custodian-" +:+ py_str n))) names,
        l ++ map (fun n => value_filter (VStr "tag:Component") (VStr "ne") n) names).
Proof.
  intros H. revert cwe l. induction H as [|p n policies names Hp _ IH]; intros cwe l.
  - cbn. now rewrite !app_nil_r.
  - cbn [foldM add_cleanup_filters map]. rewrite Hp. cbn [mbind result_bind].
    rewrite IH, <- !app_assoc. reflexivity.
Qed.

(** The cleanup policies exclude every policy they are given: after its
    own filters each of the two has one filter for each policy, in the
    order of the policies, that excludes the policy's name (the Lambda
    functions) or [custodian-] and the name (the event rules). *)
Theorem generate_cleanup_policies_filters (policies names : list value) :
  Forall2 (fun p n => getitem p "name" = Ok n) policies names ->
  _generate_cleanup_policies policies
  = Ok [ VDict (dict_set "filters"
                  (VList (base_filters lcleanup_base ++
                          map (fun n => value_filter (VStr "tag:Component") (VStr "ne") n)
                              names))
                  lcleanup_base);
         VDict (dict_set "filters"
                  (VList (base_filters cwecleanup_base ++
                          map (fun n => value_filter (VStr "Name") (VStr "ne")
                                          (VStr ("custodian-" +:+ py_str n)))
                              names))
                  cwecleanup_base) ].
Proof.
  intros H. unfold _generate_cleanup_policies.
  rewrite (add_cleanup_filters_names policies names _ _ H). reflexivity.
Qed.

Lemma generate_cleanup_policies_filters_witness :
  exists lam cwe,
    _generate_cleanup_policies [stop_policy; untagged_ec2] = Ok [VDict lam; VDict cwe] /\
    dict_get "filters" lam
    = Some (VList (base_filters lcleanup_base ++
                   [ value_filter (VStr "tag:Component") (VStr "ne") (VStr "ec2-stop");
                     value_filter (VStr "tag:Component") (VStr "ne")
                       (VStr "ec2-untagged") ])).
Proof.
  eexists _, _. split.
  - apply (generate_cleanup_policies_filters [stop_policy; untagged_ec2]
             [VStr "ec2-stop"; VStr "ec2-untagged"]).
    repeat constructor.
  - reflexivity.
Defined.

(** A policy without a name stops the generation with [KeyError]. *)
Lemma add_cleanup_filters_raises (policies : list value) (d : dict)
    (before after : list value) (st : list value * list value) :
  policies = before ++ VDict d :: after ->
  Forall (fun p => is_ok (getitem p "name") = true) before ->
  dict_get "name" d = None ->
  foldM add_cleanup_filters policies st = Raise (KeyError "name").
Proof.
  intros -> Hb Hd. revert st. induction Hb as [|p before Hp _ IH]; intros [cwe l].
  - cbn [app foldM add_cleanup_filters getitem]. now rewrite Hd.
  - cbn [app foldM add_cleanup_filters].
    destruct (getitem p "name") as [n|e]; [|discriminate]. cbn [mbind result_bind].
    apply IH.
Qed.

(** ** [_generate_configs] and [_check_policies] *)

Lemma failures_append_not_nil (name : value) (doc : string) (f : failures) :
  failures_append name doc f <> [].
Proof. destruct f as [|[n docs] f]; cbn; [|destruct (py_eq name n)]; discriminate. Qed.

Lemma run_check_passed (pol : value) (f : failures) (c : check) :
  run_check pol f c = Ok [] -> f = [] /\ chk c pol = Ok true.
Proof.
  unfold run_check. intros H. apply bind_Ok_inv in H as (passed & Hc & H).
  destruct passed; cbn [negb] in H; [simplify_eq; auto|].
  apply bind_Ok_inv in H as (name & _ & H).
  destruct (hashable name); [|discriminate].
  injection H as H. now apply failures_append_not_nil in H.
Qed.

Lemma run_checks_passed (pol : value) (checks : list check) :
  forall f, foldM (run_check pol) checks f = Ok [] ->
    f = [] /\ forall c, In c checks -> chk c pol = Ok true.
Proof.
  induction checks as [|c checks IH]; intros f H.
  - cbn in H. simplify_eq. split; [reflexivity | intros c []].
  - cbn [foldM] in H. apply bind_Ok_inv in H as (f1 & Hc & H).
    destruct (IH _ H) as [-> Hall].
    destruct (run_check_passed _ _ _ Hc) as [-> Hpass].
    split; [reflexivity|]. intros c' [<- | Hin]; auto.
Qed.

Lemma collect_failures_passed (checks : list check) (policies : list value) :
  forall f,
    foldM (fun f pol => foldM (run_check pol) checks f) policies f = Ok [] ->
    f = [] /\ forall pol c, In pol policies -> In c checks -> chk c pol = Ok true.
Proof.
  induction policies as [|pol policies IH]; intros f H.
  - cbn in H. simplify_eq. split; [reflexivity | intros pol c []].
  - cbn [foldM] in H. apply bind_Ok_inv in H as (f1 & Hp & H).
    destruct (IH _ H) as [-> Hall].
    destruct (run_checks_passed _ _ _ Hp) as [-> Hpass].
    split; [reflexivity|]. intros p c [<- | Hin]; auto.
Qed.

Lemma check_policies_returns (checks : list check) (policies : list value)
    (log : list string) :
  _check_policies_with checks policies = (log, Ok tt) ->
  log = [] /\ forall pol c, In pol policies -> In c checks -> chk c pol = Ok true.
Proof.
  unfold _check_policies_with, collect_failures.
  destruct (foldM _ policies []) as [f|e] eqn:Hf; [|discriminate].
  destruct f as [|e f].
  - cbn. intros [= <-]. split; [reflexivity|]. now apply collect_failures_passed in Hf.
  - cbn [length Nat.ltb Nat.leb]. destruct (sorted_names _); discriminate.
Qed.

(** [_generate_configs] returns a configuration only when every check
    returned [True] on every policy of it, the cleanup policies among
    them: a check that returns [False] or raises on one policy leaves no
    configuration.  Nothing is sent to [logger.error] when it returns. *)
Theorem generate_configs_validated (config : CaisConfig) (policies : dict)
    (defaults r : value) (log : list string) :
  _generate_configs config policies defaults = (log, Ok r) ->
  log = [] /\
  exists pols,
    r = VDict [("policies", VList pols)] /\
    forall pol c, In pol pols -> In c policy_checks -> chk c pol = Ok true.
Proof.
  intros H. unfold _generate_configs in H.
  match type of H with
  | (match ?g with _ => _ end) = _ => destruct g as [pols|e] eqn:Hgen
  end; [|simplify_eq].
  destruct (_check_policies pols) as [log' checked] eqn:Hchk.
  injection H as -> H. destruct checked as [[]|e]; [|discriminate].
  injection H as <-.
  destruct (check_policies_returns _ _ _ Hchk) as [-> Hall].
  split; [reflexivity|]. exists pols. split; [reflexivity | exact Hall].
Qed.

Lemma generate_configs_validated_witness :
  exists pols log,
    _generate_configs plain_config
      [("ec2-untagged", untagged_ec2); ("ec2-stop", stop_policy)] notify_defaults
      = (log, Ok (VDict [("policies", VList pols)])) /\
    log = [] /\
    forall pol c, In pol pols -> In c policy_checks -> chk c pol = Ok true.
Proof.
  assert (Hrun : { r | _generate_configs plain_config
      [("ec2-untagged", untagged_ec2); ("ec2-stop", stop_policy)] notify_defaults
      = ([], Ok r) }) by (eexists; vm_compute; reflexivity).
  destruct Hrun as [r Hr].
  destruct (generate_configs_validated plain_config
              [("ec2-untagged", untagged_ec2); ("ec2-stop", stop_policy)]
              notify_defaults r [] Hr)
    as (_ & pols & -> & Hall).
  exists pols, []. split; [exact Hr|]. split; [reflexivity | exact Hall].
Defined.

(** ** [_array_merge]: what becomes of the entries of the update *)

Lemma extends_refl (v : value) : extends v v.
Proof. now left. Qed.

Lemma fill_missing_keeps (d e : dict) (k : string) (x : value) :
  dict_get k e = Some x -> dict_get k (fill_missing e d) = Some x.
Proof.
  unfold fill_missing. revert e. induction d as [|[k0 v0] d IH]; intros e He; cbn.
  - exact He.
  - apply IH. destruct (dict_has k0 e) eqn:Hh; cbn; [exact He|].
    rewrite dict_get_set_ne; [exact He|].
    intros ->. apply dict_has_false in Hh. congruence.
Qed.

(** The first loop appends entries of the base that are no dictionaries
    to the update, and collects dictionaries of the base. *)
Lemma find_defaults_appends (b update update' : list value) (dd dd' : defs) :
  foldM find_default b (update, dd) = Ok (update', dd') ->
  exists e,
    update' = update ++ e /\
    Forall (fun x => In x b /\ is_dict x = false) e /\
    (forall t d, In (t, d) dd' -> In (t, d) dd \/ (In (VDict d) b /\ t = type_of d)).
Proof.
  revert update dd. induction b as [|v b IH]; intros update dd H.
  - cbn in H. simplify_eq. exists []. rewrite app_nil_r. auto.
  - cbn [foldM] in H. inv_bind H. destruct a as [u1 dd1].
    destruct (IH _ _ H) as (e & -> & He & Hdd).
    assert (He' : Forall (fun x => In x (v :: b) /\ is_dict x = false) e).
    { eapply Forall_impl; [exact He|]. intros x [? ?]. split; [now right | auto]. }
    destruct (is_dict v) eqn:Hv.
    + destruct v as [| | | | |d]; try discriminate.
      cbn [find_default] in Ha. apply bind_Ok_inv in Ha as (ty & Hty & Ha).
      rewrite get_type in Hty. injection Hty as <-.
      assert (u1 = update /\ dd1 = dd ++ [(type_of d, d)]) as [-> ->].
      { destruct (type_of d); try discriminate;
          apply bind_Ok_inv in Ha as (dup & _ & Ha);
          destruct dup; try discriminate; now simplify_eq. }
      exists e. split; [reflexivity|]. split; [exact He'|].
      intros t d0 Hin. destruct (Hdd t d0 Hin) as [Hin' | [Hin' Ht]].
      * apply in_app_iff in Hin' as [Hin' | [Heq | []]]; [now left|].
        simplify_eq. right. split; [now left | reflexivity].
      * right. split; [now right | exact Ht].
    + assert (Hu1 : dd1 = dd /\ (u1 = update \/ u1 = update ++ [v])).
      { destruct v; try discriminate; cbn in Ha;
          destruct (negb _); simplify_eq; auto. }
      destruct Hu1 as [-> [-> | ->]].
      * exists e. split; [reflexivity|]. split; [exact He'|].
        intros t d0 Hin.
        destruct (Hdd t d0 Hin) as [? | [? ?]]; [now left | right; split; [now right | auto]].
      * exists (v :: e). rewrite <- app_assoc. split; [reflexivity|].
        split; [constructor; [split; [now left | exact Hv] | exact He']|].
        intros t d0 Hin.
        destruct (Hdd t d0 Hin) as [? | [? ?]]; [now left | right; split; [now right | auto]].
Qed.

Lemma defs_del_In (t : value) (dd : defs) (e : value * dict) :
  In e (defs_del t dd) -> In e dd.
Proof.
  induction dd as [|[t' d] dd IH]; cbn; [auto|].
  destruct (py_eq t t'); [now right|]. intros [<- | Hin]; [now left | right; auto].
Qed.

(** The second loop leaves every entry in its place, a dictionary with
    the keys of a default it did not have. *)
Lemma do_updates_extends (update update' : list value) (dd dd' : defs) :
  do_updates update dd = Ok (update', dd') ->
  Forall2 extends update update' /\ (forall e, In e dd' -> In e dd).
Proof.
  revert update' dd dd'. induction update as [|i update IH]; intros update' dd dd' H.
  - cbn in H. simplify_eq. split; [constructor | auto].
  - cbn [do_updates] in H. inv_bind H. destruct a as [i' dd1].
    inv_bind H. destruct a as [rest' dd2]. cbn in H. simplify_eq.
    destruct (IH _ _ _ Ha0) as [Hrest Hdd].
    assert (Hi : extends i i' /\ forall e, In e dd1 -> In e dd).
    { destruct i as [| | | | |e]; try (cbn in Ha; simplify_eq; split; [now left | auto]).
      cbn [do_update] in Ha. apply bind_Ok_inv in Ha as (ty & _ & Ha).
      destruct ty; try (simplify_eq; split; [now left | auto]);
        apply bind_Ok_inv in Ha as (known & _ & Ha);
        (destruct known; cbn [negb] in Ha;
         [|simplify_eq; split; [now left | auto]]);
        (destruct (defs_get _ dd) as [d0|]; [|discriminate]); simplify_eq;
        (split; [right; eexists _, _; repeat split; apply fill_missing_keeps
                | intros x; apply defs_del_In]). }
    destruct Hi as [Hi Hdd1]. split; [constructor; assumption | auto].
Qed.

Lemma add_defaults_appends (path : list string) (update : list value) (dd : defs) :
  exists e, add_defaults path update dd = update ++ e /\
            Forall (fun x => exists t d, x = VDict d /\ In (t, d) dd /\
                                         (path = ["actions"] ->
                                          py_eq t (VStr "notify") = false)) e.
Proof.
  unfold add_defaults. revert update. induction dd as [|[t d] dd IH]; intros update.
  - exists []. cbn. now rewrite app_nil_r.
  - cbn [fold_left fst snd].
    assert (Hmono : forall e,
              Forall (fun x => exists t d, x = VDict d /\ In (t, d) dd /\
                                           (path = ["actions"] ->
                                            py_eq t (VStr "notify") = false)) e ->
              Forall (fun x => exists t0 d0, x = VDict d0 /\ In (t0, d0) ((t, d) :: dd) /\
                                             (path = ["actions"] ->
                                              py_eq t0 (VStr "notify") = false)) e).
    { intros e He. eapply Forall_impl; [exact He|].
      intros x (t0 & d0 & -> & Hin & Hn). exists t0, d0.
      split; [reflexivity|]. split; [now right | exact Hn]. }
    destruct (bool_decide (path = ["actions"]) && py_eq t (VStr "notify")) eqn:Hskip.
    + destruct (IH update) as (e & -> & He). exists e. auto.
    + destruct (IH (update ++ [VDict d])) as (e & -> & He).
      exists (VDict d :: e). rewrite <- app_assoc. split; [reflexivity|].
      constructor; [|auto]. exists t, d. split; [reflexivity|]. split; [now left|].
      intros Hp. apply andb_false_iff in Hskip as [Hskip | Hskip]; [|exact Hskip].
      apply bool_decide_eq_false in Hskip. contradiction.
Qed.

Lemma Forall2_extends_same (e e' : list value) :
  Forall (fun x => is_dict x = false) e -> Forall2 extends e e' -> e' = e.
Proof.
  intros He H. induction H as [|x x' e e' Hx _ IH]; [reflexivity|].
  apply Forall_cons in He as [Hd He]. rewrite (IH He). f_equal.
  destruct Hx as [-> | (d & d' & -> & _)]; [reflexivity | discriminate].
Qed.

(** The array merge keeps what the policy wrote: the result begins with
    the entries of the update, each in its place, a dictionary with all
    its keys and values, and ends with entries of the defaults' array. *)
Theorem array_merge_keeps_update (b update r : list value) (policy_name : value)
    (path : list string) :
  _array_merge (VList b) update policy_name path = Ok r ->
  exists update' added,
    r = update' ++ added /\
    Forall2 extends update update' /\
    Forall (fun x => In x b) added.
Proof.
  unfold _array_merge. intros H. inv_bind H. destruct a as [u1 dd1].
  inv_bind H. destruct a as [u2 dd2]. simplify_eq.
  destruct (find_defaults_appends _ _ _ _ _ Ha) as (e1 & -> & He1 & Hdd1).
  destruct (do_updates_extends _ _ _ _ Ha0) as [Hext Hdd2].
  destruct (add_defaults_appends path u2 dd2) as (e3 & -> & He3).
  apply Forall2_app_inv_l in Hext as (u2a & u2b & Hexta & Hextb & ->).
  assert (u2b = e1) as ->.
  { apply Forall2_extends_same; [|exact Hextb].
    eapply Forall_impl; [exact He1|]. now intros x [_ ?]. }
  exists u2a, (e1 ++ e3). rewrite <- app_assoc. split; [reflexivity|].
  split; [exact Hexta|]. apply Forall_app. split.
  - eapply Forall_impl; [exact He1|]. now intros x [? _].
  - eapply Forall_impl; [exact He3|]. intros x (t & d & -> & Hin & _).
    destruct (Hdd1 t d (Hdd2 _ Hin)) as [[] | [Hb _]]. exact Hb.
Qed.

Lemma array_merge_keeps_update_witness :
  exists update' added,
    [ VDict [("type", VStr "notify"); ("subject", VStr "stopped");
             ("to", VList [VStr "ops@example.com"])];
      VStr "stop";
      VDict [("type", VStr "tag"); ("key", VStr "Owner")] ]
    = update' ++ added /\
    Forall2 extends [VDict [("type", VStr "notify"); ("subject", VStr "stopped")]]
      update' /\
    Forall (fun x => In x [ VStr "stop";
                            VDict [("type", VStr "notify");
                                   ("to", VList [VStr "ops@example.com"])];
                            VDict [("type", VStr "tag"); ("key", VStr "Owner")] ])
      added.
Proof.
  apply (array_merge_keeps_update _ _ _ (VStr "ec2-stop") ["actions"]).
  reflexivity.
Defined.

(** A policy does not inherit the defaults' notify action: what the merge
    of [actions] adds to the policy's entries are entries of the
    defaults that are no notify actions. *)
Theorem array_merge_no_notify_added (b update r : list value) (policy_name : value) :
  _array_merge (VList b) update policy_name ["actions"] = Ok r ->
  exists update' added,
    r = update' ++ added /\
    length update' = length update /\
    Forall (fun x => In x b /\ is_notify x = false) added.
Proof.
  unfold _array_merge. intros H. inv_bind H. destruct a as [u1 dd1].
  inv_bind H. destruct a as [u2 dd2]. simplify_eq.
  destruct (find_defaults_appends _ _ _ _ _ Ha) as (e1 & -> & He1 & Hdd1).
  destruct (do_updates_extends _ _ _ _ Ha0) as [Hext Hdd2].
  destruct (add_defaults_appends ["actions"] u2 dd2) as (e3 & -> & He3).
  apply Forall2_app_inv_l in Hext as (u2a & u2b & Hexta & Hextb & ->).
  assert (u2b = e1) as ->.
  { apply Forall2_extends_same; [|exact Hextb].
    eapply Forall_impl; [exact He1|]. now intros x [_ ?]. }
  exists u2a, (e1 ++ e3). rewrite <- app_assoc. split; [reflexivity|].
  split; [symmetry; eapply Forall2_length; exact Hexta|]. apply Forall_app. split.
  - eapply Forall_impl; [exact He1|]. intros x [Hin Hd]. split; [exact Hin|].
    now destruct x.
  - eapply Forall_impl; [exact He3|]. intros x (t & d & -> & Hin & Hn).
    destruct (Hdd1 t d (Hdd2 _ Hin)) as [[] | [Hb ->]].
    split; [exact Hb | exact (Hn eq_refl)].
Qed.

Lemma array_merge_no_notify_added_witness :
  exists update' added,
    [VStr "stop"; VDict [("type", VStr "tag"); ("key", VStr "Owner")]]
    = update' ++ added /\
    length update' = length [VStr "stop"] /\
    Forall (fun x =>
              In x [ VDict [("type", VStr "notify");
                            ("to", VList [VStr "ops@example.com"])];
                     VDict [("type", VStr "tag"); ("key", VStr "Owner")] ] /\
              is_notify x = false) added.
Proof.
  apply (array_merge_no_notify_added _ _ _ (VStr "ec2-stop")). reflexivity.
Defined.

(** ** [_merge_conf]: the keys of the result *)

Lemma merge_item_mode_short rec (policy_name : value) (b : dict) (m t : value) :
  get m "type" (VStr "periodic") = Ok t ->
  py_eq t (VStr "periodic") = false ->
  merge_item rec policy_name [] (VDict b) "mode" m
  = Ok (VDict (dict_set "mode" m b), m).
Proof.
  intros Hget Hpy. unfold merge_item.
  change ([] ++ ["mode"]) with ["mode"].
  rewrite bool_decide_eq_true_2 by reflexivity.
  rewrite Hget. cbn [mbind result_bind]. rewrite Hpy. reflexivity.
Qed.

Lemma merge_items_mode_short (its b rd its' : dict) (policy_name m t : value) :
  merge_items its (VDict b) policy_name [] = Ok (VDict rd, its') ->
  NoDup (keys its) ->
  dict_get "mode" its = Some m ->
  get m "type" (VStr "periodic") = Ok t ->
  py_eq t (VStr "periodic") = false ->
  dict_get "mode" rd = Some m.
Proof.
  revert b its'. induction its as [|[k0 v0] its IH]; intros b its' H Hnd Hget Hty Hpy.
  - discriminate.
  - cbn [merge_items] in H. inv_bind H. destruct a as [b1 v0'].
    inv_bind H. destruct a as [b2 rest']. cbn in H. simplify_eq.
    cbn in Hnd. apply NoDup_cons in Hnd as [Hnotin Hnd].
    destruct (merge_item_dict _ _ _ _ _ _ _ _ Ha) as (x & ->).
    cbn [dict_get] in Hget. destruct (String.eqb "mode" k0) eqn:E.
    + apply eqb_true in E. simplify_eq.
      rewrite (merge_item_mode_short _ _ _ _ _ Hty Hpy) in Ha. simplify_eq.
      destruct (merge_items_dict _ _ _ _ _ _ Ha0) as (rd' & Heq & Hkeep & _).
      injection Heq as <-. rewrite Hkeep.
      * rewrite <- Ha. apply dict_get_set_eq.
      * intros Hin. apply Hnotin. now apply list_elem_of_In.
    + exact (IH _ _ Ha0 Hnd Hget Hty Hpy).
Qed.

(** A policy whose mode is not periodic keeps its mode: the result of the
    merge has the policy's mode as it is, nothing of the defaults' mode
    added. *)
Theorem merge_conf_mode_not_periodic (b u : dict) (policy_name r u' m t : value) :
  NoDup (keys u) ->
  dict_get "mode" u = Some m ->
  get m "type" (VStr "periodic") = Ok t ->
  py_eq t (VStr "periodic") = false ->
  _merge_conf (VDict b) (VDict u) policy_name [] = Ok (r, u') ->
  getitem r "mode" = Ok m.
Proof.
  intros Hnd Hget Hty Hpy H. rewrite merge_conf_unfold in H.
  inv_bind H. destruct a as [b1 its'].
  destruct (merge_items_dict _ _ _ _ _ _ Ha) as (rd & -> & _).
  pose proof (merge_items_mode_short _ _ _ _ _ _ _ Ha Hnd Hget Hty Hpy) as Hm.
  inv_bind H. destruct a.
  - inv_bind H. cbn in Ha1. destruct (dict_has "actions" rd); [|discriminate].
    simplify_eq. cbn. rewrite dict_get_del_ne by discriminate. now rewrite Hm.
  - simplify_eq. cbn. now rewrite Hm.
Qed.

Lemma merge_conf_mode_not_periodic_witness :
  getitem
    (VDict [ ("mode", VDict [ ("type", VStr "cloudtrail");
                              ("tags", VDict [("Env", VStr "dev")]) ]);
             ("name", VStr "p1") ])
    "mode"
  = Ok (VDict [("type", VStr "cloudtrail"); ("tags", VDict [("Env", VStr "dev")])]).
Proof.
  apply (merge_conf_mode_not_periodic
           [ ("mode", VDict [ ("type", VStr "periodic");
                              ("schedule", VStr "rate(1 day)");
                              ("tags", VDict [("Env", VStr "prod")]) ]) ]
           [ ("name", VStr "p1");
             ("mode", VDict [ ("type", VStr "cloudtrail");
                              ("tags", VDict [("Env", VStr "dev")]) ]) ]
           (VStr "p1") _
           (VDict [ ("name", VStr "p1");
                    ("mode", VDict [ ("type", VStr "cloudtrail");
                                     ("tags", VDict [("Env", VStr "dev")]) ]) ])
           _ (VStr "cloudtrail")).
  - apply (bool_decide_unpack _). vm_compute. exact I.
  - reflexivity.
  - reflexivity.
  - reflexivity.
  - reflexivity.
Defined.

(** What the merge leaves under the top-level keys: a key only the
    defaults have keeps the defaults' value (but [actions], which a
    policy without actions drops); a key the policy has with a scalar
    has the policy's scalar; and every key of the policy is a key of the
    result. *)
Theorem merge_conf_keys (b u : dict) (policy_name r u' : value) :
  NoDup (keys u) ->
  _merge_conf (VDict b) (VDict u) policy_name [] = Ok (r, u') ->
  exists rd,
    r = VDict rd /\
    (forall k, ~ In k (keys u) -> k <> "actions" -> dict_get k rd = dict_get k b) /\
    (forall k v, dict_get k u = Some v -> is_dict v = false -> is_list v = false ->
                 dict_get k rd = Some v) /\
    (forall k, In k (keys u) -> dict_has k rd = true).
Proof.
  intros Hnd H. rewrite merge_conf_unfold in H.
  inv_bind H. destruct a as [b1 its'].
  destruct (merge_items_dict _ _ _ _ _ _ Ha) as (rd & -> & Hkeep & Hhas & _).
  pose proof (fun k v H1 H2 H3 =>
                merge_items_scalar _ _ _ _ _ _ k v Ha Hnd H1 H2 H3) as Hscalar.
  inv_bind H. destruct a.
  - inv_bind H. cbn in Ha1. destruct (dict_has "actions" rd) eqn:Hact; [|discriminate].
    cbn in Ha0. rewrite Hact in Ha0. cbn in Ha0.
    assert (Hnu : dict_has "actions" u = false).
    { destruct (dict_has "actions" u); [discriminate | reflexivity]. }
    assert (Hk : forall k, In k (keys u) -> k <> "actions").
    { intros k Hin ->. apply keys_In_has in Hin. congruence. }
    simplify_eq. eexists. split; [reflexivity|]. repeat split.
    + intros k Hk1 Hk2. rewrite dict_get_del_ne by congruence. auto.
    + intros k v Hv Hd Hl. rewrite dict_get_del_ne; [eauto|].
      apply not_eq_sym, Hk. apply keys_In_has, dict_has_get. eauto.
    + intros k Hin. apply dict_has_get.
      rewrite dict_get_del_ne by (apply not_eq_sym; auto).
      apply dict_has_get. auto.
  - simplify_eq. exists rd. repeat split; auto.
Qed.

Lemma merge_conf_keys_witness :
  exists rd,
    VDict [ ("mode", VDict [("type", VStr "periodic"); ("schedule", VStr "rate(1 day)")]);
            ("name", VStr "ec2-stop"); ("resource", VStr "ec2") ]
    = VDict rd /\
    (forall k, ~ In k ["name"; "resource"] -> k <> "actions" ->
               dict_get k rd
               = dict_get k
                   [ ("mode", VDict [("type", VStr "periodic");
                                     ("schedule", VStr "rate(1 day)")]);
                     ("actions", VList [VStr "stop"]) ]) /\
    (forall k v, dict_get k [("name", VStr "ec2-stop"); ("resource", VStr "ec2")] = Some v ->
                 is_dict v = false -> is_list v = false -> dict_get k rd = Some v) /\
    (forall k, In k ["name"; "resource"] -> dict_has k rd = true).
Proof.
  apply (merge_conf_keys
           [ ("mode", VDict [("type", VStr "periodic"); ("schedule", VStr "rate(1 day)")]);
             ("actions", VList [VStr "stop"]) ]
           [("name", VStr "ec2-stop"); ("resource", VStr "ec2")]
           (VStr "ec2-stop") _
           (VDict [("name", VStr "ec2-stop"); ("resource", VStr "ec2")])).
  - apply (bool_decide_unpack _). vm_compute. exact I.
  - reflexivity.
Defined.

(** ** [_apply_defaults]: what it needs and what it returns *)

Lemma add_always_notify_actions (config : CaisConfig) (c : dict) (r : value) :
  _add_always_notify config (VDict c) = Ok r ->
  dict_has "actions" c = true ->
  exists rd, r = VDict rd /\ dict_has "actions" rd = true.
Proof.
  unfold _add_always_notify. intros H Hc.
  destruct (always_notify config) as [desired|]; [|simplify_eq; eauto].
  inv_bind H. inv_bind H.
  destruct a0; try (inv_bind H; inv_bind H; discriminate).
  inv_bind H.
  destruct a0; cbn in H; simplify_eq; eexists; (split; [reflexivity|]);
    apply dict_has_get; rewrite dict_get_set_eq; eauto.
Qed.

(** [_apply_defaults] returns only for a defaults dictionary and a policy
    dictionary with a name, one of which has a mode; what it returns is a
    dictionary with a mode that is a dictionary with a type, and with
    actions. *)
Theorem apply_defaults_returns (config : CaisConfig) (defaults policy r : value) :
  _apply_defaults config defaults policy = Ok r ->
  (exists d p, defaults = VDict d /\ policy = VDict p /\
               dict_has "name" p = true /\
               dict_has "mode" d || dict_has "mode" p = true) /\
  (exists rd m, r = VDict rd /\ dict_get "mode" rd = Some (VDict m) /\
                dict_has "type" m = true /\ dict_has "actions" rd = true).
Proof.
  intros H. unfold _apply_defaults in H.
  apply bind_Ok_inv in H as (name & Hname & H).
  destruct policy as [| | | | |p]; try discriminate.
  assert (Hp : dict_has "name" p = true).
  { cbn in Hname. apply dict_has_get. destruct (dict_get "name" p); [eauto | discriminate]. }
  apply bind_Ok_inv in H as ([conf policy'] & Hmerge & H).
  rewrite merge_conf_unfold in Hmerge.
  apply bind_Ok_inv in Hmerge as ([b1 its'] & Hitems & Hmerge).
  assert (Hne : p <> []) by (intros ->; discriminate).
  pose proof (merge_items_base_dict _ _ _ _ _ _ Hitems Hne) as Hb.
  destruct defaults as [| | | | |d]; try discriminate.
  destruct (merge_items_dict _ _ _ _ _ _ Hitems) as (rd0 & -> & Hkeep & _).
  assert (Hconf : exists c, conf = VDict c /\ dict_get "mode" c = dict_get "mode" rd0).
  { apply bind_Ok_inv in Hmerge as (drop & _ & Hmerge). destruct drop.
    - apply bind_Ok_inv in Hmerge as (b2 & Hdel & Hmerge). cbn in Hdel.
      destruct (dict_has "actions" rd0); [|discriminate]. simplify_eq.
      eexists. split; [reflexivity|]. now rewrite dict_get_del_ne.
    - simplify_eq. eauto. }
  destruct Hconf as (c & -> & Hc).
  apply bind_Ok_inv in H as (mode & Hmode & H).
  apply bind_Ok_inv in H as (ty & Hty & H).
  destruct mode as [| | | | |m]; try discriminate.
  assert (Hm : dict_get "mode" c = Some (VDict m)).
  { cbn in Hmode. destruct (dict_get "mode" c); [now simplify_eq | discriminate]. }
  assert (Hmt : dict_has "type" m = true).
  { cbn in Hty. apply dict_has_get. destruct (dict_get "type" m); [eauto | discriminate]. }
  split.
  { exists d, p. repeat split; [exact Hp|].
    destruct (dict_has "mode" p) eqn:Hmp; [apply orb_true_r|].
    rewrite orb_false_r. apply dict_has_get. exists (VDict m).
    rewrite <- Hkeep; [now rewrite <- Hc|].
    intros Hin. apply keys_In_has in Hin. congruence. }
  apply bind_Ok_inv in H as (mode1 & Hmode1 & H).
  assert (H1 : exists m1, mode1 = VDict m1 /\ dict_has "type" m1 = true).
  { destruct (py_eq ty (VStr "periodic")); [|simplify_eq; eauto].
    apply bind_Ok_inv in Hmode1 as (has_tags & _ & Hmode1).
    destruct has_tags; cbn in Hmode1; simplify_eq; [eauto|].
    eexists. split; [reflexivity|]. apply dict_has_get.
    rewrite dict_get_set_ne by discriminate. now apply dict_has_get. }
  destruct H1 as (m1 & -> & Hm1).
  apply bind_Ok_inv in H as (has_tags & _ & H).
  apply bind_Ok_inv in H as (mode2 & Hmode2 & H).
  assert (H2 : exists m2, mode2 = VDict m2 /\ dict_has "type" m2 = true).
  { destruct has_tags; [|simplify_eq; eauto].
    apply bind_Ok_inv in Hmode2 as (tags & _ & Hmode2).
    apply bind_Ok_inv in Hmode2 as (dmode & _ & Hmode2).
    apply bind_Ok_inv in Hmode2 as (dtags & _ & Hmode2).
    apply bind_Ok_inv in Hmode2 as (tags1 & _ & Hmode2).
    apply bind_Ok_inv in Hmode2 as (name' & _ & Hmode2).
    apply bind_Ok_inv in Hmode2 as (tags2 & _ & Hmode2).
    cbn in Hmode2. simplify_eq. eexists. split; [reflexivity|].
    apply dict_has_get. rewrite dict_get_set_ne by discriminate.
    now apply dict_has_get. }
  destruct H2 as (m2 & -> & Hm2).
  apply bind_Ok_inv in H as (conf1 & Hconf1 & H). cbn in Hconf1. simplify_eq.
  apply bind_Ok_inv in H as (has_actions & Hact & H).
  apply bind_Ok_inv in H as (conf2 & Hconf2 & H).
  assert (H3 : exists c2, conf2 = VDict c2 /\ dict_get "mode" c2 = Some (VDict m2) /\
                          dict_has "actions" c2 = true).
  { clear -Hact Hconf2. cbn in Hact. injection Hact as <-.
    destruct (dict_has "actions" (dict_set "mode" (VDict m2) c)) eqn:Ha;
      cbn in Hconf2; simplify_eq; eexists; (split; [reflexivity|]).
    - split; [apply dict_get_set_eq | exact Ha].
    - split; [rewrite dict_get_set_ne by discriminate; apply dict_get_set_eq|].
      apply dict_has_get. rewrite dict_get_set_eq. eauto. }
  destruct H3 as (c2 & -> & Hc2 & Hc2a).
  destruct (add_always_notify_actions _ _ _ H Hc2a) as (rd & -> & Hrd).
  exists rd, m2. split; [reflexivity|]. split; [|split; assumption].
  pose proof (add_always_notify_keeps _ _ _ "mode" H) as Hk.
  cbn in Hk. rewrite Hc2 in Hk.
  destruct (dict_get "mode" rd); [|discriminate Hk; discriminate].
  injection Hk as ->; [reflexivity | discriminate].
Qed.

Lemma apply_defaults_returns_witness :
  (exists d p, notify_defaults = VDict d /\ stop_policy = VDict p /\
               dict_has "name" p = true /\
               dict_has "mode" d || dict_has "mode" p = true) /\
  (exists rd m,
     VDict [ ("mode", VDict [ ("type", VStr "periodic");
                              ("schedule", VStr "rate(1 day)");
                              ("tags", VDict [("Component", VStr "ec2-stop")]) ]);
             ("actions", VList [ VStr "stop";
                                 VDict [ ("type", VStr "notify");
                                         ("subject", VStr "stopped");
                                         ("template", VStr "default.html");
                                         ("to", VList [VStr "ops@example.com"]) ] ]);
             ("name", VStr "ec2-stop"); ("resource", VStr "ec2") ]
     = VDict rd /\
     dict_get "mode" rd = Some (VDict m) /\
     dict_has "type" m = true /\ dict_has "actions" rd = true).
Proof.
  apply (apply_defaults_returns plain_config notify_defaults stop_policy). reflexivity.
Defined.

(** ** [_policy_comment] *)

Lemma py_strip_ok (v r : value) :
  py_strip v = Ok r ->
  exists s, v = VStr s /\ r = VStr (strip s).
Proof. destruct v; try discriminate. intros [= <-]. eauto. Qed.

Lemma policy_comment_keys_ok (policy r : value) (ks : list string) :
  policy_comment_keys policy ks = Ok r ->
  r = VStr "unknown" \/
  exists k s, In k ks /\ getitem policy k = Ok (VStr s) /\ r = VStr (strip s).
Proof.
  induction ks as [|k ks IH]; cbn [policy_comment_keys]; intros H.
  - left. now simplify_eq.
  - apply bind_Ok_inv in H as (present & _ & H). destruct present.
    + apply bind_Ok_inv in H as (v & Hv & H).
      destruct (py_strip_ok _ _ H) as (s & -> & ->).
      right. exists k, s. split; [now left | auto].
    + destruct (IH H) as [-> | (k' & s & Hin & Hget & ->)]; [now left|].
      right. exists k', s. split; [now right | auto].
Qed.

Lemma string_of_list_app (l1 l2 : list ascii) :
  String.string_of_list_ascii (l1 ++ l2)
  = String.string_of_list_ascii l1 +:+ String.string_of_list_ascii l2.
Proof. induction l1 as [|c l1 IH]; [reflexivity|]. exact (f_equal (String c) IH). Qed.

(** What [strip] returns is a part of the text. *)
Lemma strip_split (s : string) : exists a b, s = a +:+ strip s +:+ b.
Proof.
  destruct (lstrip_split s) as [l1 H1].
  destruct (lstrip_split (string_rev (lstrip s))) as [l2 H2].
  rewrite list_of_string_rev in H2.
  exists (String.string_of_list_ascii l1), (String.string_of_list_ascii (rev l2)).
  rewrite <- (String.string_of_list_ascii_of_string (strip s)).
  rewrite <- !string_of_list_app.
  rewrite <- (String.string_of_list_ascii_of_string s) at 1. f_equal.
  rewrite H1. f_equal. unfold strip. rewrite list_of_string_rev.
  rewrite <- (rev_involutive (String.list_ascii_of_string (lstrip s))), H2.
  now rewrite rev_app_distr.
Qed.

(** The description of a policy is a string without ASCII whitespace at
    its ends: [unknown], or a part of the string the policy has as its
    comment, comments or description, which for a text of ASCII
    characters is the text without the whitespace around it. *)
Theorem policy_comment_stripped (policy r : value) :
  _policy_comment policy = Ok r ->
  exists s,
    r = VStr s /\ head_ok s = true /\ ends_well s = true /\
    (s = "unknown" \/
     exists k c, In k ["comment"; "comments"; "description"] /\
                 getitem policy k = Ok (VStr c) /\
                 (exists a b, c = a +:+ s +:+ b) /\
                 (is_ascii c = true -> s = strip c)).
Proof.
  intros H. destruct (policy_comment_keys_ok _ _ _ H) as [-> | (k & c & Hin & Hget & ->)].
  - exists "unknown". repeat split. now left.
  - exists (strip c). split; [reflexivity|].
    split; [apply strip_head_ok|]. split; [apply strip_ends_well|].
    right. exists k, c. split; [exact Hin|]. split; [exact Hget|].
    split; [apply strip_split | reflexivity].
Qed.

Lemma policy_comment_stripped_witness :
  exists s,
    VStr "Stop instances without an owner" = VStr s /\
    head_ok s = true /\ ends_well s = true /\
    (s = "unknown" \/
     exists k c, In k ["comment"; "comments"; "description"] /\
                 getitem (VDict [ ("name", VStr "ec2-untagged");
                                  ("description",
                                   VStr "  Stop instances without an owner ") ])
                   k = Ok (VStr c) /\
                 (exists a b, c = a +:+ s +:+ b) /\
                 (is_ascii c = true -> s = strip c)).
Proof.
  apply (policy_comment_stripped
           (VDict [ ("name", VStr "ec2-untagged");
                    ("description", VStr "  Stop instances without an owner ") ])).
  reflexivity.
Defined.

(** A [comment] that is no string, such as an empty [comment:] in the
    YAML, makes [_policy_comment] raise [AttributeError], also when the
    policy has [comments] or a [description]. *)
Theorem policy_comment_not_a_string (p : dict) (v : value) :
  dict_get "comment" p = Some v -> is_str v = false ->
  _policy_comment (VDict p) = Raise AttributeError.
Proof.
  intros Hc Hv. unfold _policy_comment. cbn [policy_comment_keys].
  unfold has_key, contains, dict_has, getitem. rewrite Hc. cbn [mbind result_bind].
  now destruct v.
Qed.

Lemma policy_comment_not_a_string_witness :
  _policy_comment
    (VDict [ ("name", VStr "ec2-untagged"); ("comment", VNone);
             ("description", VStr "Stop instances without an owner") ])
  = Raise AttributeError.
Proof.
  apply (policy_comment_not_a_string _ VNone); reflexivity.
Defined.

(** ** Reading the policy files *)

Lemma bind_Loaded_inv {A B} (m : ioresult A) (f : A -> ioresult B) (b : B) :
  (m ≫= f) = Loaded b -> exists a, m = Loaded a /\ f a = Loaded b.
Proof. destruct m as [a|e]; [eauto | discriminate]. Qed.

Lemma lift_exn_Loaded {A} (m : result A) (a : A) : lift_exn m = Loaded a -> m = Ok a.
Proof. destruct m; [now intros [= ->] | discriminate]. Qed.

(** What a file adds to [res]. *)
Lemma read_policy_file_Loaded (fs : filesystem) (subdir f : string) (res res' : dict) :
  read_policy_file fs subdir res f = Loaded res' ->
  res' = res \/
  exists y, res' = dict_set (before_dot f) y res /\
            (before_dot f <> "defaults" ->
             get y "name" (VStr "") = Ok (VStr (before_dot f))).
Proof.
  unfold read_policy_file. destruct (negb (endswith f ".yml")); [intros [= <-]; now left|].
  intros H. apply bind_Loaded_inv in H as (y & _ & H). right. exists y.
  destruct (String.eqb (before_dot f) "defaults") eqn:E; cbn [negb] in H.
  - apply eqb_true in E. injection H as <-. split; [reflexivity | congruence].
  - apply bind_Loaded_inv in H as (n & Hn & H). apply lift_exn_Loaded in Hn.
    destruct (py_eq n (VStr (before_dot f))) eqn:Hpy; cbn [negb] in H.
    + injection H as <-. split; [reflexivity|]. intros _.
      apply py_eq_VStr_r in Hpy. now subst n.
    + apply bind_Loaded_inv in H as (n' & _ & H). discriminate.
Qed.

Lemma read_policy_files_named (fs : filesystem) (subdir : string) (files : list string) :
  forall res res',
    foldM_io (read_policy_file fs subdir) files res = Loaded res' ->
    NoDup (keys res) ->
    (forall name y, dict_get name res = Some y -> name <> "defaults" ->
                    get y "name" (VStr "") = Ok (VStr name)) ->
    NoDup (keys res') /\
    (forall name y, dict_get name res' = Some y -> name <> "defaults" ->
                    get y "name" (VStr "") = Ok (VStr name)).
Proof.
  induction files as [|f files IH]; intros res res' H Hnd Hres.
  - injection H as <-. auto.
  - cbn [foldM_io] in H. apply bind_Loaded_inv in H as (res1 & Hf & H).
    apply (IH _ _ H).
    + destruct (read_policy_file_Loaded _ _ _ _ _ Hf) as [-> | (y & -> & _)];
        [exact Hnd | now apply NoDup_keys_set].
    + destruct (read_policy_file_Loaded _ _ _ _ _ Hf) as [-> | (y & -> & Hy)];
        [exact Hres|].
      intros name y0 Hget Hname.
      destruct (String.eqb name (before_dot f)) eqn:E.
      * apply eqb_true in E. subst name. rewrite dict_get_set_eq in Hget.
        injection Hget as <-. auto.
      * apply eqb_false in E. rewrite dict_get_set_ne in Hget by congruence. eauto.
Qed.

Lemma read_policies_Loaded (fs : filesystem) (subdir : string) (res : dict) :
  _read_policies fs subdir = Loaded res ->
  res = [] \/
  exists files,
    listdir fs (path_join "policies" subdir) = Some files /\
    foldM_io (read_policy_file fs subdir) files [] = Loaded res.
Proof.
  unfold _read_policies.
  destruct (listdir fs (path_join "policies" subdir)) as [files|];
    [|intros [= <-]; now left].
  destruct (foldM_io _ files []) as [r|e] eqn:E.
  - intros [= <-]. right. eauto.
  - destruct e; [intros [= <-]; now left | discriminate ..].
Qed.

Lemma read_policies_inv (fs : filesystem) (subdir : string) (res : dict) :
  _read_policies fs subdir = Loaded res ->
  NoDup (keys res) /\
  forall name y, dict_get name res = Some y -> name <> "defaults" ->
                 get y "name" (VStr "") = Ok (VStr name).
Proof.
  intros H. destruct (read_policies_Loaded _ _ _ H) as [-> | (files & _ & Hf)].
  - split; [constructor | discriminate].
  - apply (read_policy_files_named _ _ _ _ _ Hf); [constructor | discriminate].
Qed.

(** The policies [_read_policies] returns are named as their files: the
    policy under a key other than [defaults] is a dictionary whose name,
    the empty string if it has none, is the key; and no key is there
    twice. *)
Theorem read_policies_named (fs : filesystem) (subdir : string) (res : dict) :
  _read_policies fs subdir = Loaded res ->
  NoDup (keys res) /\
  forall name y, dict_get name res = Some y -> name <> "defaults" ->
                 get y "name" (VStr "") = Ok (VStr name).
Proof. apply read_policies_inv. Qed.

(** A file that cannot be opened empties the result: [_read_policies]
    returns the empty dictionary, without the policies read before, and
    raises nothing. *)
Theorem read_policies_unreadable_file (fs : filesystem) (subdir f : string)
    (before after : list string) (res : dict) :
  listdir fs (path_join "policies" subdir) = Some (before ++ f :: after) ->
  foldM_io (read_policy_file fs subdir) before [] = Loaded res ->
  endswith f ".yml" = true ->
  file_contents fs (path_join (path_join "policies" subdir) f) = None ->
  _read_policies fs subdir = Loaded [].
Proof.
  intros Hl Hb Hf Hc. unfold _read_policies. rewrite Hl.
  assert (Happ : forall xs ys acc,
            foldM_io (read_policy_file fs subdir) (xs ++ ys) acc
            = (foldM_io (read_policy_file fs subdir) xs acc
                 ≫= foldM_io (read_policy_file fs subdir) ys)).
  { induction xs as [|x xs IH]; intros ys acc; [reflexivity|].
    cbn [app foldM_io]. destruct (read_policy_file fs subdir acc x); [apply IH | reflexivity]. }
  assert (Hfail : read_policy_file fs subdir res f = Failed OSError).
  { unfold read_policy_file. rewrite Hf. cbn [negb].
    unfold _read_file_yaml. rewrite Hc. reflexivity. }
  rewrite Happ, Hb. cbn [mbind ioresult_bind foldM_io]. rewrite Hfail. reflexivity.
Qed.

Lemma read_policies_named_witness :
  NoDup (keys [("ec2-stop", stop_policy); ("ec2-untagged", untagged_ec2_east)]) /\
  forall name y,
    dict_get name [("ec2-stop", stop_policy); ("ec2-untagged", untagged_ec2_east)]
    = Some y ->
    name <> "defaults" -> get y "name" (VStr "") = Ok (VStr name).
Proof.
  apply (read_policies_named example_fs "dev/us-east-1"). reflexivity.
Defined.

Lemma read_policies_unreadable_file_witness :
  _read_policies example_fs "all_accounts/common" = Loaded [].
Proof.
  apply (read_policies_unreadable_file example_fs "all_accounts/common" "missing.yml"
           ["ec2-untagged.yml"] [] [("ec2-untagged", untagged_ec2)]);
    reflexivity.
Defined.

(** ** [_read_policy_directory] *)

Lemma amap_get_set_eq {A} (k : string) (x : A) (m : list (string * A)) :
  amap_get k (amap_set k x m) = Some x.
Proof.
  induction m as [|[k' x'] m IH]; cbn.
  - now rewrite eqb_refl.
  - destruct (String.eqb k k') eqn:E; cbn; rewrite E; [reflexivity | exact IH].
Qed.

Lemma amap_get_set_ne {A} (k k' : string) (x : A) (m : list (string * A)) :
  k <> k' -> amap_get k (amap_set k' x m) = amap_get k m.
Proof.
  intros Hne. induction m as [|[k0 x0] m IH]; cbn.
  - destruct (String.eqb k k') eqn:E; [apply eqb_true in E; congruence | reflexivity].
  - destruct (String.eqb k' k0) eqn:E0; cbn.
    + apply eqb_true in E0. subst k0.
      destruct (String.eqb k k') eqn:E; [apply eqb_true in E; congruence | reflexivity].
    + destruct (String.eqb k k0); [reflexivity | exact IH].
Qed.

(** A loop that stores under every key what [g] loads for it. *)
Lemma foldM_io_amap_set {A} (g : string -> ioresult A)
    (f : list (string * A) -> string -> ioresult (list (string * A)))
    (ks : list string) (acc m : list (string * A)) (k : string) :
  foldM_io f ks acc = Loaded m ->
  (forall m k, f m k = (x ← g k; Loaded (amap_set k x m))) ->
  (In k ks -> exists x, g k = Loaded x /\ amap_get k m = Some x) /\
  (~ In k ks -> amap_get k m = amap_get k acc).
Proof.
  intros H Hf. revert acc H. induction ks as [|k0 ks IH]; intros acc H.
  - injection H as <-. split; [intros [] | reflexivity].
  - cbn [foldM_io] in H. apply bind_Loaded_inv in H as (acc1 & Hk & H).
    rewrite Hf in Hk. apply bind_Loaded_inv in Hk as (x & Hx & Hk). injection Hk as <-.
    destruct (IH _ H) as [IH1 IH2]. split.
    + intros Hin.
      destruct (in_dec String.string_dec k ks) as [Hin' | Hnin]; [auto|].
      destruct Hin as [<- | Hin]; [|contradiction].
      exists x. split; [exact Hx|]. rewrite (IH2 Hnin). apply amap_get_set_eq.
    + intros Hnin. rewrite IH2 by (intros Hin; apply Hnin; now right).
      apply amap_get_set_ne. intros ->. apply Hnin. now left.
Qed.

Lemma read_policy_directory_inv (fs : filesystem) (regions : list string)
    (policy_dir : string) (region_policies : region_map) :
  _read_policy_directory fs regions policy_dir = Loaded region_policies ->
  exists common,
    _read_policies fs (path_join policy_dir "common") = Loaded common /\
    forall rname, In rname regions ->
      exists own,
        _read_policies fs (path_join policy_dir rname) = Loaded own /\
        NoDup (keys own) /\
        amap_get rname region_policies = Some (dict_update common own).
Proof.
  unfold _read_policy_directory. intros H.
  apply bind_Loaded_inv in H as (common & Hcommon & H).
  exists common. split; [exact Hcommon|]. intros rname Hin.
  destruct (foldM_io_amap_set
              (fun rname => policies ← _read_policies fs (path_join policy_dir rname);
                            Loaded (dict_update common policies))
              _ _ _ _ rname H) as [Hk _].
  { intros m k. now destruct (_read_policies fs (path_join policy_dir k)). }
  destruct (Hk Hin) as (x & Hx & Hget).
  apply bind_Loaded_inv in Hx as (own & Hown & Hx). injection Hx as <-.
  exists own. split; [exact Hown|]. split; [|exact Hget].
  apply (read_policies_inv _ _ _ Hown).
Qed.

(** In every region the policies of the region's directory override the
    common ones under the same name; the other common policies are
    there as they are. *)
Theorem read_policy_directory_layers (fs : filesystem) (regions : list string)
    (policy_dir : string) (region_policies : region_map) :
  _read_policy_directory fs regions policy_dir = Loaded region_policies ->
  exists common,
    _read_policies fs (path_join policy_dir "common") = Loaded common /\
    forall rname, In rname regions ->
      exists own policies,
        _read_policies fs (path_join policy_dir rname) = Loaded own /\
        amap_get rname region_policies = Some policies /\
        forall name,
          dict_get name policies
          = match dict_get name own with
            | Some y => Some y
            | None => dict_get name common
            end.
Proof.
  intros H. destruct (read_policy_directory_inv _ _ _ _ H) as (common & Hcommon & Hr).
  exists common. split; [exact Hcommon|]. intros rname Hin.
  destruct (Hr rname Hin) as (own & Hown & Hnd & Hget).
  exists own, (dict_update common own). split; [exact Hown|]. split; [exact Hget|].
  intros name. now apply dict_get_update.
Qed.

Lemma read_policy_directory_layers_witness :
  exists common,
    _read_policies example_fs (path_join "dev" "common") = Loaded common /\
    forall rname, In rname ["us-east-1"; "eu-west-1"] ->
      exists own policies,
        _read_policies example_fs (path_join "dev" rname) = Loaded own /\
        amap_get rname
          [ ("us-east-1", [ ("ec2-untagged", untagged_ec2_east);
                            ("ec2-stop", stop_policy) ]);
            ("eu-west-1", [("ec2-untagged", untagged_ec2)]) ]
        = Some policies /\
        forall name,
          dict_get name policies
          = match dict_get name own with
            | Some y => Some y
            | None => dict_get name common
            end.
Proof.
  apply (read_policy_directory_layers example_fs ["us-east-1"; "eu-west-1"] "dev").
  reflexivity.
Defined.

(** ** [run]: the policies of an account *)

Lemma NoDup_keys_update (d e : dict) : NoDup (keys d) -> NoDup (keys (dict_update d e)).
Proof.
  unfold dict_update. revert d. induction e as [|[k v] e IH]; intros d Hd; cbn; [exact Hd|].
  apply IH. now apply NoDup_keys_set.
Qed.

Lemma layer_regions_inv (acct_conf : region_map) (regions : list string) :
  (forall r own, In r regions -> amap_get r acct_conf = Some own -> NoDup (keys own)) ->
  forall conf0 conf,
    foldM_io (layer_region acct_conf) regions conf0 = Loaded conf ->
    forall r,
      (In r regions ->
       exists shared own policies,
         amap_get r conf0 = Some shared /\ amap_get r acct_conf = Some own /\
         amap_get r conf = Some policies /\
         forall name,
           dict_get name policies
           = match dict_get name own with
             | Some y => Some y
             | None => dict_get name shared
             end) /\
      (~ In r regions -> amap_get r conf = amap_get r conf0).
Proof.
  intros Hnd. induction regions as [|r0 regions IH]; intros conf0 conf H r.
  - injection H as <-. split; [intros [] | reflexivity].
  - specialize (IH (fun r own Hin => Hnd r own (or_intror Hin))).
    pose proof (fun own => Hnd r0 own (or_introl eq_refl)) as Hnd0.
    cbn [foldM_io] in H. apply bind_Loaded_inv in H as (conf1 & Hr0 & H).
    unfold layer_region in Hr0.
    destruct (amap_get r0 conf0) as [shared0|] eqn:Hs0; [|discriminate].
    destruct (amap_get r0 acct_conf) as [own0|] eqn:Ho0; [|discriminate].
    injection Hr0 as <-. destruct (IH _ _ H r) as [IH1 IH2].
    destruct (String.string_dec r r0) as [-> | Hne].
    + split; [intros _ | intros Hnin; exfalso; apply Hnin; now left].
      exists shared0, own0.
      destruct (in_dec String.string_dec r0 regions) as [Hin | Hnin].
      * destruct (IH1 Hin) as (shared & own & policies & Hs & Ho & Hp & Hget).
        rewrite amap_get_set_eq in Hs. injection Hs as <-.
        rewrite Ho0 in Ho. injection Ho as <-.
        exists policies. split; [exact Hs0|]. split; [exact Ho0|]. split; [exact Hp|].
        intros name. rewrite Hget, dict_get_update by auto.
        now destruct (dict_get name own0).
      * exists (dict_update shared0 own0).
        split; [exact Hs0|]. split; [exact Ho0|]. split.
        -- rewrite (IH2 Hnin). apply amap_get_set_eq.
        -- intros name. apply dict_get_update. auto.
    + rewrite amap_get_set_ne in IH1, IH2 by exact Hne. split.
      * intros [Heq | Hin]; [congruence | auto].
      * intros Hnin. apply IH2. intros Hin. apply Hnin. now right.
Qed.

(** The policies [run] generates from, for an account and a region: a
    policy of the account's directory for the region comes first, then one
    of the same name in the account's [common] directory, then the one of
    [all_accounts] for the region, then the one of [all_accounts/common]. *)
Theorem run_policy_precedence (fs : filesystem) (regions accounts : list string)
    (defaults : value) (acct_configs : account_map) (acctname rname : string) :
  run_read fs regions accounts = Loaded (defaults, acct_configs) ->
  In acctname accounts -> In rname regions ->
  exists all_common all_region acct_common acct_region policies,
    _read_policies fs (path_join "all_accounts" "common") = Loaded all_common /\
    _read_policies fs (path_join "all_accounts" rname) = Loaded all_region /\
    _read_policies fs (path_join acctname "common") = Loaded acct_common /\
    _read_policies fs (path_join acctname rname) = Loaded acct_region /\
    policies_of acct_configs acctname rname = Some policies /\
    forall name,
      dict_get name policies
      = match dict_get name acct_region with
        | Some y => Some y
        | None =>
            match dict_get name acct_common with
            | Some y => Some y
            | None =>
                match dict_get name all_region with
                | Some y => Some y
                | None => dict_get name all_common
                end
            end
        end.
Proof.
  unfold run_read. intros H Ha Hr.
  apply bind_Loaded_inv in H as (defaults' & _ & H).
  apply bind_Loaded_inv in H as (all_accts & Hall & H).
  apply bind_Loaded_inv in H as (configs & Hfold & H). injection H as _ <-.
  destruct (read_policy_directory_inv _ _ _ _ Hall) as (all_common & Hac & Hallr).
  destruct (Hallr rname Hr) as (all_region & Har & Hnd_ar & Hget_all).
  destruct (foldM_io_amap_set
              (fun acctname =>
                 acct_conf ← _read_policy_directory fs regions acctname;
                 foldM_io (layer_region acct_conf) regions all_accts)
              _ _ _ _ acctname Hfold) as [Hk _].
  { intros m k. unfold read_account.
    destruct (_read_policy_directory fs regions k) as [acct_conf|]; [|reflexivity].
    cbn [mbind ioresult_bind].
    now destruct (foldM_io (layer_region acct_conf) regions all_accts). }
  destruct (Hk Ha) as (conf & Hconf & Hget).
  apply bind_Loaded_inv in Hconf as (acct_conf & Hacct & Hconf).
  destruct (read_policy_directory_inv _ _ _ _ Hacct) as (acct_common & Hcc & Hacctr).
  destruct (Hacctr rname Hr) as (acct_region & Hcr & Hnd_cr & Hget_acct).
  assert (Hnd : forall r own, In r regions -> amap_get r acct_conf = Some own ->
                              NoDup (keys own)).
  { intros r own Hin Hown. destruct (Hacctr r Hin) as (o & Ho & Hnd & Hget').
    rewrite Hget' in Hown. injection Hown as <-.
    apply NoDup_keys_update. apply (read_policies_inv _ _ _ Hcc). }
  destruct (proj1 (layer_regions_inv _ _ Hnd _ _ Hconf rname) Hr)
    as (shared & own & policies & Hs & Ho & Hp & Hlayer).
  rewrite Hget_all in Hs. injection Hs as <-.
  rewrite Hget_acct in Ho. injection Ho as <-.
  exists all_common, all_region, acct_common, acct_region, policies.
  repeat split; try assumption.
  - unfold policies_of. now rewrite Hget.
  - intros name. rewrite Hlayer, !dict_get_update by assumption.
    destruct (dict_get name acct_region); [reflexivity|].
    now destruct (dict_get name acct_common).
Qed.

Lemma run_policy_precedence_witness :
  exists all_common all_region acct_common acct_region policies,
    _read_policies example_fs (path_join "all_accounts" "common") = Loaded all_common /\
    _read_policies example_fs (path_join "all_accounts" "eu-west-1") = Loaded all_region /\
    _read_policies example_fs (path_join "dev" "common") = Loaded acct_common /\
    _read_policies example_fs (path_join "dev" "eu-west-1") = Loaded acct_region /\
    policies_of
      [ ("dev",
         [ ("us-east-1", [ ("ec2-untagged", untagged_ec2_east);
                           ("ec2-stop", stop_policy) ]);
           ("eu-west-1", [ ("p1", periodic_policy "p1");
                           ("ec2-untagged", untagged_ec2) ]) ]) ]
      "dev" "eu-west-1"
    = Some policies /\
    forall name,
      dict_get name policies
      = match dict_get name acct_region with
        | Some y => Some y
        | None =>
            match dict_get name acct_common with
            | Some y => Some y
            | None =>
                match dict_get name all_region with
                | Some y => Some y
                | None => dict_get name all_common
                end
            end
        end.
Proof.
  apply (run_policy_precedence example_fs ["us-east-1"; "eu-west-1"] ["dev"]
           notify_defaults).
  - reflexivity.
  - now left.
  - right. now left.
Defined.

(** ** [_write_custodian_configs] *)

Lemma replace_from_absent (c : ascii) (old new s : string) :
  str_has_char c s = false -> replace_from (String c old) new 0 s = s.
Proof.
  induction s as [|x s IH]; [reflexivity|]. cbn [str_has_char replace_from startswith].
  intros H. apply orb_false_iff in H as [Hx Hs]. rewrite Hx. cbn [andb].
  now rewrite (IH Hs).
Qed.

Lemma py_replace_absent (c : ascii) (old : string) (v : value) (conf : string) :
  str_has_char c conf = false -> is_str v = true ->
  py_replace conf (String c old, v) = Ok conf.
Proof.
  intros Hc Hv. destruct v; try discriminate. unfold py_replace. cbn [fst snd].
  unfold str_replace. now rewrite replace_from_absent.
Qed.

Lemma replace_all_absent (c : ascii) (l : list (string * value)) (conf : string) :
  str_has_char c conf = false ->
  Forall (fun mv => startswith (String c EmptyString) (fst mv) = true /\
                    is_str (snd mv) = true) l ->
  foldM py_replace l conf = Ok conf.
Proof.
  intros Hc Hl. induction Hl as [|[m v] l [Hm Hv] _ IH]; [reflexivity|].
  cbn [foldM]. cbn [fst snd] in Hm, Hv.
  destruct m as [|c' m]; [discriminate|]. cbn [startswith] in Hm.
  apply andb_true_iff in Hm as [Hc' _]. apply Ascii.eqb_eq in Hc'. subst c'.
  rewrite (py_replace_absent c m v conf Hc Hv). exact IH.
Qed.

Lemma env_replacements_ok (environ : list (string * string)) :
  Forall (fun mv => startswith "%" (fst mv) = true /\ is_str (snd mv) = true)
    (env_replacements environ).
Proof.
  unfold env_replacements. apply Forall_forall. intros mv Hin.
  apply list_elem_of_In, in_map_iff in Hin as (kv & <- & _). split; reflexivity.
Qed.

Lemma replace_all_raises (l : list (string * value)) (conf : string) :
  forallb (fun mv => is_str (snd mv)) l = false ->
  foldM py_replace l conf = Raise TypeError.
Proof.
  revert conf. induction l as [|[m v] l IH]; intros conf H; [discriminate|].
  cbn [forallb fst snd] in H. cbn [foldM]. unfold py_replace at 1. cbn [fst snd].
  destruct v; try reflexivity. cbn [mbind result_bind]. apply IH. exact H.
Qed.

Lemma replace_all_ok (l : list (string * value)) (conf : string) :
  forallb (fun mv => is_str (snd mv)) l = true ->
  exists s, foldM py_replace l conf = Ok s.
Proof.
  revert conf. induction l as [|[m v] l IH]; intros conf H; [now exists conf|].
  cbn [forallb fst snd] in H. apply andb_true_iff in H as [Hv Hl].
  cbn [foldM]. unfold py_replace at 1. cbn [fst snd].
  destruct v; try discriminate. cbn [mbind result_bind]. apply IH. exact Hl.
Qed.

Lemma forallb_env (environ : list (string * string)) :
  forallb (fun mv => is_str (snd mv)) (env_replacements environ) = true.
Proof.
  unfold env_replacements. induction (List.filter _ environ) as [|kv l IH];
    [reflexivity | exact IH].
Qed.

(** A serialized configuration without a percent sign is written as it
    is, to [custodian_REGION.yml], when the values of the configuration
    are strings. *)
Theorem write_custodian_configs_plain (config : OutputConfig)
    (environ : list (string * string)) (yaml_dump : value -> string)
    (res queue_url : value) (region_name : string) :
  getitem (mailer_config config) "queue_url" = Ok queue_url ->
  forallb is_str (substituted config queue_url) = true ->
  str_has_char "%" (yaml_dump res) = false ->
  _write_custodian_configs config environ yaml_dump res region_name
  = Ok ("custodian_" +:+ region_name +:+ ".yml", yaml_dump res).
Proof.
  intros Hq Hstr Hdump. unfold _write_custodian_configs.
  rewrite Hq. cbn [mbind result_bind].
  rewrite (replace_all_absent "%"%char); [reflexivity | exact Hdump |].
  unfold substituted in Hstr. cbn [forallb] in Hstr.
  repeat (apply andb_true_iff in Hstr as [? Hstr]).
  apply Forall_app. split; [|apply env_replacements_ok].
  unfold config_replacements. repeat constructor; assumption.
Qed.

(** Given the mailer's queue URL, the writer raises [TypeError] exactly
    when one of the six values it substitutes is not a string, whether
    its macro is in the text or not; otherwise it returns the file. *)
Theorem write_custodian_configs_raises (config : OutputConfig)
    (environ : list (string * string)) (yaml_dump : value -> string)
    (res queue_url : value) (region_name : string) :
  getitem (mailer_config config) "queue_url" = Ok queue_url ->
  (forallb is_str (substituted config queue_url) = false ->
   _write_custodian_configs config environ yaml_dump res region_name
   = Raise TypeError) /\
  (forallb is_str (substituted config queue_url) = true ->
   exists conf,
     _write_custodian_configs config environ yaml_dump res region_name
     = Ok ("custodian_" +:+ region_name +:+ ".yml", conf)).
Proof.
  intros Hq. unfold _write_custodian_configs. rewrite Hq. cbn [mbind result_bind].
  set (l := _ ++ env_replacements environ).
  assert (Hl : forallb (fun mv => is_str (snd mv)) l
               = forallb is_str (substituted config queue_url)).
  { subst l. rewrite forallb_app, forallb_env. unfold substituted, config_replacements.
    cbn [forallb fst snd is_str]. now rewrite !andb_true_r. }
  split; intros H; rewrite <- Hl in H.
  - now rewrite (replace_all_raises l _ H).
  - destruct (replace_all_ok l (yaml_dump res) H) as [s ->]. now exists s.
Qed.

(** *** A macro in the text *)

Lemma replace_from_prefix (c : ascii) (old new a t : string) :
  str_has_char c a = false ->
  replace_from (String c old) new 0 (a +:+ t)
  = a +:+ replace_from (String c old) new 0 t.
Proof.
  induction a as [|x a IH]; [reflexivity|]. norm_app.
  cbn [str_has_char]. intros H. apply orb_false_iff in H as [Hx Ha].
  cbn [replace_from startswith]. rewrite Hx. cbn [andb]. now rewrite (IH Ha).
Qed.

Lemma startswith_has_char (c : ascii) (p s : string) :
  startswith p s = true -> str_has_char c s = false -> str_has_char c p = false.
Proof.
  revert s. induction p as [|x p IH]; intros s H Hs; [reflexivity|].
  destruct s as [|y s]; [discriminate|]. cbn [startswith] in H.
  apply andb_true_iff in H as [Hx Hp]. apply Ascii.eqb_eq in Hx. subst y.
  cbn [str_has_char] in *. apply orb_false_iff in Hs as [Hc Hs].
  rewrite Hc. cbn. eauto.
Qed.

Lemma startswith_may_start (old s b : string) :
  str_has_char "%" b = false ->
  startswith old (s +:+ b) = true -> may_start old s = true.
Proof.
  intros Hb. revert old. induction s as [|y s IH]; intros old H; norm_app.
  - destruct old as [|x old]; [reflexivity|]. cbn [may_start].
    now rewrite (startswith_has_char _ _ _ H Hb).
  - destruct old as [|x old]; [reflexivity|]. revert H. norm_app.
    cbn [startswith may_start]. intros H.
    apply andb_true_iff in H as [Hx Hs]. rewrite Hx. cbn. auto.
Qed.

Lemma replace_from_clear (c : ascii) (old new s b : string) :
  clear_of (String c old) s = true ->
  str_has_char "%" b = false -> c = "%"%char ->
  replace_from (String c old) new 0 (s +:+ b) = s +:+ b.
Proof.
  intros Hs Hb ->. induction s as [|y s IH]; norm_app.
  - now apply replace_from_absent.
  - cbn [clear_of] in Hs. apply andb_true_iff in Hs as [Hy Hs].
    apply negb_true_iff in Hy.
    assert (Hst : startswith (String "%" old) (String y (s +:+ b)) = false).
    { destruct (startswith _ _) eqn:E; [|reflexivity].
      change (String y (s +:+ b)) with (String y s +:+ b) in E.
      apply (startswith_may_start _ _ _ Hb) in E. congruence. }
    cbn [replace_from]. rewrite Hst. now rewrite (IH Hs).
Qed.

Lemma replace_from_skip (old new m b : string) :
  replace_from old new (String.length m) (m +:+ b) = replace_from old new 0 b.
Proof.
  induction m as [|x m IH]; norm_app; [|exact IH].
  cbn [String.length]. now destruct b.
Qed.

(** The pattern itself, between two texts without a percent sign. *)
Lemma str_replace_once (old new a b : string) :
  startswith "%" old = true ->
  str_has_char "%" a = false -> str_has_char "%" b = false ->
  str_replace (a +:+ old +:+ b) old new = a +:+ new +:+ b.
Proof.
  intros Ho Ha Hb. destruct old as [|c old]; [discriminate|].
  cbn [startswith] in Ho. apply andb_true_iff in Ho as [Hc _].
  apply Ascii.eqb_eq in Hc. subst c. unfold str_replace.
  rewrite (replace_from_prefix _ _ _ _ _ Ha). f_equal. norm_app.
  cbn [replace_from].
  change (String "%" (old +:+ b)) with (String "%" old +:+ b).
  rewrite startswith_app. f_equal.
  replace (String.length (String "%" old) - 1) with (String.length old)
    by (cbn [String.length]; lia).
  rewrite replace_from_skip. now apply replace_from_absent.
Qed.

Lemma has_char_app (c : ascii) (a b : string) :
  str_has_char c (a +:+ b) = str_has_char c a || str_has_char c b.
Proof.
  induction a as [|x a IH]; norm_app; [reflexivity|].
  cbn [str_has_char]. now rewrite IH, orb_assoc.
Qed.

Lemma py_replace_str (conf m v : string) :
  py_replace conf (m, VStr v) = Ok (str_replace conf m v).
Proof. reflexivity. Qed.

(** No macro of the configuration can begin inside another one. *)
Lemma macros_clear (config : OutputConfig) (queue_url : value) (region_name : string) :
  let names := map fst (config_replacements config queue_url region_name) in
  forallb (fun m' => forallb (fun m => String.eqb m' m || clear_of m' m) names) names
  = true.
Proof. reflexivity. Qed.

(** One macro of the configuration in a text that has no other percent
    sign is replaced by its value, when that has no percent sign and the
    values of the configuration are strings: the text around the macro is
    written as it is. *)
Theorem write_custodian_configs_macro (config : OutputConfig)
    (environ : list (string * string)) (yaml_dump : value -> string)
    (res queue_url : value) (region_name macro val a b : string) :
  getitem (mailer_config config) "queue_url" = Ok queue_url ->
  forallb is_str (substituted config queue_url) = true ->
  In (macro, VStr val) (config_replacements config queue_url region_name) ->
  yaml_dump res = a +:+ macro +:+ b ->
  str_has_char "%" a = false -> str_has_char "%" b = false ->
  str_has_char "%" val = false ->
  _write_custodian_configs config environ yaml_dump res region_name
  = Ok ("custodian_" +:+ region_name +:+ ".yml", a +:+ val +:+ b).
Proof.
  intros Hq Hstr Hin Hdump Ha Hb Hval. unfold _write_custodian_configs.
  rewrite Hq, Hdump. cbn [mbind result_bind].
  pose proof (macros_clear config queue_url region_name) as Hclear. cbn zeta in Hclear.
  assert (Hall : Forall (fun mv => startswith "%" (fst mv) = true /\
                                   is_str (snd mv) = true)
                   (config_replacements config queue_url region_name)).
  { unfold substituted in Hstr. cbn [forallb] in Hstr.
    repeat (apply andb_true_iff in Hstr as [? Hstr]).
    unfold config_replacements. repeat constructor; assumption. }
  assert (Hnd : NoDup (map fst (config_replacements config queue_url region_name))).
  { apply (bool_decide_unpack _). vm_compute. exact I. }
  revert Hin Hclear Hall Hnd.
  generalize (config_replacements config queue_url region_name) as l. intros l Hin Hclear Hall Hnd.
  apply in_split in Hin as (pre & post & ->).
  rewrite <- app_assoc, foldM_app.
  assert (Hpre : foldM py_replace pre (a +:+ macro +:+ b) = Ok (a +:+ macro +:+ b)).
  { rewrite map_app in Hnd, Hclear. cbn [map fst] in Hnd, Hclear.
    apply Forall_app in Hall as [Hpre _].
    assert (Hcl : Forall (fun mv => fst mv <> macro /\ clear_of (fst mv) macro = true) pre).
    { apply Forall_forall. intros [m' v'] Hm'. apply list_elem_of_In in Hm'.
      assert (Hne : m' <> macro).
      { intros ->. apply NoDup_app in Hnd as (_ & Hdis & _).
        apply (Hdis macro).
        - apply list_elem_of_In, in_map_iff. exists (macro, v'). auto.
        - left. }
      split; [exact Hne|].
      rewrite forallb_forall in Hclear.
      assert (Hm1 : In m' (map fst pre ++ macro :: map fst post)).
      { apply in_or_app. left. apply in_map_iff. exists (m', v'). auto. }
      specialize (Hclear m' Hm1). rewrite forallb_forall in Hclear.
      assert (Hm2 : In macro (map fst pre ++ macro :: map fst post)).
      { apply in_or_app. right. now left. }
      specialize (Hclear macro Hm2). cbn [fst].
      apply orb_true_iff in Hclear as [E | E]; [|exact E].
      apply eqb_true in E. contradiction. }
    clear -Hpre Hcl Ha Hb.
    induction pre as [|[m' v'] pre IH]; [reflexivity|].
    apply Forall_cons in Hpre as [[Hm' Hv'] Hpre].
    apply Forall_cons in Hcl as [[_ Hc] Hcl]. cbn [fst snd] in *.
    cbn [foldM]. destruct v'; try discriminate.
    destruct m' as [|c m']; [discriminate|].
    cbn [startswith] in Hm'. apply andb_true_iff in Hm' as [Hc0 _].
    apply Ascii.eqb_eq in Hc0. subst c.
    rewrite py_replace_str. cbn [mbind result_bind].
    unfold str_replace.
    rewrite (replace_from_prefix _ _ _ _ _ Ha).
    rewrite (replace_from_clear _ _ _ _ _ Hc Hb eq_refl). auto. }
  rewrite Hpre. cbn [mbind result_bind app foldM].
  apply Forall_app in Hall as [_ Hall]. apply Forall_cons in Hall as [[Hm _] Hpost].
  cbn [fst snd] in Hm. rewrite py_replace_str. cbn [mbind result_bind].
  rewrite (str_replace_once _ _ _ _ Hm Ha Hb).
  rewrite (replace_all_absent "%"%char); [reflexivity | |].
  - rewrite !has_char_app, Ha, Hval, Hb. reflexivity.
  - apply Forall_app. split; [exact Hpost | apply env_replacements_ok].
Qed.

Lemma write_custodian_configs_plain_witness :
  _write_custodian_configs example_output [("POLICYGEN_ENV_TEAM", "ops")]
    (fun _ => "policies: []") (VDict [("policies", VList [])]) "us-east-1"
  = Ok ("custodian_us-east-1.yml", "policies: []").
Proof.
  apply (write_custodian_configs_plain example_output [("POLICYGEN_ENV_TEAM", "ops")]
           (fun _ => "policies: []") (VDict [("policies", VList [])])
           (VStr "https://sqs.example.com/c7n-mailer") "us-east-1");
    reflexivity.
Defined.

Lemma write_custodian_configs_raises_witness :
  _write_custodian_configs output_without_dlq [] (fun _ => "policies: []")
    (VDict [("policies", VList [])]) "us-east-1"
  = Raise TypeError.
Proof.
  apply (write_custodian_configs_raises output_without_dlq [] (fun _ => "policies: []")
           (VDict [("policies", VList [])])
           (VStr "https://sqs.example.com/c7n-mailer") "us-east-1");
    reflexivity.
Defined.

Lemma write_custodian_configs_macro_witness :
  _write_custodian_configs example_output [("POLICYGEN_ENV_TEAM", "ops")]
    (fun _ => "bucket: s3://%%BUCKET_NAME%%/logs") VNone "us-east-1"
  = Ok ("custodian_us-east-1.yml", "bucket: s3://" +:+ "c7n-logs" +:+ "/logs").
Proof.
  apply (write_custodian_configs_macro example_output [("POLICYGEN_ENV_TEAM", "ops")]
           (fun _ => "bucket: s3://%%BUCKET_NAME%%/logs") VNone
           (VStr "https://sqs.example.com/c7n-mailer") "us-east-1"
           "%%BUCKET_NAME%%" "c7n-logs" "bucket: s3://" "/logs");
    try reflexivity.
  now left.
Defined.

(** ** [_policy_rst_data] *)

Lemma keys_set_In (k x : string) (v : value) (d : dict) :
  In x (keys (dict_set k v d)) <-> x = k \/ In x (keys d).
Proof.
  induction d as [|[k' v'] d IH]; cbn.
  - split; [intros [<- | []]; now left | intros [-> | []]; now left].
  - destruct (String.eqb k k') eqn:E; cbn.
    + apply eqb_true in E. subst k'. split; [intros [<- | ?]; auto | intros [-> | [<- | ?]]; auto].
    + rewrite IH. split; [intros [<- | [-> | ?]]; auto | intros [-> | [<- | ?]]; auto].
Qed.

Lemma amap_get_In_keys {A} (k : string) (m : list (string * A)) :
  In k (map fst m) <-> is_Some (amap_get k m).
Proof.
  induction m as [|[k' x] m IH]; cbn.
  - split; [intros [] | intros [? [=]]].
  - destruct (String.eqb k k') eqn:E.
    + apply eqb_true in E. subst k'. split; [eauto | now left].
    + apply eqb_false in E. rewrite <- IH. split; [intros [? | ?]; [congruence | auto] | auto].
Qed.

Lemma sorted_In (x : string) (l : list string) : In x (sorted l) <-> In x l.
Proof.
  split; intros H.
  - eapply Permutation_in; [apply sorted_perm | exact H].
  - eapply Permutation_in; [symmetry; apply sorted_perm | exact H].
Qed.

Lemma policy_comment_str (policy r : value) :
  _policy_comment policy = Ok r -> is_str r = true.
Proof.
  intros H. now destruct (policy_comment_keys_ok _ _ _ H) as [-> | (k & c & _ & _ & ->)].
Qed.

Lemma descriptions_ok_set (k c : string) (d : dict) :
  descriptions_ok d -> descriptions_ok (dict_set k (VStr c) d).
Proof.
  intros [Hnd Hall]. split; [now apply NoDup_keys_set|].
  clear Hnd. induction d as [|[k' v'] d IH]; cbn.
  - repeat constructor.
  - apply Forall_cons in Hall as [Hv Hd].
    destruct (String.eqb k k'); constructor; auto.
Qed.

Lemma rst_policy_Ok (policies : dict) (acctname rname pname : string)
    (names names' : names_map) (desc desc' : dict) :
  rst_policy policies acctname rname (names, desc) pname = Ok (names', desc') ->
  exists c, desc' = dict_set pname (VStr c) desc.
Proof.
  unfold rst_policy. destruct (amap_get acctname names); [|discriminate].
  destruct (dict_get pname policies) as [policy|]; [|discriminate].
  intros H. apply bind_Ok_inv in H as (c & Hc & H).
  pose proof (policy_comment_str _ _ Hc) as Hs.
  destruct c; try discriminate. simplify_eq. eauto.
Qed.

Lemma rst_policies_keys (policies : dict) (acctname rname : string)
    (pnames : list string) :
  forall names desc names' desc',
    foldM (rst_policy policies acctname rname) pnames (names, desc) = Ok (names', desc') ->
    descriptions_ok desc ->
    descriptions_ok desc' /\
    forall n, In n (keys desc') <-> In n (keys desc) \/ In n pnames.
Proof.
  induction pnames as [|p pnames IH]; intros names desc names' desc' H Hd.
  - cbn in H. simplify_eq. split; [exact Hd|].
    intros n. split; [auto | intros [? | []]; auto].
  - cbn [foldM] in H. apply bind_Ok_inv in H as ([names1 desc1] & Hp & H).
    destruct (rst_policy_Ok _ _ _ _ _ _ _ _ Hp) as (c & ->).
    destruct (IH _ _ _ _ H (descriptions_ok_set _ _ _ Hd)) as [Hd' Hk].
    split; [exact Hd'|]. intros n. rewrite Hk, keys_set_In. cbn [In].
    split; [intros [[-> | ?] | ?]; auto | intros [? | [<- | ?]]; auto].
Qed.

Lemma rst_regions_keys (region_policies : region_map) (acctname : string)
    (rnames : list string) :
  forall names desc names' desc',
    foldM (rst_region region_policies acctname) rnames (names, desc) = Ok (names', desc') ->
    descriptions_ok desc ->
    descriptions_ok desc' /\
    forall n, In n (keys desc') <->
              In n (keys desc) \/
              exists r ps, In r rnames /\ amap_get r region_policies = Some ps /\
                           dict_has n ps = true.
Proof.
  induction rnames as [|r rnames IH]; intros names desc names' desc' H Hd.
  - cbn in H. simplify_eq. split; [exact Hd|].
    intros n. split; [auto | intros [? | (? & ? & [] & _)]; auto].
  - cbn [foldM] in H. apply bind_Ok_inv in H as ([names1 desc1] & Hr & H).
    unfold rst_region in Hr.
    destruct (amap_get r region_policies) as [ps|] eqn:Hps; [|discriminate].
    destruct (rst_policies_keys _ _ _ _ _ _ _ _ Hr Hd) as [Hd1 Hk1].
    destruct (IH _ _ _ _ H Hd1) as [Hd' Hk].
    split; [exact Hd'|]. intros n. rewrite Hk, Hk1, sorted_In.
    split.
    + intros [[? | Hn] | (r' & ps' & Hin & Hget & Hn)]; [auto | |].
      * right. exists r, ps. split; [now left|]. split; [exact Hps|].
        now apply keys_In_has.
      * right. exists r', ps'. split; [now right | auto].
    + intros [? | (r' & ps' & [<- | Hin] & Hget & Hn)]; [auto | |].
      * left. right. rewrite Hps in Hget. injection Hget as <-.
        now apply keys_In_has.
      * right. eauto.
Qed.

Lemma rst_accounts_keys (account_policies : account_map) (anames : list string) :
  forall names desc names' desc',
    foldM (rst_account account_policies) anames (names, desc) = Ok (names', desc') ->
    descriptions_ok desc ->
    descriptions_ok desc' /\
    forall n, In n (keys desc') <->
              In n (keys desc) \/
              exists a r ps, In a anames /\
                             policies_of account_policies a r = Some ps /\
                             dict_has n ps = true.
Proof.
  induction anames as [|a anames IH]; intros names desc names' desc' H Hd.
  - cbn in H. simplify_eq. split; [exact Hd|].
    intros n. split; [auto | intros [? | (? & ? & ? & [] & _)]; auto].
  - cbn [foldM] in H. apply bind_Ok_inv in H as ([names1 desc1] & Ha & H).
    unfold rst_account in Ha.
    destruct (amap_get a account_policies) as [rp|] eqn:Hrp; [|discriminate].
    destruct (rst_regions_keys _ _ _ _ _ _ _ Ha Hd) as [Hd1 Hk1].
    destruct (IH _ _ _ _ H Hd1) as [Hd' Hk].
    split; [exact Hd'|]. intros n. rewrite Hk, Hk1. unfold policies_of.
    split.
    + intros [[? | (r & ps & _ & Hget & Hn)] | (a' & r & ps & Hin & Hget & Hn)];
        [auto | |].
      * right. exists a, r, ps. rewrite Hrp. split; [now left | auto].
      * right. exists a', r, ps. split; [now right | auto].
    + intros [? | (a' & r & ps & [<- | Hin] & Hget & Hn)]; [auto | |].
      * left. right. rewrite Hrp in Hget. exists r, ps. split; [|auto].
        apply sorted_In, amap_get_In_keys. eauto.
      * right. eauto 8.
Qed.

Lemma rst_rows (all_regions acct_names : list string) (names : names_map)
    (desc : dict) (pnames : list string) :
  Forall (fun kv => is_str (snd kv) = true) desc ->
  forall rows rows',
    foldM (rst_row all_regions acct_names names desc) pnames rows = Ok rows' ->
    exists new,
      rows' = rows ++ new /\
      Forall2 (fun row n => exists accts d, row = VList [VStr n; VStr accts; VStr d])
        new pnames.
Proof.
  intros Hd. induction pnames as [|p pnames IH]; intros rows rows' H.
  - cbn in H. simplify_eq. exists []. rewrite app_nil_r. split; [reflexivity | constructor].
  - cbn [foldM] in H. apply bind_Ok_inv in H as (rows1 & Hp & H).
    destruct (IH _ _ H) as (new & -> & Hnew).
    unfold rst_row in Hp. apply bind_Ok_inv in Hp as (accts & _ & Hp).
    apply bind_Ok_inv in Hp as (description & Hdesc & Hp).
    assert (Hs : exists d, description = VStr d).
    { cbn in Hdesc. destruct (dict_get p desc) as [v|] eqn:Hv; [|discriminate].
      simplify_eq. apply dict_get_In in Hv. rewrite Forall_forall in Hd.
      apply list_elem_of_In, Hd in Hv. cbn in Hv. destruct description; try discriminate.
      eauto. }
    destruct Hs as (d & ->).
    destruct (bool_decide (accts = acct_names)); simplify_eq;
      (eexists (_ :: new); rewrite <- app_assoc; split; [reflexivity|];
       constructor; [eauto | exact Hnew]).
Qed.

(** The table of policies has one row for each policy name, in the
    ascending order of the names: the names are those of the policies of
    any account and region, each once, whatever the accounts and regions
    that have it; a row is the name and two strings. *)
Theorem policy_rst_data_rows (regions : list string) (account_policies : account_map)
    (rows : list value) :
  _policy_rst_data regions account_policies = Ok rows ->
  exists names,
    Forall2 (fun row n => exists accts d, row = VList [VStr n; VStr accts; VStr d])
      rows names /\
    Sorted (fun a b => String.leb a b = true) names /\
    NoDup names /\
    forall n, In n names <->
              exists a r ps, policies_of account_policies a r = Some ps /\
                             dict_has n ps = true.
Proof.
  unfold _policy_rst_data. intros H.
  apply bind_Ok_inv in H as ([names desc] & Hacc & H).
  destruct (rst_accounts_keys _ _ _ _ _ _ Hacc) as [[Hnd Hstr] Hk];
    [split; constructor|].
  destruct (rst_rows _ _ _ _ _ Hstr _ _ H) as (new & -> & Hrows).
  exists (sorted (keys desc)). split; [exact Hrows|].
  split; [apply sorted_Sorted|]. split.
  - apply NoDup_ListNoDup. eapply Permutation_NoDup; [symmetry; apply sorted_perm|].
    now apply NoDup_ListNoDup.
  - intros n. rewrite sorted_In, Hk. split.
    + intros [[] | (a & r & ps & _ & Hget & Hn)]. eauto.
    + intros (a & r & ps & Hget & Hn). right. exists a, r, ps.
      split; [|auto]. apply sorted_In, amap_get_In_keys.
      unfold policies_of in Hget. destruct (amap_get a account_policies); [eauto | discriminate].
Qed.

Lemma policy_rst_data_rows_witness :
  exists names,
    Forall2 (fun row n => exists accts d, row = VList [VStr n; VStr accts; VStr d])
      [ VList [VStr "ec2-stop"; VStr "dev (us-east-1)"; VStr "unknown"];
        VList [VStr "ec2-untagged"; VStr ""; VStr "unknown"] ]
      names /\
    Sorted (fun a b => String.leb a b = true) names /\
    NoDup names /\
    forall n, In n names <->
              exists a r ps, policies_of example_accounts a r = Some ps /\
                             dict_has n ps = true.
Proof.
  apply (policy_rst_data_rows ["us-east-1"; "eu-west-1"] example_accounts). reflexivity.
Defined.

(** *** The accounts and regions of a policy *)

Lemma rst_policy_names (policies : dict) (acctname rname pname : string)
    (names names' : names_map) (desc desc' : dict) (m : list (string * list string)) :
  rst_policy policies acctname rname (names, desc) pname = Ok (names', desc') ->
  amap_get acctname names = Some m ->
  names' = amap_set acctname (amap_set pname (default_get pname m ++ [rname]) m) names.
Proof.
  unfold rst_policy. intros H Hm. rewrite Hm in H.
  destruct (dict_get pname policies) as [policy|]; [|discriminate].
  apply bind_Ok_inv in H as (c & _ & H). now simplify_eq.
Qed.

Lemma default_get_set_eq (p : string) (l : list string) (m : list (string * list string)) :
  default_get p (amap_set p l m) = l.
Proof. unfold default_get. now rewrite amap_get_set_eq. Qed.

Lemma default_get_set_ne (p p' : string) (l : list string)
    (m : list (string * list string)) :
  p <> p' -> default_get p (amap_set p' l m) = default_get p m.
Proof. intros H. unfold default_get. now rewrite amap_get_set_ne. Qed.

Lemma rst_policies_names (policies : dict) (acctname rname : string)
    (pnames : list string) :
  forall names desc names' desc' m,
    foldM (rst_policy policies acctname rname) pnames (names, desc) = Ok (names', desc') ->
    List.NoDup pnames ->
    amap_get acctname names = Some m ->
    exists m',
      amap_get acctname names' = Some m' /\
      (forall p, default_get p m'
                 = default_get p m ++ (if existsb (String.eqb p) pnames then [rname] else [])) /\
      (forall a, a <> acctname -> amap_get a names' = amap_get a names).
Proof.
  induction pnames as [|p0 pnames IH]; intros names desc names' desc' m H Hnd Hm.
  - cbn in H. simplify_eq. exists m. split; [exact Hm|].
    split; [intros p; cbn; now rewrite app_nil_r | auto].
  - cbn [foldM] in H. apply bind_Ok_inv in H as ([names1 desc1] & Hp & H).
    rewrite (rst_policy_names _ _ _ _ _ _ _ _ _ Hp Hm) in H.
    apply List.NoDup_cons_iff in Hnd as [Hnotin Hnd].
    destruct (IH _ _ _ _ _ H Hnd (amap_get_set_eq _ _ _)) as (m' & Hm' & Hdef & Hother).
    exists m'. split; [exact Hm'|]. split.
    + intros p. rewrite Hdef. cbn [existsb].
      destruct (String.eqb p p0) eqn:E.
      * apply eqb_true in E. subst p0. rewrite default_get_set_eq. cbn [orb].
        assert (existsb (String.eqb p) pnames = false) as ->.
        { destruct (existsb _ pnames) eqn:Hex; [|reflexivity].
          apply existsb_exists in Hex as (x & Hx & Ex). apply eqb_true in Ex.
          subst x. contradiction. }
        now rewrite app_nil_r.
      * apply eqb_false in E. rewrite default_get_set_ne by exact E. reflexivity.
    + intros a Ha. rewrite Hother by exact Ha. now apply amap_get_set_ne.
Qed.

Lemma existsb_eqb_In (p : string) (l : list string) :
  existsb (String.eqb p) l = true <-> In p l.
Proof.
  rewrite existsb_exists. split.
  - intros (x & Hx & E). apply eqb_true in E. now subst.
  - intros H. exists p. split; [exact H | apply eqb_refl].
Qed.

Lemma sorted_NoDup (l : list string) : List.NoDup l -> List.NoDup (sorted l).
Proof. intros H. eapply Permutation_NoDup; [symmetry; apply sorted_perm | exact H]. Qed.

Lemma rst_regions_names (region_policies : region_map) (acctname : string)
    (rnames : list string) :
  (forall r ps, amap_get r region_policies = Some ps -> NoDup (keys ps)) ->
  forall names desc names' desc' m,
    foldM (rst_region region_policies acctname) rnames (names, desc) = Ok (names', desc') ->
    amap_get acctname names = Some m ->
    exists m',
      amap_get acctname names' = Some m' /\
      (forall p, default_get p m'
                 = default_get p m ++ List.filter (has_policy region_policies p) rnames) /\
      (forall a, a <> acctname -> amap_get a names' = amap_get a names).
Proof.
  intros Hwf. induction rnames as [|r rnames IH]; intros names desc names' desc' m H Hm.
  - cbn in H. simplify_eq. exists m. split; [exact Hm|].
    split; [intros p; cbn; now rewrite app_nil_r | auto].
  - cbn [foldM] in H. apply bind_Ok_inv in H as ([names1 desc1] & Hr & H).
    unfold rst_region in Hr.
    destruct (amap_get r region_policies) as [ps|] eqn:Hps; [|discriminate].
    destruct (rst_policies_names _ _ _ _ _ _ _ _ m Hr)
      as (m1 & Hm1 & Hdef1 & Hother1); [|exact Hm|].
    { apply sorted_NoDup, NoDup_ListNoDup. eauto. }
    destruct (IH _ _ _ _ _ H Hm1) as (m' & Hm' & Hdef & Hother).
    exists m'. split; [exact Hm'|]. split.
    + intros p. rewrite Hdef, Hdef1, <- app_assoc. f_equal.
      cbn [List.filter]. unfold has_policy at 2. rewrite Hps.
      assert (existsb (String.eqb p) (sorted (keys ps)) = dict_has p ps) as ->.
      { apply eq_true_iff_eq. rewrite existsb_eqb_In, sorted_In. apply keys_In_has. }
      now destruct (dict_has p ps).
    + intros a Ha. rewrite Hother, Hother1 by exact Ha. reflexivity.
Qed.

Lemma amap_get_In {A} (k : string) (x : A) (m : list (string * A)) :
  amap_get k m = Some x -> In (k, x) m.
Proof.
  induction m as [|[k' x'] m IH]; cbn; [discriminate|].
  destruct (String.eqb k k') eqn:E; [|auto].
  apply eqb_true in E. intros [= ->]. left. now subst.
Qed.

Lemma account_map_wf_policies (account_policies : account_map) (a r : string)
    (rp : region_map) (ps : dict) :
  account_map_wf account_policies ->
  amap_get a account_policies = Some rp -> amap_get r rp = Some ps -> NoDup (keys ps).
Proof.
  intros [_ Hwf] Ha Hr. apply amap_get_In, list_elem_of_In in Ha, Hr.
  rewrite Forall_forall in Hwf. destruct (Hwf _ Ha) as [_ Hrp].
  rewrite Forall_forall in Hrp. exact (Hrp _ Hr).
Qed.

Lemma rst_accounts_names (account_policies : account_map) (anames : list string) :
  account_map_wf account_policies ->
  forall names desc names' desc',
    foldM (rst_account account_policies) anames (names, desc) = Ok (names', desc') ->
    List.NoDup anames ->
    (forall a, In a anames -> amap_get a names = Some []) ->
    (forall a rp, In a anames -> amap_get a account_policies = Some rp ->
       exists m', amap_get a names' = Some m' /\
                  forall p, default_get p m' = regions_with rp p) /\
    (forall a, ~ In a anames -> amap_get a names' = amap_get a names).
Proof.
  intros Hwf. induction anames as [|a0 anames IH];
    intros names desc names' desc' H Hnd Hinit.
  - cbn in H. simplify_eq. split; [intros a rp [] | auto].
  - cbn [foldM] in H. apply bind_Ok_inv in H as ([names1 desc1] & Ha & H).
    unfold rst_account in Ha.
    destruct (amap_get a0 account_policies) as [rp0|] eqn:Hrp; [|discriminate].
    apply List.NoDup_cons_iff in Hnd as [Hnotin Hnd].
    destruct (rst_regions_names _ _ _ (fun r ps => account_map_wf_policies _ _ r _ ps Hwf Hrp)
                _ _ _ _ [] Ha)
      as (m0 & Hm0 & Hdef0 & Hother0); [apply Hinit; now left|].
    destruct (IH _ _ _ _ H Hnd) as [IH1 IH2].
    { intros a Hin. rewrite Hother0; [apply Hinit; now right|].
      intros ->. contradiction. }
    split.
    + intros a rp [<- | Hin] Hget; [|eauto].
      rewrite Hrp in Hget. injection Hget as <-.
      exists m0. rewrite (IH2 _ Hnotin). split; [exact Hm0|].
      intros p. now rewrite Hdef0.
    + intros a Hnin. rewrite IH2 by (intros Hin; apply Hnin; now right).
      apply Hother0. intros ->. apply Hnin. now left.
Qed.

Lemma initial_names (account_policies : account_map) (a : string) :
  In a (map fst account_policies) ->
  amap_get a (map (fun x => (fst x, [])) account_policies
              : names_map) = Some [].
Proof.
  induction account_policies as [|[k rp] ap IH]; cbn; [intros []|].
  destruct (String.eqb a k) eqn:E; [reflexivity|].
  apply eqb_false in E. intros [? | Hin]; [congruence | auto].
Qed.

Lemma rst_acct_entries (all_regions : list string) (account_policies : account_map)
    (names : names_map) (pname : string) (anames : list string) :
  (forall a rp, amap_get a account_policies = Some rp ->
     exists m', amap_get a names = Some m' /\
                forall p, default_get p m' = regions_with rp p) ->
  Forall (fun a => is_Some (amap_get a account_policies)) anames ->
  forall accts,
    foldM (rst_acct_entry all_regions names pname) anames accts
    = Ok (accts ++ concat (map (account_entry all_regions account_policies pname) anames)).
Proof.
  intros Hnames Hall. induction Hall as [|a anames [rp Hrp] _ IH]; intros accts.
  - cbn. now rewrite app_nil_r.
  - cbn [foldM map concat].
    assert (rst_acct_entry all_regions names pname accts a
            = Ok (accts ++ account_entry all_regions account_policies pname a)) as ->.
    { unfold rst_acct_entry, account_entry.
      destruct (Hnames _ _ Hrp) as (m' & -> & Hdef). rewrite Hrp, Hdef. cbn zeta.
      destruct (bool_decide _); [reflexivity|].
      destruct (Nat.ltb 0 _); [reflexivity | now rewrite app_nil_r]. }
    cbn [mbind result_bind]. rewrite IH, <- app_assoc. reflexivity.
Qed.

(** The accounts column of the table of policies.  For the policy of a
    row, each account, in the ascending order of the account names, gives
    its name when the regions where it has the policy are all the regions
    of the configuration, its name and these regions in parentheses when
    they are some, and nothing when it does not have the policy; the column
    is empty when these are the names of all the accounts, and the entries
    joined by spaces otherwise. *)
Theorem policy_rst_data_accounts (regions : list string) (account_policies : account_map)
    (rows : list value) :
  account_map_wf account_policies ->
  _policy_rst_data regions account_policies = Ok rows ->
  Forall (fun row => exists n accts d,
            row = VList [VStr n; VStr accts; VStr d] /\
            let acct_names := sorted (map fst account_policies) in
            let l := concat (map (account_entry (sorted regions) account_policies n)
                               acct_names) in
            accts = if bool_decide (l = acct_names) then "" else join " " l) rows.
Proof.
  intros Hwf. unfold _policy_rst_data. intros H.
  apply bind_Ok_inv in H as ([names desc] & Hacc & H).
  destruct (rst_accounts_keys _ _ _ _ _ _ Hacc) as [[_ Hstr] _]; [split; constructor|].
  destruct (rst_accounts_names _ _ Hwf _ _ _ _ Hacc) as [Hnames _].
  { apply sorted_NoDup, NoDup_ListNoDup, Hwf. }
  { intros a Hin. apply initial_names. exact (proj1 (sorted_In _ _) Hin). }
  assert (Hnames' : forall a rp, amap_get a account_policies = Some rp ->
            exists m', amap_get a names = Some m' /\
                       forall p, default_get p m' = regions_with rp p).
  { intros a rp Hget. apply Hnames; [|exact Hget].
    apply (proj2 (sorted_In _ _)), (proj2 (amap_get_In_keys _ _)). eauto. }
  assert (Hall : Forall (fun a => is_Some (amap_get a account_policies))
                   (sorted (map fst account_policies))).
  { apply Forall_forall. intros a Hin. apply list_elem_of_In in Hin.
    apply amap_get_In_keys. exact (proj1 (sorted_In _ _) Hin). }
  revert H. generalize (sorted (keys desc)) as pnames.
  assert (Hgen : forall pnames rows0 rows,
            foldM (rst_row (sorted regions) (sorted (map fst account_policies)) names desc)
              pnames rows0 = Ok rows ->
            forall P : value -> Prop,
              Forall P rows0 ->
              (forall n d,
                 P (VList [VStr n;
                           VStr (let l := concat (map (account_entry (sorted regions)
                                                         account_policies n)
                                                    (sorted (map fst account_policies))) in
                                 if bool_decide (l = sorted (map fst account_policies))
                                 then "" else join " " l);
                           VStr d])) ->
              Forall P rows).
  { induction pnames as [|p pnames IH]; intros rows0 rows1 H P HP Hrow.
    - cbn in H. now simplify_eq.
    - cbn [foldM] in H. apply bind_Ok_inv in H as (rows2 & Hp & H).
      apply (IH _ _ H P); [|exact Hrow].
      unfold rst_row in Hp.
      rewrite (rst_acct_entries _ account_policies _ _ _ Hnames' Hall []) in Hp.
      cbn [mbind result_bind app] in Hp.
      apply bind_Ok_inv in Hp as (description & Hdesc & Hp).
      assert (Hs : exists d, description = VStr d).
      { cbn in Hdesc. destruct (dict_get p desc) as [v|] eqn:Hv; [|discriminate].
        simplify_eq. apply dict_get_In in Hv. rewrite Forall_forall in Hstr.
        apply list_elem_of_In, Hstr in Hv. cbn in Hv.
        destruct description; try discriminate. eauto. }
      destruct Hs as (d & ->).
      specialize (Hrow p d). cbn zeta in Hrow.
      destruct (bool_decide _); simplify_eq; apply Forall_app; split; auto. }
  intros pnames H. eapply (Hgen _ _ _ H); [constructor|].
  intros n d. eexists n, _, d. split; reflexivity.
Qed.

Lemma policy_rst_data_accounts_witness :
  Forall (fun row => exists n accts d,
            row = VList [VStr n; VStr accts; VStr d] /\
            let acct_names := sorted (map fst example_accounts) in
            let l := concat (map (account_entry (sorted ["us-east-1"; "eu-west-1"])
                                    example_accounts n) acct_names) in
            accts = if bool_decide (l = acct_names) then "" else join " " l)
    [ VList [VStr "ec2-stop"; VStr "dev (us-east-1)"; VStr "unknown"];
      VList [VStr "ec2-untagged"; VStr ""; VStr "unknown"] ].
Proof.
  apply (policy_rst_data_accounts ["us-east-1"; "eu-west-1"] example_accounts).
  - repeat first [apply Forall_nil_2 | apply Forall_cons_2 | split];
      apply (bool_decide_unpack _); vm_compute; exact I.
  - reflexivity.
Defined.
